(** * The image acquisition-and-persistence pipeline of zarf (package images)

    A shallow embedding of [Pull], [CleanupInProgressLayers],
    [SaveSequential] and [SaveConcurrent] and the properties the
    specification states about them.

    Conventions of the embedding:
    - a Go [error] is a value of the inductive type [error]; [nil] is [None]
      of [option error];
    - a Go [(T, error)] result is a value of [result T];
    - a Go [map] is a stdpp [gmap]; the order in which [range] visits it is
      not fixed by the language, so every loop over a map takes the visiting
      order as an explicit list;
    - a cleaned file path is the list of its components, [filepath.Join] is
      list concatenation;
    - library primitives (crane, the docker client, the layout writer) are
      fields of environment records, so every theorem holds for all
      behaviours of the libraries. *)

From Stdlib Require Import String Ascii ZArith Lia.
From stdpp Require Import base option list gmap strings sorting.

Open Scope string_scope.
Open Scope Z_scope.

(** ** Go values shared by the whole package *)

(** Errors. [Wrap msg e] is [fmt.Errorf(msg + "%w", e)]; [ErrNotExist],
    [SkipDir] and [SkipAll] are the sentinels of [io/fs].
    [TransportError status text] is the error a registry client returns for
    a reply that is not a success: the HTTP status of the reply, and the
    text [Error()] gives for it, which the client makes from the body of
    the reply. *)
Inductive error : Type :=
  | Errorf (msg : string)
  | Wrap (msg : string) (cause : error)
  | ErrNotExist
  | SkipDir
  | SkipAll
  | TransportError (status : Z) (text : string).

Inductive result (A : Type) : Type :=
  | Ok (a : A)
  | Err (e : error).
Arguments Ok {A} a.
Arguments Err {A} e.

#[global] Instance error_eq_dec : EqDecision error.
Proof. solve_decision. Defined.

(** [err.Error()] *)
Fixpoint Error (e : error) : string :=
  match e with
  | Errorf msg => msg
  | Wrap msg cause => msg ++ Error cause
  | ErrNotExist => "file does not exist"
  | SkipDir => "skip this directory"
  | SkipAll => "skip everything and stop the walk"
  | TransportError _ text => text
  end.

(** [errors.Is(e, fs.ErrNotExist)] follows the chain of wrapped causes. *)
Fixpoint is_ErrNotExist (e : error) : bool :=
  match e with
  | ErrNotExist => true
  | Wrap _ cause => is_ErrNotExist cause
  | _ => false
  end.

(** The HTTP status an error carries, if it is the error of a reply of a
    registry or wraps one. *)
Fixpoint http_status (e : error) : option Z :=
  match e with
  | TransportError status _ => Some status
  | Wrap _ cause => http_status cause
  | _ => None
  end.

(** A 64-bit signed integer is a [Z] wrapped into its range. *)
Definition wrap64 (z : Z) : Z := (z + 2 ^ 63) mod 2 ^ 64 - 2 ^ 63.
Definition int64_add (a b : Z) : Z := wrap64 (a + b).

(** ** Package [strings] *)
Module GoStrings.

Fixpoint drop (n : nat) (s : string) : string :=
  match n, s with
  | O, _ => s
  | S n', String _ s' => drop n' s'
  | S _, EmptyString => EmptyString
  end.

(** [strings.HasPrefix(s, p)] *)
Definition HasPrefix (s p : string) : bool := String.prefix p s.

(** [strings.HasSuffix(s, suffix)]:
    [len(s) >= len(suffix) && s[len(s)-len(suffix):] == suffix] *)
Definition HasSuffix (s suffix : string) : bool :=
  (String.length suffix <=? String.length s)%nat
  && String.eqb (drop (String.length s - String.length suffix) s) suffix.

(** [strings.Contains(s, substr)] *)
Fixpoint Contains (s substr : string) : bool :=
  HasPrefix s substr
  || match s with
     | EmptyString => false
     | String _ s' => Contains s' substr
     end.

(** [strings.Replace(s, old, new, 1)]: only the first (leftmost)
    occurrence of [old] is replaced; an empty [old] matches at the
    beginning of [s]. *)
Fixpoint Replace1 (s old new : string) : string :=
  if HasPrefix s old then new ++ drop (String.length old) s
  else match s with
       | EmptyString => EmptyString
       | String c s' => String c (Replace1 s' old new)
       end.

(** [strings.Join(elems, sep)] *)
Definition Join (elems : list string) (sep : string) : string :=
  String.concat sep elems.

Lemma Replace1_prefix s old new :
  HasPrefix s old = true -> Replace1 s old new = new ++ drop (String.length old) s.
Proof. destruct s; simpl; intros ->; reflexivity. Qed.

Lemma Replace1_unfold s old new :
  Replace1 s old new =
    if HasPrefix s old then new ++ drop (String.length old) s
    else match s with
         | EmptyString => EmptyString
         | String c s' => String c (Replace1 s' old new)
         end.
Proof. destruct s; reflexivity. Qed.

End GoStrings.

(** ** Registry overrides (Pull, the loop over [cfg.RegistryOverrides]) *)
Module Overrides.
Import GoStrings.

(** One iteration of the loop body: the assignment to [ref] is always
    computed from [refInfo.Reference], never from the current [ref]. *)
Definition override_step (reference : string) (ref : string) (kv : string * string) : string :=
  if HasPrefix reference kv.1 then Replace1 reference kv.1 kv.2 else ref.

(** [ref := refInfo.Reference; for k, v := range cfg.RegistryOverrides {...}].
    [order] is the order in which [range] visits the map. *)
Definition applyOverrides (reference : string) (order : list (string * string)) : string :=
  fold_left (override_step reference) order reference.

(** The rule as the specification words it: the first pair whose prefix
    matches rewrites the reference, and the scan stops there. *)
Fixpoint spec_first_match (reference : string) (order : list (string * string)) : string :=
  match order with
  | [] => reference
  | (k, v) :: rest =>
      if HasPrefix reference k then v ++ drop (String.length k) reference
      else spec_first_match reference rest
  end.

(** The last pair of [order] whose prefix matches, if any. *)
Fixpoint last_match (reference : string) (order : list (string * string))
  : option (string * string) :=
  match order with
  | [] => None
  | kv :: rest =>
      match last_match reference rest with
      | Some kv' => Some kv'
      | None => if HasPrefix reference kv.1 then Some kv else None
      end
  end.

Definition rewrite_with (reference : string) (m : option (string * string)) : string :=
  match m with
  | Some (k, v) => v ++ drop (String.length k) reference
  | None => reference
  end.

Lemma fold_override_last reference order acc :
  fold_left (override_step reference) order acc =
    match last_match reference order with
    | Some kv => rewrite_with reference (Some kv)
    | None => acc
    end.
Proof.
  revert acc. induction order as [|[k v] rest IH]; intros acc; simpl; [reflexivity|].
  rewrite IH. destruct (last_match reference rest) as [kv'|]; [reflexivity|].
  unfold override_step; simpl.
  destruct (HasPrefix reference k) eqn:Hp; [|reflexivity].
  simpl. now rewrite Replace1_prefix.
Qed.

(** C6 (as amended): whatever the visiting order, the result is the raw
    reference rewritten once with the LAST visited pair whose prefix
    matches, and the raw reference itself when no prefix matches. *)
Theorem C6_override_last_match (reference : string) (order : list (string * string)) :
  applyOverrides reference order = rewrite_with reference (last_match reference order)
  /\ (last_match reference order = None <->
      Forall (fun kv => HasPrefix reference kv.1 = false) order)
  /\ (forall kv, last_match reference order = Some kv ->
      kv ∈ order /\ HasPrefix reference kv.1 = true).
Proof.
  split; [|split].
  - unfold applyOverrides. rewrite fold_override_last.
    destruct (last_match reference order); reflexivity.
  - induction order as [|kv rest IH]; simpl.
    + split; [constructor | reflexivity].
    + destruct (last_match reference rest) eqn:Hl.
      * split; [discriminate|]. intros H; inversion H; subst.
        apply IH in H3. discriminate.
      * destruct (HasPrefix reference kv.1) eqn:Hp.
        -- split; [discriminate|]. intros H. inversion H; subst. congruence.
        -- split; [|reflexivity]. intros _. constructor; [assumption|]. now apply IH.
  - induction order as [|kv0 rest IH]; simpl; intros kv H; [discriminate|].
    destruct (last_match reference rest) eqn:Hl.
    + inversion H; subst. destruct (IH kv eq_refl) as [Hin Hp].
      split; [now right | assumption].
    + destruct (HasPrefix reference kv0.1) eqn:Hp; [|discriminate].
      inversion H; subst. split; [now left | assumption].
Qed.

(** C6 (as stated) fails: with the overrides ["a" -> "X"] and
    ["ab" -> "Y"] visited in that order, the reference ["abc"] becomes
    ["Yc"], where the first matching pair would give ["Xbc"]. The list is
    a visiting order of a Go map: its keys are distinct. *)
Lemma C6_first_match_refuted :
  let order := [("a", "X"); ("ab", "Y")] in
  NoDup order.*1
  /\ applyOverrides "abc" order = "Yc"
  /\ spec_first_match "abc" order = "Xbc"
  /\ applyOverrides "abc" order <> spec_first_match "abc" order.
Proof.
  simpl. split; [|split; [|split]]; try reflexivity.
  - apply NoDup_cons; split; [rewrite list_elem_of_singleton; discriminate|].
    apply NoDup_singleton.
  - discriminate.
Qed.

End Overrides.


(** ** The data model *)

(** [transform.Image]: the key of every map of the pipeline. *)
Record Image : Type := mkImage {
  Reference : string;
  Name : string;
  Tag : string;
  Digest : string
}.

#[global] Instance Image_eq_dec : EqDecision Image.
Proof. solve_decision. Defined.

#[global] Instance Image_countable : Countable Image.
Proof.
  refine (inj_countable'
            (fun i => [Reference i; Name i; Tag i; Digest i])
            (fun l => match l with
                      | [r; n; t; d] => mkImage r n t d
                      | _ => mkImage "" "" "" ""
                      end) _).
  intros []; reflexivity.
Defined.

(** [v1.Hash]; [Hash_String] is its [String()] method. *)
Record Hash : Type := mkHash { Algorithm : string; Hex : string }.

Definition Hash_String (h : Hash) : string := Algorithm h ++ ":" ++ Hex h.

(** [v1.Layer], reduced to the two methods the package calls. *)
Record Layer : Type := mkLayer {
  layer_Digest : result Hash;
  layer_Size : result Z
}.

(** [v1.Manifest]: only [Config.Size] is read. *)
Record Manifest : Type := mkManifest { Config_Size : Z }.

(** A cleaned path, as the list of its components. *)
Abbreviation path := (list string).

(** [v1.Image]. [img_cache] is [Some dir] for a handle wrapped by
    [cache.Image(_, cache.NewFilesystemCache(dir))]; the wrapper answers
    [Manifest()] and [Layers()] (and each layer's [Digest()] and [Size()])
    as the wrapped image does. *)
Record v1Image : Type := mkv1Image {
  img_Manifest : result Manifest;
  img_Layers : result (list Layer);
  img_cache : option path
}.

Definition cache_Image (img : v1Image) (dir : path) : v1Image :=
  {| img_Manifest := img_Manifest img;
     img_Layers := img_Layers img;
     img_cache := Some dir |}.

(** [remote.Descriptor] *)
Record Descriptor : Type := mkDescriptor {
  MediaType : string;
  desc_Manifest : string
}.

(** One entry of [v1.IndexManifest.Manifests]: the platform as [%s] prints
    it, and the digest. *)
Record IndexEntry : Type := mkIndexEntry {
  Platform : string;
  entry_Digest : Hash
}.

(** [PullConfig] *)
Record PullConfig : Type := mkPullConfig {
  DestinationDirectory : path;
  CacheDirectory : path;
  RegistryOverrides : gmap string string;
  ImageList : list Image;
  Arch : string
}.

(** [types.MediaType.IsIndex] *)
Definition IsIndex (mt : string) : bool :=
  String.eqb mt "application/vnd.oci.image.index.v1+json"
  || String.eqb mt "application/vnd.docker.distribution.manifest.list.v2+json".

(** What one worker of [Pull] does that the outside can observe. *)
Inductive Event : Type :=
  | SpinnerUpdate (idx total : Z)
  | Warn (msg : string)
  | Call_crane_Load (ref : string)
  | Call_ParseReference (ref : string)
  | Call_crane_Get (ref : string)
  | Call_crane_Pull (ref : string)
  | Call_docker_NewClient
  | Call_docker_NegotiateAPIVersion
  | Call_docker_ImageInspect (ref : string)
  | Call_daemon_Image (reference : string).

#[global] Instance Event_eq_dec : EqDecision Event.
Proof. solve_decision. Defined.

(** The registries, the local files and the docker daemon, as the library
    calls of the package see them. A failing call returns no value beside
    its error ([crane.Get] returns a nil descriptor with its error). *)
Record Remote : Type := mkRemote {
  crane_Load : string -> result v1Image;
  name_ParseReference : string -> result string;
  crane_Get : string -> result Descriptor;
  crane_Pull : string -> result v1Image;
  client_NewClientWithOpts : option error;
  cli_ImageInspectWithRaw : string -> result Z;
  daemon_Image : string -> result v1Image;
  json_Unmarshal : string -> result (list IndexEntry);
  utils_ByteFormat : Z -> string
}.

(** ** The image source resolver (the body of a worker of [Pull] up to the
    wrapping by the layer cache) *)
Module Resolver.
Import GoStrings Overrides.

(** Computations that log events and may return early with an error. *)
Definition M (A : Type) : Type := list Event -> list Event * result A.

Definition ret {A} (a : A) : M A := fun tr => (tr, Ok a).
Definition fail {A} (e : error) : M A := fun tr => (tr, Err e).
Definition bind {A B} (m : M A) (k : A -> M B) : M B :=
  fun tr => match m tr with
            | (tr', Ok a) => k a tr'
            | (tr', Err e) => (tr', Err e)
            end.
Definition emit (ev : Event) : M unit := fun tr => (app tr [ev], Ok tt).
(** [v, err := call; if err != nil { return fmt.Errorf(msg + "%w", err) }] *)
Definition try_wrap {A} (msg : string) (r : result A) : M A :=
  match r with
  | Ok a => ret a
  | Err e => fail (Wrap msg e)
  end.
(** [v, err := call; if err != nil { return err }] *)
Definition try {A} (r : result A) : M A :=
  match r with
  | Ok a => ret a
  | Err e => fail e
  end.

Notation "'let*' x ':=' m 'in' k" := (bind m (fun x => k))
  (at level 10, x name, m at level 100, k at level 200).
Notation "m '>>>' k" := (bind m (fun _ => k))
  (at level 100, k at level 200, right associativity).

Definition nl : string := String (ascii_of_nat 10) EmptyString.

Definition is_tarball (ref : string) : bool :=
  HasSuffix ref ".tar" || HasSuffix ref ".tar.gz" || HasSuffix ref ".tgz".

Definition rate_limited (err : error) : bool :=
  Contains (Error err) "unexpected status code 429 Too Many Requests".

(** The fallback to the local docker daemon. *)
Definition daemonFallback (env : Remote) (ref reference : string) (err : error) : M v1Image :=
  emit (Warn ("Falling back to local 'docker', failed to find the manifest on a remote: "
              ++ Error err)) >>>
  emit Call_docker_NewClient >>>
  match client_NewClientWithOpts env with
  | Some e => fail (Wrap "docker not available: " e)
  | None =>
      emit Call_docker_NegotiateAPIVersion >>>
      emit (Call_docker_ImageInspect ref) >>>
      let* size := try (cli_ImageInspectWithRaw env ref) in
      (if 750 * 1000 * 1000 <? size
       then emit (Warn (ref ++ " is " ++ utils_ByteFormat env size
                        ++ " and may take a very long time to load via docker. "
                        ++ "See https://docs.zarf.dev/faq for suggestions on how to improve large local image loading operations."))
       else ret tt) >>>
      emit (Call_daemon_Image reference) >>>
      try_wrap "failed to load from docker daemon: " (daemon_Image env reference)
  end.

(** Where the image comes from: a tarball, the registry, or the daemon.
    The descriptor is kept only on the registry path. On the tarball path
    [err] is the variable of [Pull], which every worker that loads a
    tarball assigns: this function gives what a worker does when the [err]
    it tests is the one it has assigned itself. [Fetch.step] takes that
    path apart, one access to [err] at a time, and uses this function off
    the tarball path only, where [err] is a variable of the block. *)
Definition sourceImage (env : Remote) (refInfo : Image) (ref : string)
  : M (v1Image * option Descriptor) :=
  if is_tarball ref then
    emit (Call_crane_Load ref) >>>
    let* img := try_wrap ("unable to load " ++ Reference refInfo ++ ": ") (crane_Load env ref) in
    ret (img, None)
  else
    emit (Call_ParseReference ref) >>>
    let* reference := try_wrap "failed to parse reference: " (name_ParseReference env ref) in
    emit (Call_crane_Get ref) >>>
    match crane_Get env ref with
    | Err err =>
        if rate_limited err then fail (Wrap "rate limited by registry: " err)
        else
          let* img := daemonFallback env ref reference err in
          ret (img, None)
    | Ok desc =>
        emit (Call_crane_Pull ref) >>>
        let* img := try_wrap ("unable to pull image " ++ Reference refInfo ++ ": ")
                        (crane_Pull env ref) in
        ret (img, Some desc)
    end.

(** The text of the listing of an index. *)
Definition index_line (name : string) (e : IndexEntry) : string :=
  nl ++ "(" ++ Platform e ++ ") " ++ name ++ "@" ++ Hash_String (entry_Digest e).

Definition index_name (refInfo : Image) : string :=
  if String.eqb (Tag refInfo) "" then Name refInfo
  else Name refInfo ++ ":" ++ Tag refInfo.

Definition index_listing (refInfo : Image) (idx : list IndexEntry) : string :=
  Join ("The following images are available in the index:"
          :: map (index_line (index_name refInfo)) idx) nl.

Definition index_error (refInfo : Image) : error :=
  Errorf (Reference refInfo
          ++ " resolved to an index, please select a specific platform to use").

(** [if refInfo.Digest != "" && desc != nil && IsIndex(desc.MediaType)] *)
Definition rejectIndex (env : Remote) (refInfo : Image) (desc : option Descriptor) : M unit :=
  match desc with
  | Some d =>
      if negb (String.eqb (Digest refInfo) "") && IsIndex (MediaType d) then
        emit (Warn "Zarf does not currently support direct consumption of OCI image indexes or Docker manifest lists") >>>
        let* idx := try_wrap "unable to unmarshal index manifest: "
                        (json_Unmarshal env (desc_Manifest d)) in
        emit (Warn (index_listing refInfo idx)) >>>
        fail (index_error refInfo)
      else ret tt
  | None => ret tt
  end.

(** Lines 86 to 168 of the worker: [order] is the order in which [range]
    visits [cfg.RegistryOverrides]. *)
Definition resolveImage (env : Remote) (cfg : PullConfig)
    (order : list (string * string)) (refInfo : Image) : M v1Image :=
  let ref := applyOverrides (Reference refInfo) order in
  let* src := sourceImage env refInfo ref in
  rejectIndex env refInfo src.2 >>>
  ret (cache_Image src.1 (CacheDirectory cfg)).

(** The calls that make up the daemon fallback. *)
Definition is_daemon_event (ev : Event) : bool :=
  match ev with
  | Call_docker_NewClient | Call_docker_NegotiateAPIVersion
  | Call_docker_ImageInspect _ | Call_daemon_Image _ => true
  | _ => false
  end.

Definition daemon_attempted (tr : list Event) : bool := existsb is_daemon_event tr.

End Resolver.

(** ** The fetch coordinator (the task group of [Pull]) *)
Module Fetch.
Import GoStrings Overrides Resolver.

(** What the workers share. [err] is the variable [err] of [Pull], declared
    with [cranePath] and assigned by every worker that loads a tarball.
    [charges] and [configs] are not variables of the program: they log, in
    order, every addition made to [totalBytes] for a layer (the digest and
    the size added) and for a config blob. *)
Record Shared : Type := mkShared {
  counter : Z;
  totalBytes : Z;
  shas : gmap string bool;
  fetched : gmap Image v1Image;
  shaLock : option nat;
  firstErr : option error;
  err : option error;
  trace : list Event;
  charges : list (string * Z);
  configs : list Z
}.

(** Where a worker stands in the closure passed to [eg.Go]. [Counted] is
    between [counter.Add(1)] and the update of the spinner. [Loaded] is
    after [img, err = crane.Load(ref, opts...)], with the worker's own
    [img] ([None] is nil); [Reporting] is after the test [err != nil] has
    held, before [err] is read again for the message. [Panicked] is the
    dereference of a nil [img] by [img.Manifest()]. *)
Inductive Worker : Type :=
  | Queued
  | Counted (idx : Z)
  | Started
  | Loaded (img : option v1Image)
  | Reporting
  | AwaitLock (img : v1Image) (layers : list Layer)
  | AtLayer (img : v1Image) (done rest : list Layer)
  | Inserting (img : v1Image) (done : list Layer) (l : Layer) (h : Hash) (rest : list Layer)
  | Sizing (img : v1Image) (done : list Layer) (l : Layer) (h : Hash) (rest : list Layer)
  | Returned (r : option error)
  | Panicked.

Record State : Type := mkState {
  shared : Shared;
  workers : list Worker
}.

(** The workers between [shaLock.Lock()] and the deferred [Unlock]. *)
Definition in_cs (w : Worker) : bool :=
  match w with
  | AtLayer _ _ _ | Inserting _ _ _ _ _ | Sizing _ _ _ _ _ => true
  | _ => false
  end.

(** What a worker has when it asks for the lock, or the error it returns
    before, with the size of the config blob if it was added to
    [totalBytes]. *)
Inductive Prepared : Type :=
  | PrepFailed (e : error) (configAdded : option Z)
  | PrepReady (img : v1Image) (configSize : Z) (layers : list Layer).

(** Lines 170 to 179: the manifest, the size of the config blob, the
    layers. *)
Definition examine (refInfo : Image) (img : v1Image) : Prepared :=
  match img_Manifest img with
  | Err e =>
      PrepFailed (Wrap ("unable to get manifest for " ++ Reference refInfo ++ ": ") e) None
  | Ok m =>
      match img_Layers img with
      | Err e =>
          PrepFailed (Wrap ("unable to get layers for " ++ Reference refInfo ++ ": ") e)
                     (Some (Config_Size m))
      | Ok ls => PrepReady img (Config_Size m) ls
      end
  end.

(** Lines 86 to 179: everything a worker does before it asks for the lock,
    when the [err] it tests is the one it has assigned itself. Off the
    tarball path it always is: there [err] is a variable of the block. *)
Definition prepare (env : Remote) (cfg : PullConfig)
    (order : list (string * string)) (refInfo : Image) : list Event * Prepared :=
  match resolveImage env cfg order refInfo [] with
  | (tr, Err e) => (tr, PrepFailed e None)
  | (tr, Ok img) => (tr, examine refInfo img)
  end.

(** The two results of [crane.Load]: the image, nil when the load failed,
    and the error. *)
Definition loaded_image (r : result v1Image) : option v1Image :=
  match r with
  | Ok img => Some img
  | Err _ => None
  end.

Definition loaded_error (r : result v1Image) : option error :=
  match r with
  | Ok _ => None
  | Err e => Some e
  end.

(** [fmt.Errorf("unable to load %s: %w", refInfo.Reference, err)] for the
    [err] read at that moment: for a nil [err] the verb [%w] prints
    [%!w(<nil>)] and the error wraps nothing. *)
Definition load_failure (refInfo : Image) (e : option error) : error :=
  match e with
  | Some e => Wrap ("unable to load " ++ Reference refInfo ++ ": ") e
  | None => Errorf ("unable to load " ++ Reference refInfo ++ ": %!w(<nil>)")
  end.

Definition set_worker (i : nat) (w : Worker) (s : State) : State :=
  {| shared := shared s; workers := <[i := w]> (workers s) |}.

Definition with_shared (sh : Shared) (s : State) : State :=
  {| shared := sh; workers := workers s |}.

(** The closure returns [r]: the group keeps the first error it is given,
    and the deferred unlock runs when the lock was taken. *)
Definition return_with (i : nat) (r : option error) (unlock : bool) (s : State) : State :=
  let sh := shared s in
  set_worker i (Returned r)
    (with_shared
       {| counter := counter sh; totalBytes := totalBytes sh; shas := shas sh;
          fetched := fetched sh;
          shaLock := if unlock then None else shaLock sh;
          firstErr := match firstErr sh with
                      | Some e => Some e
                      | None => r
                      end;
          err := err sh;
          trace := trace sh; charges := charges sh; configs := configs sh |} s).

Definition add_config (tr : list Event) (added : option Z) (sh : Shared) : Shared :=
  {| counter := counter sh;
     totalBytes := match added with
                   | Some c => int64_add (totalBytes sh) c
                   | None => totalBytes sh
                   end;
     shas := shas sh; fetched := fetched sh; shaLock := shaLock sh;
     firstErr := firstErr sh; err := err sh;
     trace := app (trace sh) tr; charges := charges sh;
     configs := match added with
                | Some c => app (configs sh) [c]
                | None => configs sh
                end |}.

Definition is_Returned (w : Worker) : bool :=
  match w with
  | Returned _ => true
  | _ => false
  end.

(** [eg.SetLimit(10)]: the workers before [i] that hold one of the ten
    places of the group. [eg.Go] starts the workers in the order of the
    list, each one when fewer than ten of those before it have not yet
    returned; from then on that number can only go down. *)
Definition active_before (i : nat) (s : State) : nat :=
  length (filter (fun w => is_Returned w = false) (take i (workers s))).

Section Workers.
Variable env : Remote.
Variable cfg : PullConfig.
(** [orders i] is the order in which worker [i] visits the overrides. *)
Variable orders : nat -> list (string * string).

(** What a worker does with what [examine] gives it. *)
Definition prepared (i : nat) (tr : list Event) (p : Prepared) (s : State) : State :=
  match p with
  | PrepFailed e added =>
      return_with i (Some e) false (with_shared (add_config tr added (shared s)) s)
  | PrepReady img c ls =>
      set_worker i (AwaitLock img ls) (with_shared (add_config tr (Some c) (shared s)) s)
  end.

(** One step of worker [i]; [None] when the worker cannot move (it has
    returned or panicked, it waits for the lock, or it waits for one of the
    ten places of the group). The first step of a worker stands for its
    start by [eg.Go] too. [counter.Add(1)] and the
    update of the spinner are two steps. On the tarball path the
    assignment of [err], the test of [err] and the reading of [err] for
    the message are three steps, between which other workers may assign
    [err]: the interleaving of whole reads and writes is the least such a
    race can show. An addition to [totalBytes] is atomic and is made in
    the step that leads to it. Off the tarball path nothing the workers
    share is read or written before that addition. After a load the
    descriptor is nil, so the test for an index is passed over. The test
    [img == nil] after the loop over the layers never holds: [img] is by
    then the non-nil handle made by [cache.Image]. The write to [fetched]
    is made before the deferred unlock, under [shaLock]. The other workers
    may go on after a worker has panicked: the process ends at some later
    moment. *)
Definition step (i : nat) (s : State) : option State :=
  match ImageList cfg !! i, workers s !! i with
  | Some refInfo, Some w =>
      let sh := shared s in
      match w with
      | Queued =>
          if (active_before i s <? 10)%nat then
            let idx := int64_add (counter sh) 1 in
            Some (set_worker i (Counted idx)
                    (with_shared
                       {| counter := idx; totalBytes := totalBytes sh; shas := shas sh;
                          fetched := fetched sh; shaLock := shaLock sh;
                          firstErr := firstErr sh; err := err sh; trace := trace sh;
                          charges := charges sh; configs := configs sh |} s))
          else None
      | Counted idx =>
          Some (set_worker i Started
                  (with_shared
                     {| counter := counter sh; totalBytes := totalBytes sh; shas := shas sh;
                        fetched := fetched sh; shaLock := shaLock sh;
                        firstErr := firstErr sh; err := err sh;
                        trace := app (trace sh)
                                     [SpinnerUpdate idx (Z.of_nat (length (ImageList cfg)))];
                        charges := charges sh; configs := configs sh |} s))
      | Started =>
          let ref := applyOverrides (Reference refInfo) (orders i) in
          if is_tarball ref then
            Some (set_worker i (Loaded (loaded_image (crane_Load env ref)))
                    (with_shared
                       {| counter := counter sh; totalBytes := totalBytes sh;
                          shas := shas sh; fetched := fetched sh; shaLock := shaLock sh;
                          firstErr := firstErr sh;
                          err := loaded_error (crane_Load env ref);
                          trace := app (trace sh) [Call_crane_Load ref];
                          charges := charges sh; configs := configs sh |} s))
          else
            match prepare env cfg (orders i) refInfo with
            | (tr, p) => Some (prepared i tr p s)
            end
      | Loaded img =>
          match err sh with
          | Some _ => Some (set_worker i Reporting s)
          | None =>
              match img with
              | None => Some (set_worker i Panicked s)
              | Some img0 =>
                  Some (prepared i []
                          (examine refInfo (cache_Image img0 (CacheDirectory cfg))) s)
              end
          end
      | Reporting =>
          Some (return_with i (Some (load_failure refInfo (err sh))) false s)
      | AwaitLock img ls =>
          match shaLock sh with
          | Some _ => None
          | None =>
              Some (set_worker i (AtLayer img [] ls)
                      (with_shared
                         {| counter := counter sh; totalBytes := totalBytes sh;
                            shas := shas sh; fetched := fetched sh;
                            shaLock := Some i;
                            firstErr := firstErr sh; err := err sh; trace := trace sh;
                            charges := charges sh; configs := configs sh |} s))
          end
      | AtLayer img done [] =>
          Some (return_with i None true
                  (with_shared
                     {| counter := counter sh; totalBytes := totalBytes sh;
                        shas := shas sh;
                        fetched := <[refInfo := img]> (fetched sh);
                        shaLock := shaLock sh;
                        firstErr := firstErr sh; err := err sh; trace := trace sh;
                        charges := charges sh; configs := configs sh |} s))
      | AtLayer img done (l :: rest) =>
          match layer_Digest l with
          | Err e =>
              Some (return_with i (Some (Wrap "unable to get digest for image layer: " e))
                      true s)
          | Ok h =>
              match shas sh !! Hex h with
              | Some _ => Some (set_worker i (AtLayer img (app done [l]) rest) s)
              | None => Some (set_worker i (Inserting img done l h rest) s)
              end
          end
      | Inserting img done l h rest =>
          Some (set_worker i (Sizing img done l h rest)
                  (with_shared
                     {| counter := counter sh; totalBytes := totalBytes sh;
                        shas := <[Hex h := true]> (shas sh);
                        fetched := fetched sh; shaLock := shaLock sh;
                        firstErr := firstErr sh; err := err sh; trace := trace sh;
                        charges := charges sh; configs := configs sh |} s))
      | Sizing img done l h rest =>
          match layer_Size l with
          | Err e =>
              Some (return_with i (Some (Wrap "unable to get size for image layer: " e))
                      true s)
          | Ok size =>
              Some (set_worker i (AtLayer img (app done [l]) rest)
                      (with_shared
                         {| counter := counter sh;
                            totalBytes := int64_add (totalBytes sh) size;
                            shas := shas sh; fetched := fetched sh;
                            shaLock := shaLock sh;
                            firstErr := firstErr sh; err := err sh; trace := trace sh;
                            charges := app (charges sh) [(Hex h, size)];
                            configs := configs sh |} s))
          end
      | Returned _ => None
      | Panicked => None
      end
  | _, _ => None
  end.

(** A schedule names the worker that moves next; naming a worker that
    cannot move changes nothing. *)
Fixpoint run (sched : list nat) (s : State) : State :=
  match sched with
  | [] => s
  | i :: sched' => run sched' (default s (step i s))
  end.

(** [err] is nil when the workers start: [Pull] has returned otherwise. *)
Definition init : State :=
  {| shared := {| counter := 0; totalBytes := 0; shas := ∅; fetched := ∅;
                  shaLock := None; firstErr := None; err := None; trace := [];
                  charges := []; configs := [] |};
     workers := replicate (length (ImageList cfg)) Queued |}.

Definition is_Panicked (w : Worker) : bool :=
  match w with
  | Panicked => true
  | _ => false
  end.

(** A worker has panicked: the process is about to end, and [Pull] will
    not return. *)
Definition panicked (s : State) : bool := existsb is_Panicked (workers s).

(** [eg.Wait()] and the lines after it: once every worker has returned,
    the first error if there is one, else the fetched images and the
    total. *)
Definition fetch_result (s : State) : option (result (gmap Image v1Image * Z)) :=
  if forallb is_Returned (workers s) then
    Some match firstErr (shared s) with
         | Some e => Err e
         | None => Ok (fetched (shared s), totalBytes (shared s))
         end
  else None.

(** The schedule that lets each worker in turn run to its end. A worker
    needs at most [6 + 3 * n] steps for an image of [n] layers; [k] bounds
    that for every worker. *)
Definition sequential_schedule (k : nat) : list nat :=
  concat (map (fun i => replicate k i) (seq 0 (length (ImageList cfg)))).

End Workers.

End Fetch.

(** ** Facts about strings used by the resolver's properties *)
Module StringFacts.
Import GoStrings.

Lemma append_cons (c : ascii) (a b : string) : (String c a ++ b)%string = String c (a ++ b).
Proof. reflexivity. Qed.

Lemma append_nil_r (a : string) : (a ++ "")%string = a.
Proof. induction a as [|x a IH]; [reflexivity|]. now rewrite append_cons, IH. Qed.

Lemma app_assoc_s (a b c : string) : ((a ++ b) ++ c)%string = (a ++ (b ++ c))%string.
Proof. induction a as [|x a IH]; [reflexivity|]. now rewrite !append_cons, IH. Qed.

Lemma HasPrefix_app (p t : string) : HasPrefix (p ++ t) p = true.
Proof.
  unfold HasPrefix. induction p as [|x p IH].
  - destruct t; reflexivity.
  - rewrite append_cons. simpl. destruct (ascii_dec x x); [assumption | congruence].
Qed.

Lemma HasPrefix_refl (s : string) : HasPrefix s s = true.
Proof. rewrite <- (append_nil_r s) at 1. apply HasPrefix_app. Qed.

Lemma Contains_here (s sub : string) : HasPrefix s sub = true -> Contains s sub = true.
Proof. destruct s; simpl; intros ->; reflexivity. Qed.

Lemma Contains_app_l (p s sub : string) :
  Contains s sub = true -> Contains (p ++ s) sub = true.
Proof.
  intros H. induction p as [|x p IH]; [assumption|].
  rewrite append_cons. simpl. rewrite IH. apply orb_true_r.
Qed.

Lemma HasPrefix_app_r (u t p : string) :
  HasPrefix u p = true -> HasPrefix (u ++ t) p = true.
Proof.
  unfold HasPrefix. revert u. induction p as [|c p IH]; intros u.
  - intros _. destruct (u ++ t)%string; reflexivity.
  - destruct u as [|y u]; [intros H; discriminate H|].
    rewrite append_cons. simpl.
    destruct (ascii_dec c y); [apply IH | intros H; discriminate H].
Qed.

Lemma Contains_app_r (s t sub : string) :
  Contains s sub = true -> Contains (s ++ t) sub = true.
Proof.
  induction s as [|x s IH].
  - simpl. rewrite orb_false_r. intros H.
    apply Contains_here. now apply (HasPrefix_app_r "" t).
  - rewrite append_cons. simpl. intros [Hp|Hc]%orb_true_iff.
    + apply orb_true_iff. left. now apply (HasPrefix_app_r (String x s) t).
    + apply orb_true_iff. right. now apply IH.
Qed.

Lemma Contains_mid (p sub t : string) : Contains (p ++ sub ++ t) sub = true.
Proof. apply Contains_app_l, Contains_here, HasPrefix_app. Qed.

Lemma concat_elem (sep x : string) (l : list string) :
  x ∈ l -> exists p t, String.concat sep l = (p ++ x ++ t)%string.
Proof.
  induction l as [|y l IH]; intros Hin; [by apply elem_of_nil in Hin|].
  apply elem_of_cons in Hin as [->|Hin].
  - destruct l as [|z l]; simpl.
    + exists "", "". simpl. now rewrite append_nil_r.
    + exists "", (sep ++ String.concat sep (z :: l))%string. reflexivity.
  - destruct (IH Hin) as (p & t & Heq). destruct l as [|z l]; [by apply elem_of_nil in Hin|].
    exists (y ++ sep ++ p)%string, t.
    change (String.concat sep (y :: z :: l)) with (y ++ sep ++ String.concat sep (z :: l))%string.
    rewrite Heq. now rewrite !app_assoc_s.
Qed.

Lemma Join_Contains (sep x : string) (l : list string) :
  x ∈ l -> Contains (Join l sep) x = true.
Proof.
  intros Hin. unfold Join. destruct (concat_elem sep x l Hin) as (p & t & ->).
  apply Contains_mid.
Qed.

End StringFacts.

(** ** Properties of the resolver *)
Module ResolverSpec.
Import GoStrings Overrides Resolver Fetch StringFacts.

(** C4 (as amended): on the registry path, a failed [crane.Get] whose error
    text contains "unexpected status code 429 Too Many Requests" makes the
    resolver return the rate-limit error at once, with no call to the docker
    daemon; any other failure of [crane.Get], whatever the HTTP status of
    the reply, starts the daemon fallback. *)
Theorem C4_rate_limit_short_circuit (env : Remote) (cfg : PullConfig)
    (order : list (string * string)) (refInfo : Image) (reference : string) (err : error) :
  let ref := applyOverrides (Reference refInfo) order in
  is_tarball ref = false ->
  name_ParseReference env ref = Ok reference ->
  crane_Get env ref = Err err ->
  let out := resolveImage env cfg order refInfo [] in
  (rate_limited err = true ->
     out = ([Call_ParseReference ref; Call_crane_Get ref],
            Err (Wrap "rate limited by registry: " err))
     /\ daemon_attempted out.1 = false)
  /\ (rate_limited err = false ->
     daemon_attempted out.1 = true /\ Call_docker_NewClient ∈ out.1).
Proof.
  intros ref Htar Hparse Hget out. subst out.
  unfold resolveImage, sourceImage. fold ref. rewrite Htar.
  unfold bind at 1 2 3. unfold emit at 1. simpl. rewrite Hparse. simpl.
  unfold bind at 1 2 3. unfold emit at 1. simpl. rewrite Hget.
  split; intros Hrl; rewrite Hrl.
  - split; reflexivity.
  - unfold daemonFallback, rejectIndex, bind, emit, fail, ret, try, try_wrap; simpl.
    destruct (client_NewClientWithOpts env); simpl.
    + split; [reflexivity | set_solver].
    + destruct (cli_ImageInspectWithRaw env ref) as [size|]; simpl.
      * destruct (_ <? size); simpl;
          destruct (daemon_Image env reference); simpl;
          (split; [reflexivity | set_solver]).
      * split; [reflexivity | set_solver].
Qed.

Definition env_429 : Remote :=
  {| crane_Load := fun _ => Err (Errorf "no such file");
     name_ParseReference := fun r => Ok r;
     crane_Get := fun _ =>
       Err (Errorf "GET https://registry/v2/app/manifests/1: unexpected status code 429 Too Many Requests");
     crane_Pull := fun _ => Err (Errorf "unreachable");
     client_NewClientWithOpts := None;
     cli_ImageInspectWithRaw := fun _ => Ok 5;
     daemon_Image := fun _ => Err (Errorf "no daemon");
     json_Unmarshal := fun _ => Ok [];
     utils_ByteFormat := fun _ => "5 Byte" |}.

Definition cfg_one (refInfo : Image) : PullConfig :=
  {| DestinationDirectory := ["pkg"; "images"];
     CacheDirectory := ["cache"; "images"];
     RegistryOverrides := ∅;
     ImageList := [refInfo];
     Arch := "amd64" |}.

Lemma C4_rate_limit_short_circuit_witness :
  let refInfo := mkImage "registry/app:1" "registry/app" "1" "" in
  resolveImage env_429 (cfg_one refInfo) [] refInfo []
  = ([Call_ParseReference "registry/app:1"; Call_crane_Get "registry/app:1"],
     Err (Wrap "rate limited by registry: "
            (Errorf "GET https://registry/v2/app/manifests/1: unexpected status code 429 Too Many Requests"))).
Proof.
  intros refInfo.
  apply (C4_rate_limit_short_circuit env_429 (cfg_one refInfo) [] refInfo "registry/app:1"
           (Errorf "GET https://registry/v2/app/manifests/1: unexpected status code 429 Too Many Requests")
           eq_refl eq_refl eq_refl).
  reflexivity.
Defined.

(** A registry that answers every request for a manifest with the status
    429 and a structured error body; the client prints the diagnostic of the
    body, not the status line. The image is in the local docker daemon. *)
Definition env_429_body : Remote :=
  {| crane_Load := fun _ => Err (Errorf "no such file");
     name_ParseReference := fun r => Ok r;
     crane_Get := fun _ =>
       Err (TransportError 429
              "GET https://registry/v2/app/manifests/1: TOOMANYREQUESTS: You have reached your pull rate limit.");
     crane_Pull := fun _ => Err (Errorf "unreachable");
     client_NewClientWithOpts := None;
     cli_ImageInspectWithRaw := fun _ => Ok 5;
     daemon_Image := fun _ =>
       Ok {| img_Manifest := Ok (mkManifest 10); img_Layers := Ok []; img_cache := None |};
     json_Unmarshal := fun _ => Ok [];
     utils_ByteFormat := fun _ => "5 Byte" |}.

(** C4 (as stated) fails: the code looks for one wording of the error, not
    for the status of the reply. A [crane.Get] that fails with the HTTP
    status 429 and an error text that does not contain "unexpected status
    code 429 Too Many Requests" is not taken for a rate limit: the resolver
    falls back to the docker daemon and returns the image it finds there. *)
Lemma C4_status_429_falls_back :
  let refInfo := mkImage "registry/app:1" "registry/app" "1" "" in
  let ref := applyOverrides (Reference refInfo) [] in
  let out := resolveImage env_429_body (cfg_one refInfo) [] refInfo [] in
  is_tarball ref = false
  /\ (exists err, crane_Get env_429_body ref = Err err /\ http_status err = Some 429)
  /\ daemon_attempted out.1 = true
  /\ Call_daemon_Image "registry/app:1" ∈ out.1
  /\ (forall e, out.2 <> Err e).
Proof.
  split; [reflexivity|]. split; [eexists; split; reflexivity|].
  split; [reflexivity|]. split; [|intros e; discriminate].
  cbv -[elem_of]. set_solver.
Qed.

Lemma step_Started_failed (env : Remote) (cfg : PullConfig) (orders : nat -> list (string * string))
    (i : nat) (refInfo : Image) (tr : list Event) (e : error) (s : State) :
  ImageList cfg !! i = Some refInfo ->
  workers s !! i = Some Started ->
  is_tarball (applyOverrides (Reference refInfo) (orders i)) = false ->
  resolveImage env cfg (orders i) refInfo [] = (tr, Err e) ->
  exists s', step env cfg orders i s = Some s'
    /\ workers s' !! i = Some (Returned (Some e))
    /\ fetched (shared s') = fetched (shared s).
Proof.
  intros Hi Hw Htar Hres. unfold step. rewrite Hi, Hw, Htar. unfold prepare. rewrite Hres.
  eexists; split; [reflexivity|]. split; [|reflexivity].
  simpl. apply list_lookup_insert_eq. eapply lookup_lt_Some, Hw.
Qed.

(** C3 (as amended): on the registry path, a reference with a digest whose
    descriptor is an index always makes the resolver fail, and its worker
    returns that error without adding an entry to [fetched]; when moreover
    [crane.Pull] succeeds and the index manifest decodes, the listing of
    every platform/digest pair of the index is emitted before the error.
    On the tarball path and on the daemon path the descriptor is nil, so
    the resolver never rejects there. *)
Theorem C3_index_rejected (env : Remote) (cfg : PullConfig)
    (orders : nat -> list (string * string)) (i : nat) (refInfo : Image) :
  let ref := applyOverrides (Reference refInfo) (orders i) in
  let out := resolveImage env cfg (orders i) refInfo [] in
  ImageList cfg !! i = Some refInfo ->
  (forall reference d,
      is_tarball ref = false ->
      name_ParseReference env ref = Ok reference ->
      crane_Get env ref = Ok d ->
      Digest refInfo <> "" ->
      IsIndex (MediaType d) = true ->
      (exists e, out.2 = Err e
         /\ forall s, workers s !! i = Some Started ->
              exists s', step env cfg orders i s = Some s'
                /\ workers s' !! i = Some (Returned (Some e))
                /\ fetched (shared s') = fetched (shared s))
      /\ (forall img idx,
            crane_Pull env ref = Ok img ->
            json_Unmarshal env (desc_Manifest d) = Ok idx ->
            out = ([Call_ParseReference ref; Call_crane_Get ref; Call_crane_Pull ref;
                    Warn "Zarf does not currently support direct consumption of OCI image indexes or Docker manifest lists";
                    Warn (index_listing refInfo idx)],
                   Err (index_error refInfo))
            /\ forall entry, entry ∈ idx ->
                 Contains (index_listing refInfo idx)
                          ("(" ++ Platform entry ++ ") " ++ index_name refInfo ++ "@"
                           ++ Hash_String (entry_Digest entry)) = true))
  /\ (forall tr img odesc,
        sourceImage env refInfo ref [] = (tr, Ok (img, odesc)) ->
        is_tarball ref = true \/ (exists e, crane_Get env ref = Err e) ->
        odesc = None /\ out = (tr, Ok (cache_Image img (CacheDirectory cfg)))).
Proof.
  intros ref out Hi. split.
  - intros reference d Htar Hparse Hget Hdig Hidx.
    assert (Hneq : negb (String.eqb (Digest refInfo) "") = true).
    { apply negb_true_iff, String.eqb_neq, Hdig. }
    assert (Hout : out =
      match crane_Pull env ref with
      | Err e => ([Call_ParseReference ref; Call_crane_Get ref; Call_crane_Pull ref],
                  Err (Wrap ("unable to pull image " ++ Reference refInfo ++ ": ") e))
      | Ok _ =>
          match json_Unmarshal env (desc_Manifest d) with
          | Err e => ([Call_ParseReference ref; Call_crane_Get ref; Call_crane_Pull ref;
                       Warn "Zarf does not currently support direct consumption of OCI image indexes or Docker manifest lists"],
                      Err (Wrap "unable to unmarshal index manifest: " e))
          | Ok idx => ([Call_ParseReference ref; Call_crane_Get ref; Call_crane_Pull ref;
                        Warn "Zarf does not currently support direct consumption of OCI image indexes or Docker manifest lists";
                        Warn (index_listing refInfo idx)],
                       Err (index_error refInfo))
          end
      end).
    { subst out. unfold resolveImage, sourceImage. fold ref. rewrite Htar.
      unfold bind, emit, try_wrap, ret, fail. simpl. rewrite Hparse. simpl. rewrite Hget.
      destruct (crane_Pull env ref) as [img|e]; simpl; [|reflexivity].
      rewrite Hneq, Hidx. simpl.
      destruct (json_Unmarshal env (desc_Manifest d)); reflexivity. }
    split.
    + assert (Herr : exists e, out = (out.1, Err e)).
      { rewrite Hout. destruct (crane_Pull env ref); [|eauto].
        destruct (json_Unmarshal env (desc_Manifest d)); eauto. }
      destruct Herr as [e He]. exists e. split; [now rewrite He|].
      intros s Hs. eapply step_Started_failed; [exact Hi | exact Hs | exact Htar | exact He].
    + intros img idx Hpull Hjson. rewrite Hout, Hpull, Hjson. split; [reflexivity|].
      intros entry Hin. unfold index_listing.
      set (line := index_line (index_name refInfo) entry).
      assert (Hl : Contains line ("(" ++ Platform entry ++ ") " ++ index_name refInfo ++ "@"
                                  ++ Hash_String (entry_Digest entry)) = true).
      { unfold line, index_line. apply Contains_app_l, Contains_here, HasPrefix_refl. }
      assert (Hin' : line ∈ "The following images are available in the index:"
                              :: map (index_line (index_name refInfo)) idx).
      { right. apply list_elem_of_fmap. exists entry. split; [reflexivity | assumption]. }
      destruct (concat_elem nl line _ Hin') as (p & t & Heq).
      unfold Join. rewrite Heq. apply Contains_app_l.
      apply Contains_app_r, Hl.
  - intros tr img odesc Hsrc Hcase. subst out. unfold resolveImage. fold ref.
    unfold bind at 1. rewrite Hsrc.
    assert (odesc = None) as ->.
    { revert Hsrc. unfold sourceImage, bind, emit, try_wrap, ret, fail; simpl.
      destruct Hcase as [Htar|[e He]].
      - rewrite Htar. destruct (crane_Load env ref); simpl; congruence.
      - destruct (is_tarball ref).
        + destruct (crane_Load env ref); simpl; congruence.
        + destruct (name_ParseReference env ref); simpl; [|congruence].
          rewrite He. destruct (rate_limited e); [congruence|].
          destruct (daemonFallback env ref a e _) as [tr' [img'|e']]; congruence. }
    split; reflexivity.
Qed.

(** A registry that serves an index of two platforms for every reference;
    [pull] tells whether [crane.Pull] finds an image for the platform asked
    for. *)
Definition index_entries : list IndexEntry :=
  [mkIndexEntry "linux/arm64" (mkHash "sha256" "a1");
   mkIndexEntry "linux/s390x" (mkHash "sha256" "b2")].

Definition plain_image : v1Image :=
  {| img_Manifest := Ok (mkManifest 10); img_Layers := Ok []; img_cache := None |}.

Definition env_index (pull : result v1Image) : Remote :=
  {| crane_Load := fun _ => Err (Errorf "no such file");
     name_ParseReference := fun r => Ok r;
     crane_Get := fun _ =>
       Ok (mkDescriptor "application/vnd.oci.image.index.v1+json" "{}");
     crane_Pull := fun _ => pull;
     client_NewClientWithOpts := None;
     cli_ImageInspectWithRaw := fun _ => Ok 5;
     daemon_Image := fun _ => Err (Errorf "no daemon");
     json_Unmarshal := fun _ => Ok index_entries;
     utils_ByteFormat := fun _ => "5 Byte" |}.

Definition pinned : Image :=
  mkImage "registry/app@sha256:c3" "registry/app" "" "sha256:c3".

Lemma C3_index_rejected_witness :
  resolveImage (env_index (Ok plain_image)) (cfg_one pinned) [] pinned []
  = ([Call_ParseReference "registry/app@sha256:c3"; Call_crane_Get "registry/app@sha256:c3";
      Call_crane_Pull "registry/app@sha256:c3";
      Warn "Zarf does not currently support direct consumption of OCI image indexes or Docker manifest lists";
      Warn (index_listing pinned index_entries)],
     Err (index_error pinned)).
Proof.
  destruct (C3_index_rejected (env_index (Ok plain_image)) (cfg_one pinned) (fun _ => []) 0%nat
              pinned eq_refl) as [Hreg _].
  destruct (Hreg "registry/app@sha256:c3"
              (mkDescriptor "application/vnd.oci.image.index.v1+json" "{}")
              eq_refl eq_refl eq_refl ltac:(discriminate) eq_refl) as [_ Hlist].
  exact (proj1 (Hlist plain_image index_entries eq_refl eq_refl)).
Defined.

(** C3 (as stated) fails: the image is pulled before the descriptor is
    looked at, so when [crane.Pull] fails for a pinned reference that
    resolves to an index (here: no image for the platform asked for), the
    resolver returns the pull error and the listing is never emitted. *)
Lemma C3_listing_not_emitted :
  let env := env_index (Err (Errorf "no child with platform linux/amd64 in index")) in
  let ref := applyOverrides (Reference pinned) [] in
  let out := resolveImage env (cfg_one pinned) [] pinned [] in
  is_tarball ref = false
  /\ crane_Get env ref = Ok (mkDescriptor "application/vnd.oci.image.index.v1+json" "{}")
  /\ Digest pinned <> ""
  /\ IsIndex "application/vnd.oci.image.index.v1+json" = true
  /\ out = ([Call_ParseReference ref; Call_crane_Get ref; Call_crane_Pull ref],
            Err (Wrap "unable to pull image registry/app@sha256:c3: "
                   (Errorf "no child with platform linux/amd64 in index")))
  /\ (forall msg, Warn msg ∉ out.1).
Proof.
  repeat split; try reflexivity; try discriminate.
  intros msg Hin. simpl in Hin.
  repeat (apply elem_of_cons in Hin as [Hin|Hin]; [discriminate Hin|]).
  by apply elem_of_nil in Hin.
Qed.
End ResolverSpec.

(** ** Properties of the fetch coordinator *)
Module FetchSpec.
Import GoStrings Overrides Resolver Fetch.

Definition sumZ (l : list Z) : Z := foldr Z.add 0 l.

Lemma sumZ_snoc (l : list Z) (x : Z) : sumZ (l ++ [x]) = sumZ l + x.
Proof. induction l as [|y l IH]; simpl; [lia|]. rewrite IH. lia. Qed.

Lemma wrap64_add (a b : Z) : int64_add (wrap64 a) b = wrap64 (a + b).
Proof.
  unfold int64_add, wrap64.
  replace ((a + 2 ^ 63) mod 2 ^ 64 - 2 ^ 63 + b + 2 ^ 63)
    with ((a + 2 ^ 63) mod 2 ^ 64 + b) by lia.
  rewrite Zplus_mod_idemp_l. f_equal. f_equal. lia.
Qed.

Lemma filter_fst_absent (l : list (string * Z)) (d : string) :
  d ∉ l.*1 -> filter (fun c => c.1 = d) l = [].
Proof.
  induction l as [|[d' z] l IH]; intros Hnotin; [reflexivity|].
  rewrite filter_cons. simpl in *. apply not_elem_of_cons in Hnotin as [Hne Hnotin].
  rewrite decide_False by congruence. now apply IH.
Qed.

Lemma filter_fst_NoDup (l : list (string * Z)) (d : string) :
  NoDup l.*1 -> d ∈ l.*1 ->
  length (filter (fun c => c.1 = d) l) = 1%nat.
Proof.
  induction l as [|[d' z] l IH]; simpl; intros Hnd Hin; [by apply elem_of_nil in Hin|].
  apply NoDup_cons in Hnd as [Hnotin Hnd].
  rewrite filter_cons. simpl. destruct (decide (d' = d)) as [->|Hne].
  - simpl. now rewrite filter_fst_absent.
  - apply IH; [assumption|]. apply elem_of_cons in Hin as [->|Hin]; [congruence|assumption].
Qed.

Definition sizing_at (w : Worker) (d : string) : Prop :=
  match w with
  | Sizing _ _ _ h _ => Hex h = d
  | _ => False
  end.

Definition failed (w : Worker) : Prop :=
  match w with
  | Returned (Some _) => True
  | _ => False
  end.

Section Invariant.
Variable env : Remote.
Variable cfg : PullConfig.
Variable orders : nat -> list (string * string).

(** The layer has been through the check of the dedup set. *)
Definition seen (sh : Shared) (l : Layer) : Prop :=
  exists h, layer_Digest l = Ok h /\ is_Some (shas sh !! Hex h).

(** Worker [i] got the image [img] with the layers [ls]. *)
Definition prepared_as (i : nat) (img : v1Image) (ls : list Layer) : Prop :=
  exists refInfo tr c,
    ImageList cfg !! i = Some refInfo
    /\ prepare env cfg (orders i) refInfo = (tr, PrepReady img c ls).

(** Worker [i] is on the tarball path and [o] is the image its own load
    gave it. *)
Definition loaded_as (i : nat) (o : option v1Image) : Prop :=
  exists refInfo,
    ImageList cfg !! i = Some refInfo
    /\ is_tarball (applyOverrides (Reference refInfo) (orders i)) = true
    /\ o = loaded_image (crane_Load env (applyOverrides (Reference refInfo) (orders i))).

Definition worker_ok (sh : Shared) (i : nat) (w : Worker) : Prop :=
  match w with
  | Queued | Counted _ | Started | Panicked => True
  | Loaded o => loaded_as i o
  | Reporting => exists o, loaded_as i o
  | AwaitLock img ls => prepared_as i img ls
  | AtLayer img done rest =>
      prepared_as i img (done ++ rest) /\ Forall (seen sh) done /\ shaLock sh = Some i
  | Inserting img done l h rest =>
      prepared_as i img (done ++ l :: rest) /\ Forall (seen sh) done /\ shaLock sh = Some i
      /\ layer_Digest l = Ok h /\ shas sh !! Hex h = None
  | Sizing img done l h rest =>
      prepared_as i img (done ++ l :: rest) /\ Forall (seen sh) done /\ shaLock sh = Some i
      /\ layer_Digest l = Ok h /\ is_Some (shas sh !! Hex h)
      /\ Hex h ∉ (charges sh).*1
  | Returned None => exists img ls, prepared_as i img ls /\ Forall (seen sh) ls
  | Returned (Some _) => is_Some (firstErr sh)
  end.

Record Inv (s : State) : Prop := mkInv {
  inv_workers : forall i w, workers s !! i = Some w -> worker_ok (shared s) i w;
  inv_nodup : NoDup (charges (shared s)).*1;
  inv_charged : forall d, d ∈ (charges (shared s)).*1 -> is_Some (shas (shared s) !! d);
  inv_true : forall d b, shas (shared s) !! d = Some b -> b = true;
  inv_shas : forall d, is_Some (shas (shared s) !! d) ->
               d ∈ (charges (shared s)).*1
               \/ exists j w, workers s !! j = Some w /\ (sizing_at w d \/ failed w);
  inv_total : totalBytes (shared s)
              = wrap64 (sumZ (configs (shared s)) + sumZ (charges (shared s)).*2);
  inv_err : is_Some (firstErr (shared s)) ->
            exists j w, workers s !! j = Some w /\ failed w
}.

Lemma worker_ok_in_cs sh i w : worker_ok sh i w -> in_cs w = true -> shaLock sh = Some i.
Proof. destruct w; simpl; try discriminate; intros; tauto. Qed.

Lemma seen_mono sh sh' l :
  (forall d, is_Some (shas sh !! d) -> is_Some (shas sh' !! d)) -> seen sh l -> seen sh' l.
Proof. intros Hm (h & Hd & Hs). exists h. auto. Qed.

(** What a step of worker [i] leaves true of another worker. *)
Lemma worker_ok_frame sh sh' i j w :
  j <> i ->
  worker_ok sh j w ->
  (shas sh' = shas sh /\ charges sh' = charges sh /\ shaLock sh' = shaLock sh)
  \/ ((shaLock sh = Some i \/ shaLock sh = None)
      /\ forall d, is_Some (shas sh !! d) -> is_Some (shas sh' !! d)) ->
  (is_Some (firstErr sh) -> is_Some (firstErr sh')) ->
  worker_ok sh' j w.
Proof.
  intros Hne Hok [(Hs & Hc & Hl)|[Hlock Hm]] Herr.
  - destruct w as [| | | | | | | | |[e|]|]; simpl in *; rewrite ?Hs, ?Hc, ?Hl; auto.
    + destruct Hok as (H1 & H2 & H3). repeat split; auto.
      eapply Forall_impl; [exact H2|]. intros l. apply seen_mono. now rewrite Hs.
    + destruct Hok as (H1 & H2 & H3). repeat split; try tauto.
      eapply Forall_impl; [exact H2|]. intros l'. apply seen_mono. now rewrite Hs.
    + destruct Hok as (H1 & H2 & H3). repeat split; try tauto.
      eapply Forall_impl; [exact H2|]. intros l'. apply seen_mono. now rewrite Hs.
    + destruct Hok as (img & ls & H1 & H2). exists img, ls. split; auto.
      eapply Forall_impl; [exact H2|]. intros l'. apply seen_mono. now rewrite Hs.
  - destruct (in_cs w) eqn:Hcs.
    + pose proof (worker_ok_in_cs _ _ _ Hok Hcs) as Hj.
      destruct Hlock as [Hl|Hl]; rewrite Hl in Hj; congruence.
    + destruct w as [| | | | | | | | |[e|]|]; simpl in *; try discriminate; auto.
      destruct Hok as (img & ls & H1 & H2). exists img, ls. split; auto.
      eapply Forall_impl; [exact H2|]. intros l'. now apply seen_mono.
Qed.

Lemma lookup_set_worker i w s j :
  (i < length (workers s))%nat ->
  workers (set_worker i w s) !! j = if decide (i = j) then Some w else workers s !! j.
Proof.
  intros Hlt. simpl. rewrite list_lookup_insert.
  destruct (decide (i = j)) as [->|Hne].
  - rewrite decide_True; [reflexivity | split; [reflexivity | assumption]].
  - rewrite decide_False; [reflexivity | tauto].
Qed.

(** The one place where the list of workers is reasoned about: worker [i]
    moves from [w] to [w'] and the shared state from [shared s] to [sh']. *)
Lemma inv_update s i w w' sh' :
  Inv s ->
  workers s !! i = Some w ->
  worker_ok sh' i w' ->
  ((shas sh' = shas (shared s) /\ charges sh' = charges (shared s)
    /\ shaLock sh' = shaLock (shared s))
   \/ ((shaLock (shared s) = Some i \/ shaLock (shared s) = None)
       /\ forall d, is_Some (shas (shared s) !! d) -> is_Some (shas sh' !! d))) ->
  NoDup (charges sh').*1 ->
  (forall d, d ∈ (charges sh').*1 -> is_Some (shas sh' !! d)) ->
  (forall d b, shas sh' !! d = Some b -> b = true) ->
  (forall d, d ∈ (charges (shared s)).*1 -> d ∈ (charges sh').*1) ->
  (forall d, is_Some (shas sh' !! d) ->
     ~ is_Some (shas (shared s) !! d) \/ sizing_at w d \/ failed w ->
     d ∈ (charges sh').*1 \/ sizing_at w' d \/ failed w') ->
  totalBytes sh' = wrap64 (sumZ (configs sh') + sumZ (charges sh').*2) ->
  (is_Some (firstErr (shared s)) -> is_Some (firstErr sh')) ->
  (is_Some (firstErr sh') -> is_Some (firstErr (shared s)) \/ failed w') ->
  (failed w -> failed w') ->
  Inv (set_worker i w' (with_shared sh' s)).
Proof.
  intros HI Hw Hok Hframe Hnd Hch Htrue Hsub Hshas Htot Herr Herr' Hfail.
  assert (Hlt : (i < length (workers (with_shared sh' s)))%nat).
  { simpl. eapply lookup_lt_Some, Hw. }
  constructor.
  - intros j wj. rewrite lookup_set_worker by assumption.
    destruct (decide (i = j)) as [<-|Hne].
    + intros [= <-]. exact Hok.
    + intros Hj. simpl in Hj |- *.
      eapply worker_ok_frame; [| eapply inv_workers; eassumption | exact Hframe | exact Herr].
      congruence.
  - exact Hnd.
  - exact Hch.
  - exact Htrue.
  - intros d Hd. change (shared (set_worker i w' (with_shared sh' s))) with sh' in *.
    assert (Hnew : d ∈ (charges sh').*1 \/ sizing_at w' d \/ failed w' ->
                   d ∈ (charges sh').*1
                   \/ exists j wj, workers (set_worker i w' (with_shared sh' s)) !! j = Some wj
                                   /\ (sizing_at wj d \/ failed wj)).
    { intros [H|H]; [now left|]. right. exists i, w'.
      rewrite lookup_set_worker by assumption. rewrite decide_True by reflexivity. auto. }
    destruct (decide (is_Some (shas (shared s) !! d))) as [Hold|Hnot].
    + destruct (inv_shas _ HI d Hold) as [Hc|(j & wj & Hj & Hwj)].
      * left. auto.
      * destruct (decide (i = j)) as [<-|Hne].
        -- rewrite Hw in Hj. injection Hj as <-. apply Hnew. apply Hshas; auto.
        -- right. exists j, wj. rewrite lookup_set_worker by assumption.
           rewrite decide_False by assumption. auto.
    + apply Hnew. apply Hshas; auto.
  - exact Htot.
  - change (shared (set_worker i w' (with_shared sh' s))) with sh'.
    intros He. destruct (Herr' He) as [Hold|Hf].
    + destruct (inv_err _ HI Hold) as (j & wj & Hj & Hwj).
      destruct (decide (i = j)) as [<-|Hne].
      * rewrite Hw in Hj. injection Hj as <-. exists i, w'.
        rewrite lookup_set_worker by assumption. rewrite decide_True by reflexivity.
        split; [reflexivity | auto].
      * exists j, wj. rewrite lookup_set_worker by assumption.
        rewrite decide_False by assumption. auto.
    + exists i, w'. rewrite lookup_set_worker by assumption.
      rewrite decide_True by reflexivity. auto.
Qed.

Lemma with_shared_self s : with_shared (shared s) s = s.
Proof. destruct s; reflexivity. Qed.

Lemma is_Some_first_err (o e : option error) :
  is_Some match o with
          | Some x => Some x
          | None => e
          end <-> is_Some o \/ is_Some e.
Proof. destruct o, e; simpl; split; intros H; try (destruct H as [H|H]); eauto; by inversion H. Qed.

Lemma fmap_fst_snoc (l : list (string * Z)) (x : string * Z) :
  ((l ++ [x])%list).*1 = (l.*1 ++ [x.1])%list.
Proof. now rewrite fmap_app. Qed.

Lemma sumZ_snd_snoc (l : list (string * Z)) (x : string * Z) :
  sumZ ((l ++ [x])%list).*2 = sumZ l.*2 + x.2.
Proof. rewrite fmap_app. apply sumZ_snoc. Qed.

Lemma prepared_as_nil_r i img ls : prepared_as i img (ls ++ []) -> prepared_as i img ls.
Proof. now rewrite app_nil_r. Qed.

Lemma prepared_as_snoc i img done l rest :
  prepared_as i img (done ++ l :: rest) -> prepared_as i img ((done ++ [l]) ++ rest).
Proof. now rewrite <- app_assoc. Qed.

(** On the tarball path [prepare] is the load followed by [examine]. *)
Lemma prepare_tarball (order : list (string * string)) (refInfo : Image) (img0 : v1Image) :
  is_tarball (applyOverrides (Reference refInfo) order) = true ->
  crane_Load env (applyOverrides (Reference refInfo) order) = Ok img0 ->
  prepare env cfg order refInfo
  = ([Call_crane_Load (applyOverrides (Reference refInfo) order)],
     examine refInfo (cache_Image img0 (CacheDirectory cfg))).
Proof.
  intros Htar Hload. unfold prepare, resolveImage, sourceImage. rewrite Htar.
  unfold bind, emit, try_wrap, ret, rejectIndex. simpl. rewrite Hload. reflexivity.
Qed.

(** A worker that goes on with what [examine] gave it. *)
Lemma prepared_inv (i : nat) (s : State) (w : Worker) (refInfo : Image) (tr0 tr : list Event)
    (p : Prepared) :
  Inv s ->
  workers s !! i = Some w ->
  w = Started \/ (exists o, w = Loaded o) ->
  ImageList cfg !! i = Some refInfo ->
  prepare env cfg (orders i) refInfo = (tr0, p) ->
  Inv (prepared i tr p s).
Proof.
  intros HI Hw Hcase Hi Hprep.
  pose proof (inv_nodup _ HI) as Hnd.
  pose proof (inv_charged _ HI) as Hch.
  pose proof (inv_true _ HI) as Htrue.
  pose proof (inv_total _ HI) as Htot.
  assert (Hnf : ~ failed w /\ forall d, ~ sizing_at w d).
  { destruct Hcase as [->|[o ->]]; simpl; tauto. }
  destruct Hnf as [Hnf Hns].
  destruct p as [e added|img c ls]; unfold prepared, return_with; simpl.
  - eapply (inv_update s i); eauto; simpl; try tauto; eauto.
    + apply is_Some_first_err. right. eauto.
    + destruct added; simpl; [|assumption].
      rewrite Htot, wrap64_add, sumZ_snoc. f_equal. lia.
    + intros H. apply is_Some_first_err. now left.
  - eapply (inv_update s i); eauto; simpl; try tauto.
    + exists refInfo, tr0, c. auto.
    + intros d Hd [H|[H|H]]; [tauto | exfalso; eapply Hns, H | tauto].
    + rewrite Htot, wrap64_add, sumZ_snoc. f_equal. lia.
Qed.

(** A step that moves worker [i] before the lock and leaves the dedup set,
    the charges, the total, the lock and the first error as they are. *)
Lemma moved_inv (i : nat) (s : State) (w w' : Worker) (sh' : Shared) :
  Inv s ->
  workers s !! i = Some w ->
  worker_ok sh' i w' ->
  in_cs w = false -> is_Returned w = false ->
  in_cs w' = false -> is_Returned w' = false ->
  shas sh' = shas (shared s) -> charges sh' = charges (shared s) ->
  shaLock sh' = shaLock (shared s) -> firstErr sh' = firstErr (shared s) ->
  totalBytes sh' = totalBytes (shared s) -> configs sh' = configs (shared s) ->
  Inv (set_worker i w' (with_shared sh' s)).
Proof.
  intros HI Hw Hok Hcs Hr Hcs' Hr' Hs Hc Hl He Ht Hcf.
  assert (Hnf : ~ failed w /\ forall d, ~ sizing_at w d).
  { destruct w as [| | | | | | | | |[e|]|]; simpl in *; try discriminate; tauto. }
  destruct Hnf as [Hnf Hns].
  eapply (inv_update s i); eauto; rewrite ?Hs, ?Hc, ?Hl, ?He, ?Ht, ?Hcf.
  - apply (inv_nodup _ HI).
  - apply (inv_charged _ HI).
  - apply (inv_true _ HI).
  - auto.
  - intros d Hd [H|[H|H]]; [tauto | exfalso; eapply Hns, H | tauto].
  - apply (inv_total _ HI).
  - auto.
  - auto.
  - tauto.
Qed.

Lemma step_inv (i : nat) (s s' : State) :
  Inv s -> step env cfg orders i s = Some s' -> Inv s'.
Proof.
  intros HI. unfold step.
  destruct (ImageList cfg !! i) as [refInfo|] eqn:Hi; [|discriminate].
  destruct (workers s !! i) as [w|] eqn:Hw; [|discriminate].
  pose proof (inv_workers _ HI i w Hw) as Hok.
  pose proof (inv_nodup _ HI) as Hnd.
  pose proof (inv_charged _ HI) as Hch.
  pose proof (inv_true _ HI) as Htrue.
  pose proof (inv_total _ HI) as Htot.
  destruct w as [|idx| |o| |img ls|img done [|l rest]|img done l h rest|img done l h rest|r|].
  - (* Queued *)
    destruct (_ <? _)%nat; [|discriminate].
    intros [= <-]. eapply moved_inv; eauto; reflexivity.
  - (* Counted *)
    intros [= <-]. eapply moved_inv; eauto; reflexivity.
  - (* Started *)
    destruct (is_tarball (applyOverrides (Reference refInfo) (orders i))) eqn:Htar.
    + intros [= <-]. eapply moved_inv; eauto; try reflexivity.
      exists refInfo. auto.
    + destruct (prepare env cfg (orders i) refInfo) as [tr p] eqn:Hprep. intros [= <-].
      eapply prepared_inv; eauto.
  - (* Loaded *)
    destruct (err (shared s)) as [e0|] eqn:Herr.
    + intros [= <-]. rewrite <- (with_shared_self s) at 1.
      eapply moved_inv; eauto; try reflexivity. exists o. exact Hok.
    + destruct o as [img0|].
      * intros [= <-]. destruct Hok as (refInfo' & Hi' & Htar & Ho).
        rewrite Hi in Hi'. injection Hi' as <-.
        eapply prepared_inv; eauto.
        apply prepare_tarball; [exact Htar|].
        destruct (crane_Load env _) as [img1|e1]; [|discriminate Ho]. now injection Ho as ->.
      * intros [= <-]. rewrite <- (with_shared_self s) at 1.
        eapply moved_inv; eauto; reflexivity.
  - (* Reporting *)
    intros [= <-]. unfold return_with; simpl.
    eapply (inv_update s i); eauto; simpl; try tauto; eauto.
    + apply is_Some_first_err. right. eauto.
    + intros H. apply is_Some_first_err. now left.
  - (* AwaitLock *)
    destruct (shaLock (shared s)) eqn:Hlock; [discriminate|]. intros [= <-].
    eapply (inv_update s i); eauto; simpl; try tauto.
    repeat split; [exact Hok | constructor].
  - (* AtLayer, end of the loop *)
    intros [= <-]. unfold return_with; simpl. destruct Hok as (Hp & Hseen & Hlock).
    eapply (inv_update s i); eauto; simpl; try tauto.
    + exists img, done. split; [now apply prepared_as_nil_r | exact Hseen].
    + rewrite is_Some_first_err. tauto.
    + rewrite is_Some_first_err. intros [H|H]; [now left | by inversion H].
  - (* AtLayer, one more layer *)
    destruct Hok as (Hp & Hseen & Hlock).
    destruct (layer_Digest l) as [h|e] eqn:Hd.
    + destruct (shas (shared s) !! Hex h) as [b|] eqn:Hs; intros [= <-];
        (eapply (inv_update s i); eauto; simpl; try tauto).
      split; [now apply prepared_as_snoc|]. split; [|assumption].
      apply Forall_app. split; [assumption|]. constructor; [|constructor].
      exists h. split; [assumption | eexists; exact Hs].
    + intros [= <-]. unfold return_with; simpl.
      eapply (inv_update s i); eauto; simpl; try tauto; eauto.
      * apply is_Some_first_err. right. eauto.
      * rewrite is_Some_first_err. tauto.
  - (* Inserting *)
    intros [= <-]. destruct Hok as (Hp & Hseen & Hlock & Hd & Hnone).
    assert (Hmono : forall d, is_Some (shas (shared s) !! d) ->
                              is_Some (<[Hex h := true]> (shas (shared s)) !! d)).
    { intros d Hd'. rewrite lookup_insert. destruct (decide (Hex h = d)); eauto. }
    eapply (inv_update s i); eauto; simpl; try tauto.
    + repeat split; auto.
      * eapply Forall_impl; [exact Hseen|]. intros l'. now apply seen_mono.
      * rewrite lookup_insert_eq. eauto.
      * intros Hin. apply Hch in Hin. rewrite Hnone in Hin. by inversion Hin.
    + intros d b. rewrite lookup_insert. destruct (decide (Hex h = d)); [congruence | apply Htrue].
    + intros d. rewrite lookup_insert. destruct (decide (Hex h = d)); tauto.
  - (* Sizing *)
    destruct Hok as (Hp & Hseen & Hlock & Hd & Hsome & Hfresh).
    destruct (layer_Size l) as [size|e] eqn:Hsz; intros [= <-].
    + eapply (inv_update s i); eauto; simpl; try tauto.
      * split; [now apply prepared_as_snoc|]. split; [|assumption].
        apply Forall_app. split; [assumption|]. constructor; [|constructor].
        exists h. auto.
      * rewrite fmap_fst_snoc. apply NoDup_app. split; [assumption|].
        split; [|apply NoDup_singleton].
        intros d Hin ->%list_elem_of_singleton. contradiction.
      * intros d. rewrite fmap_fst_snoc. intros [Hin| ->%list_elem_of_singleton]%elem_of_app; auto.
      * intros d Hin. rewrite fmap_fst_snoc. apply elem_of_app. now left.
      * intros d Hs' [Hn|[<-|[]]].
        -- contradiction.
        -- left. rewrite fmap_fst_snoc. apply elem_of_app. right. now apply list_elem_of_singleton.
      * rewrite Htot, wrap64_add, sumZ_snd_snoc. simpl. f_equal; lia.
    + unfold return_with; simpl.
      eapply (inv_update s i); eauto; simpl; try tauto; eauto.
      * apply is_Some_first_err. right. eauto.
      * rewrite is_Some_first_err. tauto.
  - discriminate.
  - discriminate.
Qed.

Lemma init_inv : Inv (init cfg).
Proof.
  constructor; simpl.
  - intros i w Hw. apply lookup_replicate in Hw as [-> _]. exact I.
  - constructor.
  - intros d Hd. by apply elem_of_nil in Hd.
  - intros d b Hd. by rewrite lookup_empty in Hd.
  - intros d Hd. rewrite lookup_empty in Hd. by inversion Hd.
  - reflexivity.
  - intros H. by inversion H.
Qed.

Lemma run_inv (sched : list nat) (s : State) :
  Inv s -> Inv (run env cfg orders sched s).
Proof.
  revert s. induction sched as [|i sched IH]; intros s HI; simpl; [assumption|].
  apply IH. destruct (step env cfg orders i s) as [s'|] eqn:Hstep; simpl; [|assumption].
  eapply step_inv; eassumption.
Qed.

Lemma step_length (i : nat) (s s' : State) :
  step env cfg orders i s = Some s' -> length (workers s') = length (workers s).
Proof.
  unfold step, prepared. intros H.
  repeat (match type of H with
          | context [match ?x with _ => _ end] => destruct x
          end; try discriminate);
    injection H as <-; simpl; apply length_insert.
Qed.

Lemma run_length (sched : list nat) (s : State) :
  length (workers (run env cfg orders sched s)) = length (workers s).
Proof.
  revert s. induction sched as [|i sched IH]; intros s; simpl; [reflexivity|].
  rewrite IH. destruct (step env cfg orders i s) as [s'|] eqn:Hstep; simpl; [|reflexivity].
  eapply step_length; eassumption.
Qed.

(** Only the holder of [shaLock] writes the dedup set or charges a layer,
    and it still holds the lock afterwards. *)
Lemma step_writes_under_lock (i : nat) (s s' : State) :
  Inv s ->
  step env cfg orders i s = Some s' ->
  shas (shared s') <> shas (shared s) \/ charges (shared s') <> charges (shared s) ->
  shaLock (shared s) = Some i /\ shaLock (shared s') = Some i.
Proof.
  intros HI. unfold step.
  destruct (ImageList cfg !! i) as [refInfo|] eqn:Hi; [|discriminate].
  destruct (workers s !! i) as [w|] eqn:Hw; [|discriminate].
  pose proof (inv_workers _ HI i w Hw) as Hok.
  destruct w as [|idx| |o| |img ls|img done [|l rest]|img done l h rest|img done l h rest|r|].
  - destruct (_ <? _)%nat; [|discriminate]. intros [= <-]; simpl; tauto.
  - intros [= <-]; simpl; tauto.
  - destruct (is_tarball _); [intros [= <-]; simpl; tauto|].
    destruct (prepare env cfg (orders i) refInfo) as [tr [e added|img c ls]];
      intros [= <-]; simpl; tauto.
  - destruct (err (shared s)); [intros [= <-]; simpl; tauto|].
    destruct o as [img0|]; [|intros [= <-]; simpl; tauto].
    destruct (examine refInfo _) as [e added|img c ls]; intros [= <-]; simpl; tauto.
  - intros [= <-]; simpl; tauto.
  - destruct (shaLock (shared s)); [discriminate|]. intros [= <-]; simpl; tauto.
  - intros [= <-]; simpl; tauto.
  - destruct (layer_Digest l) as [h|e]; [destruct (shas (shared s) !! Hex h)|];
      intros [= <-]; simpl; tauto.
  - intros [= <-] _. simpl. simpl in Hok. tauto.
  - destruct (layer_Size l); intros [= <-]; simpl; simpl in Hok; tauto.
  - discriminate.
  - discriminate.
Qed.

End Invariant.

(** C1: in every state the task group of [Pull] can reach, no digest has
    been charged to [totalBytes] twice, the total is the sum of the config
    sizes and of the charged layer sizes, a worker between the check of the
    dedup set and the addition of the size holds [shaLock], and only the
    holder of the lock writes the dedup set or charges a size. When the
    fetch succeeds, every layer digest of every fetched image is in the
    dedup set and has been charged exactly once. *)
Theorem C1_dedup_exactly_once (env : Remote) (cfg : PullConfig)
    (orders : nat -> list (string * string)) (sched : list nat) :
  let s := run env cfg orders sched (init cfg) in
  NoDup (charges (shared s)).*1
  /\ totalBytes (shared s)
     = wrap64 (sumZ (configs (shared s)) + sumZ (charges (shared s)).*2)
  /\ (forall i w, workers s !! i = Some w -> in_cs w = true -> shaLock (shared s) = Some i)
  /\ (forall i s', step env cfg orders i s = Some s' ->
        shas (shared s') <> shas (shared s) \/ charges (shared s') <> charges (shared s) ->
        shaLock (shared s) = Some i /\ shaLock (shared s') = Some i)
  /\ (forall r, fetch_result s = Some (Ok r) ->
      forall i refInfo tr img c ls l h,
        ImageList cfg !! i = Some refInfo ->
        prepare env cfg (orders i) refInfo = (tr, PrepReady img c ls) ->
        l ∈ ls ->
        layer_Digest l = Ok h ->
        shas (shared s) !! Hex h = Some true
        /\ length (filter (fun ch => ch.1 = Hex h) (charges (shared s))) = 1%nat).
Proof.
  intros s.
  assert (HI : Inv env cfg orders s) by apply run_inv, init_inv.
  split; [apply (inv_nodup _ _ _ _ HI)|].
  split; [apply (inv_total _ _ _ _ HI)|].
  split.
  { intros i w Hw Hcs. eapply worker_ok_in_cs; [|exact Hcs].
    eapply inv_workers; eassumption. }
  split.
  { intros i s' Hstep Hch. eapply step_writes_under_lock; eassumption. }
  intros r Hres i refInfo tr img c ls l h Hi Hprep Hl Hd.
  unfold fetch_result in Hres.
  destruct (forallb is_Returned (workers s)) eqn:Hall; [|discriminate].
  destruct (firstErr (shared s)) eqn:Herr; [discriminate|].
  assert (Hret : forall j w, workers s !! j = Some w -> w = Returned None).
  { intros j w Hw.
    assert (Hr : is_Returned w = true).
    { eapply (proj1 (forallb_forall _ _) Hall), list_elem_of_In, list_elem_of_lookup_2, Hw. }
    destruct w as [| | | | | | | | |[e|]|]; try discriminate; [|reflexivity].
    pose proof (inv_workers _ _ _ _ HI j _ Hw) as Hok. simpl in Hok.
    rewrite Herr in Hok. by inversion Hok. }
  assert (Hlen : (i < length (workers s))%nat).
  { unfold s. rewrite run_length. simpl. rewrite length_replicate.
    eapply lookup_lt_Some, Hi. }
  destruct (lookup_lt_is_Some_2 _ _ Hlen) as [w Hw].
  pose proof (Hret i w Hw) as ->.
  pose proof (inv_workers _ _ _ _ HI i _ Hw) as (img' & ls' & Hp & Hseen).
  destruct Hp as (refInfo' & tr' & c' & Hi' & Hprep').
  rewrite Hi in Hi'. injection Hi' as <-. rewrite Hprep in Hprep'.
  injection Hprep' as <- <- <- <-.
  destruct (proj1 (Forall_forall _ _) Hseen l Hl) as (h' & Hd' & Hsome).
  rewrite Hd in Hd'. injection Hd' as <-.
  split.
  - destruct Hsome as [b Hb]. rewrite Hb. f_equal. eapply inv_true; eassumption.
  - apply filter_fst_NoDup; [apply (inv_nodup _ _ _ _ HI)|].
    destruct (inv_shas _ _ _ _ HI _ Hsome) as [Hc|(j & wj & Hj & Hwj)]; [assumption|].
    rewrite (Hret j wj Hj) in Hwj. simpl in Hwj. tauto.
Qed.

(** Two images that share the layer ["aa"], fetched by two workers whose
    steps alternate. *)
Definition layer_aa : Layer := mkLayer (Ok (mkHash "sha256" "aa")) (Ok 100).
Definition layer_bb : Layer := mkLayer (Ok (mkHash "sha256" "bb")) (Ok 30).
Definition layer_cc : Layer := mkLayer (Ok (mkHash "sha256" "cc")) (Ok 5).

Definition image_one : v1Image :=
  {| img_Manifest := Ok (mkManifest 7); img_Layers := Ok [layer_aa; layer_bb];
     img_cache := None |}.
Definition image_two : v1Image :=
  {| img_Manifest := Ok (mkManifest 9); img_Layers := Ok [layer_aa; layer_cc];
     img_cache := None |}.

Definition env_two : Remote :=
  {| crane_Load := fun _ => Err (Errorf "no such file");
     name_ParseReference := fun r => Ok r;
     crane_Get := fun _ => Ok (mkDescriptor "application/vnd.oci.image.manifest.v1+json" "{}");
     crane_Pull := fun r => if String.eqb r "registry/one:1" then Ok image_one else Ok image_two;
     client_NewClientWithOpts := None;
     cli_ImageInspectWithRaw := fun _ => Ok 5;
     daemon_Image := fun _ => Err (Errorf "no daemon");
     json_Unmarshal := fun _ => Ok [];
     utils_ByteFormat := fun _ => "5 Byte" |}.

Definition cfg_two : PullConfig :=
  {| DestinationDirectory := ["pkg"; "images"];
     CacheDirectory := ["cache"; "images"];
     RegistryOverrides := ∅;
     ImageList := [mkImage "registry/one:1" "registry/one" "1" "";
                   mkImage "registry/two:1" "registry/two" "1" ""];
     Arch := "amd64" |}.

Definition image_two_cached : v1Image := cache_Image image_two (CacheDirectory cfg_two).

Definition alternating : list nat := concat (replicate 25 [0%nat; 1%nat]).

Lemma C1_dedup_exactly_once_witness :
  let s := run env_two cfg_two (fun _ => []) alternating (init cfg_two) in
  fetch_result s = Some (Ok (fetched (shared s), 151))
  /\ charges (shared s) = [("aa", 100); ("bb", 30); ("cc", 5)]
  /\ shas (shared s) !! "aa" = Some true
  /\ length (filter (fun ch => ch.1 = "aa") (charges (shared s))) = 1%nat.
Proof.
  intros s.
  assert (Hres : fetch_result s = Some (Ok (fetched (shared s), 151))).
  { vm_cast_no_check (eq_refl (Some (Ok (fetched (shared s), 151)))). }
  split; [exact Hres|].
  split; [vm_cast_no_check (eq_refl [("aa", 100); ("bb", 30); ("cc", 5)])|].
  destruct (C1_dedup_exactly_once env_two cfg_two (fun _ => []) alternating)
    as (_ & _ & _ & _ & Hsucc).
  exact (Hsucc _ Hres 1%nat (mkImage "registry/two:1" "registry/two" "1" "") _ image_two_cached 9
           [layer_aa; layer_cc] layer_aa (mkHash "sha256" "aa")
           eq_refl eq_refl ltac:(left) eq_refl).
Defined.

End FetchSpec.

(** ** The file system and the process-wide configuration *)
Module OS.

(** A file with its content, or a directory. *)
Inductive node : Type :=
  | File (content : string)
  | Dir.

#[global] Instance node_eq_dec : EqDecision node.
Proof. solve_decision. Defined.

(** The file system: the node at each cleaned path. *)
Abbreviation FS := (gmap path node).

Inductive Op : Type := OpStat | OpLstat | OpOpen | OpRead | OpReadDir | OpRemove | OpRename.

#[global] Instance Op_eq_dec : EqDecision Op.
Proof. solve_decision. Defined.

(** What the process is given from outside the package: the failures of
    the operating system that do not follow from the content of the file
    system ([fault op p] is [Some e] when [op] on [p] fails with [e], a
    permission error for instance), the size the system reports for a
    directory, the working directory, [config.GetAbsCachePath()], the
    constant [layout.ImagesDir], and the SHA-256 function in hexadecimal. *)
Record Host : Type := mkHost {
  fault : Op -> path -> option error;
  dir_size : path -> Z;
  cwd : path;
  GetAbsCachePath : path;
  ImagesDir : string;
  sha256_hex : string -> string
}.

(** [fs.FileInfo] *)
Record FileInfo : Type := mkFileInfo {
  info_IsDir : bool;
  info_Size : Z
}.

Definition path_string (p : path) : string := String.concat "/" p.

Definition not_exist (op : string) (p : path) : error :=
  Wrap (op ++ " " ++ path_string p ++ ": ") ErrNotExist.

(** [os.Stat] and [os.Lstat] (there are no symbolic links in the model). *)
Definition stat_with (o : Op) (name : string) (h : Host) (fs : FS) (p : path) : result FileInfo :=
  match fault h o p with
  | Some e => Err e
  | None =>
      match fs !! p with
      | None => Err (not_exist name p)
      | Some (File c) => Ok (mkFileInfo false (Z.of_nat (String.length c)))
      | Some Dir => Ok (mkFileInfo true (dir_size h p))
      end
  end.

Definition os_Stat : Host -> FS -> path -> result FileInfo := stat_with OpStat "stat".
Definition os_Lstat : Host -> FS -> path -> result FileInfo := stat_with OpLstat "lstat".

(** The names of the entries of the directory [p]. *)
Definition children (fs : FS) (p : path) : list string :=
  omap (fun q => match decide (take (length p) q = p /\ length q = S (length p)) with
                 | left _ => last q
                 | right _ => None
                 end)
       (map fst (map_to_list fs)).

(** [os.Remove]: a file, or an empty directory. *)
Definition os_Remove (h : Host) (fs : FS) (p : path) : FS * option error :=
  match fault h OpRemove p with
  | Some e => (fs, Some e)
  | None =>
      match fs !! p with
      | None => (fs, Some (not_exist "remove" p))
      | Some (File _) => (delete p fs, None)
      | Some Dir =>
          match children fs p with
          | [] => (delete p fs, None)
          | _ :: _ =>
              (fs, Some (Errorf ("remove " ++ path_string p ++ ": directory not empty")))
          end
      end
  end.

End OS.

(** ** The cleanup manager ([CleanupInProgressLayers]) *)
Module Cleanup.
Import OS.

(** Where the goroutine started for one layer stands. *)
Inductive Task : Type :=
  | Pending (l : Layer)
  | Removing (l : Layer) (digest : Hash) (location : path)
  | Done (l : Layer) (err : option error).

Record State : Type := mkState {
  fs : FS;
  tasks : list Task;
  firstErr : option error;
  (** not a variable of the program: the calls made to the file system *)
  log : list (Op * path)
}.

Definition cacheDir (h : Host) : path := GetAbsCachePath h ++ [ImagesDir h].

(** [filepath.Join(cacheDir, digest.String())] *)
Definition location (h : Host) (digest : Hash) : path := cacheDir h ++ [Hash_String digest].

Definition logged (o : Op) (p : path) (s : State) : State :=
  {| fs := fs s; tasks := tasks s; firstErr := firstErr s; log := log s ++ [(o, p)] |}.

Definition finish (i : nat) (l : Layer) (err : option error) (fs' : FS) (s : State) : State :=
  {| fs := fs';
     tasks := <[i := Done l err]> (tasks s);
     firstErr := match firstErr s with
                 | Some e => Some e
                 | None => err
                 end;
     log := log s |}.

(** From [os.Stat(location)] to the comparison of the sizes. *)
Definition stat_step (h : Host) (i : nat) (l : Layer) (digest : Hash) (size : Z) (s : State)
  : State :=
  match os_Stat h (fs s) (location h digest) with
  | Err err =>
      if is_ErrNotExist err then finish i l None (fs s) s
      else finish i l (Some err) (fs s) s
  | Ok info =>
      if negb (info_Size info =? size) then
        {| fs := fs s;
           tasks := <[i := Removing l digest (location h digest)]> (tasks s);
           firstErr := firstErr s;
           log := log s |}
      else finish i l None (fs s) s
  end.

(** [os.Remove(location)] *)
Definition remove_step (h : Host) (i : nat) (l : Layer) (digest : Hash) (loc : path) (s : State)
  : State :=
  match os_Remove h (fs s) loc with
  | (fs', Some err) =>
      finish i l
        (Some (Wrap ("failed to remove incomplete layer " ++ Hex digest ++ ": ") err))
        fs' s
  | (fs', None) => finish i l None fs' s
  end.

(** One step of the goroutine of layer [i]: from its start to the return
    of [os.Stat], or the call of [os.Remove]. *)
Definition step (h : Host) (i : nat) (s : State) : option State :=
  match tasks s !! i with
  | Some (Pending l) =>
      match layer_Digest l with
      | Err e => Some (finish i l (Some e) (fs s) s)
      | Ok digest =>
          match layer_Size l with
          | Err e => Some (finish i l (Some e) (fs s) s)
          | Ok size =>
              Some (stat_step h i l digest size (logged OpStat (location h digest) s))
          end
      end
  | Some (Removing l digest loc) =>
      Some (remove_step h i l digest loc (logged OpRemove loc s))
  | Some (Done _ _) => None
  | None => None
  end.

Fixpoint run (h : Host) (sched : list nat) (s : State) : State :=
  match sched with
  | [] => s
  | i :: sched' => run h sched' (default s (step h i s))
  end.

(** A goroutine ends after at most two steps, so whatever [sched] leaves
    undone is done by two rounds over all of them: [eg.Wait()] returns only
    when every goroutine has. *)
Definition complete (sched : list nat) (n : nat) : list nat :=
  sched ++ seq 0 n ++ seq 0 n.

(** [CleanupInProgressLayers(ctx, img)]; [sched] is the order in which the
    goroutines happen to take their steps. *)
Definition start (layers : list Layer) (fs0 : FS) : State :=
  {| fs := fs0; tasks := map Pending layers; firstErr := None; log := [] |}.

Definition CleanupInProgressLayers (h : Host) (sched : list nat) (img : v1Image) (fs0 : FS)
  : FS * option error :=
  match img_Layers img with
  | Err e => (fs0, Some e)
  | Ok layers =>
      let s := run h (complete sched (length layers)) (start layers fs0) in
      (fs s, firstErr s)
  end.

(** The calls [CleanupInProgressLayers] makes to the file system. *)
Definition cleanup_calls (h : Host) (sched : list nat) (img : v1Image) (fs0 : FS)
  : list (Op * path) :=
  match img_Layers img with
  | Err e => []
  | Ok layers => log (run h (complete sched (length layers)) (start layers fs0))
  end.

End Cleanup.


(** ** Goroutines that end after two steps

    The goroutines of [CleanupInProgressLayers] and of [SaveConcurrent] take
    at most two steps each. Whatever the schedule, two more rounds over all
    of them leave every goroutine at its end. *)
Module Goroutines.

Section TwoSteps.
Context {S T : Type}.
Variable tasks : S -> list T.
Variable rank : T -> nat.
Variable step : nat -> S -> option S.

Hypothesis progress : forall i s s',
  step i s = Some s' ->
  exists t t', tasks s !! i = Some t /\ tasks s' = <[i := t']> (tasks s)
               /\ (rank t < rank t')%nat.
Hypothesis stuck : forall i s t,
  step i s = None -> tasks s !! i = Some t -> (2 <= rank t)%nat.

Fixpoint run_with (sched : list nat) (s : S) : S :=
  match sched with
  | [] => s
  | i :: sched' => run_with sched' (default s (step i s))
  end.

Lemma run_with_app (a b : list nat) (s : S) :
  run_with (a ++ b) s = run_with b (run_with a s).
Proof. revert s. induction a as [|i a IH]; intros s; simpl; [reflexivity | apply IH]. Qed.

Lemma attempt_length (i : nat) (s : S) :
  length (tasks (default s (step i s))) = length (tasks s).
Proof.
  destruct (step i s) as [s'|] eqn:Hstep; simpl; [|reflexivity].
  destruct (progress _ _ _ Hstep) as (t & t' & _ & -> & _). apply length_insert.
Qed.

Lemma run_with_length (sched : list nat) (s : S) :
  length (tasks (run_with sched s)) = length (tasks s).
Proof.
  revert s. induction sched as [|i sched IH]; intros s; simpl; [reflexivity|].
  rewrite IH. apply attempt_length.
Qed.

(** After the attempt of [i] no goroutine is behind where it was, and [i]
    is one step further or at its end. *)
Lemma attempt_advances (i : nat) (s : S) (j : nat) (t : T) :
  tasks s !! j = Some t ->
  exists t', tasks (default s (step i s)) !! j = Some t'
             /\ (rank t <= rank t')%nat
             /\ (j = i -> (Nat.min (Datatypes.S (rank t)) 2 <= rank t')%nat).
Proof.
  intros Hj. destruct (step i s) as [s'|] eqn:Hstep; simpl.
  - destruct (progress _ _ _ Hstep) as (ti & ti' & Hi & -> & Hlt).
    destruct (decide (j = i)) as [->|Hne].
    + rewrite Hi in Hj. injection Hj as <-. exists ti'.
      rewrite list_lookup_insert_eq by (eapply lookup_lt_Some, Hi).
      repeat split; lia.
    + exists t. rewrite list_lookup_insert_ne by congruence. repeat split; auto. congruence.
  - exists t. repeat split; auto. intros ->.
    pose proof (stuck _ _ _ Hstep Hj). lia.
Qed.

Lemma run_with_monotone (sched : list nat) (s : S) (j : nat) (t : T) :
  tasks s !! j = Some t ->
  exists t', tasks (run_with sched s) !! j = Some t' /\ (rank t <= rank t')%nat.
Proof.
  revert s t. induction sched as [|i sched IH]; intros s t Hj; simpl; [eauto|].
  destruct (attempt_advances i s j t Hj) as (t1 & H1 & Hle & _).
  destruct (IH _ _ H1) as (t' & Ht' & Hle'). exists t'. split; [assumption | lia].
Qed.

Lemma round_advances (round : list nat) (s : S) (k : nat) :
  (forall j t, tasks s !! j = Some t -> (k <= rank t)%nat) ->
  forall j t, tasks (run_with round s) !! j = Some t ->
    (k <= rank t)%nat /\ (j ∈ round -> (Nat.min (Datatypes.S k) 2 <= rank t)%nat).
Proof.
  revert s. induction round as [|i round IH]; intros s Hk j t Hj; simpl in Hj.
  - split; [eauto|]. intros Hin. by apply elem_of_nil in Hin.
  - assert (Hk' : forall j t, tasks (default s (step i s)) !! j = Some t -> (k <= rank t)%nat).
    { intros j' t' Hj'.
      destruct (lookup_lt_is_Some_2 (tasks s) j') as [t0 Ht0].
      { rewrite <- (attempt_length i s). eapply lookup_lt_Some, Hj'. }
      destruct (attempt_advances i s j' t0 Ht0) as (t1 & H1 & Hle & _).
      rewrite Hj' in H1. injection H1 as <-. specialize (Hk _ _ Ht0). lia. }
    destruct (IH _ Hk' j t Hj) as [Hge Hin]. split; [assumption|].
    intros [->|Hin']%elem_of_cons; [|auto].
    destruct (lookup_lt_is_Some_2 (tasks s) i) as [t0 Ht0].
    { apply lookup_lt_Some in Hj. now rewrite run_with_length, attempt_length in Hj. }
    destruct (attempt_advances i s i t0 Ht0) as (t1 & H1 & Hle & Hadv).
    destruct (run_with_monotone round _ i t1 H1) as (t' & Ht' & Hle').
    rewrite Hj in Ht'. injection Ht' as <-.
    specialize (Hadv eq_refl). specialize (Hk _ _ Ht0). lia.
Qed.

Theorem all_at_end (sched : list nat) (s : S) (j : nat) (t : T) :
  tasks (run_with (Cleanup.complete sched (length (tasks s))) s) !! j = Some t ->
  (2 <= rank t)%nat.
Proof.
  unfold Cleanup.complete. rewrite !run_with_app. intros Hj.
  assert (Hlt : (j < length (tasks s))%nat).
  { apply lookup_lt_Some in Hj. now rewrite !run_with_length in Hj. }
  set (s1 := run_with sched s) in *.
  set (s2 := run_with (seq 0 (length (tasks s))) s1) in *.
  assert (Hin : j ∈ seq 0 (length (tasks s))) by (apply elem_of_seq; lia).
  assert (H1 : forall j t, tasks s2 !! j = Some t -> (1 <= rank t)%nat).
  { intros j' t' Hj'.
    assert (Hlt' : (j' < length (tasks s))%nat).
    { apply lookup_lt_Some in Hj'. unfold s2, s1 in Hj'. now rewrite !run_with_length in Hj'. }
    destruct (round_advances (seq 0 (length (tasks s))) s1 0) with (j := j') (t := t')
      as [_ H]; [intros; lia | exact Hj' |].
    apply H. apply elem_of_seq. lia. }
  destruct (round_advances (seq 0 (length (tasks s))) s2 1 H1 j t Hj) as [_ H2].
  exact (H2 Hin).
Qed.

End TwoSteps.
End Goroutines.

(** ** Properties of the cleanup manager *)
Module CleanupSpec.
Import OS Cleanup.

Definition rank (t : Task) : nat :=
  match t with
  | Pending _ => 0
  | Removing _ _ _ => 1
  | Done _ _ => 2
  end.

Section Invariant.
Variable h : Host.
Variable layers : list Layer.
Variable fs0 : FS.

(** Layer [l] sits at [p] in the cache and its recorded size differs from
    the size of what was at [p] when the cleanup started. *)
Definition mismatched (l : Layer) (p : path) : Prop :=
  exists digest size info,
    layer_Digest l = Ok digest /\ p = location h digest /\ layer_Size l = Ok size
    /\ os_Stat h fs0 p = Ok info /\ info_Size info <> size.

(** What the goroutine of [l] may have returned, from the state of the
    cache at the start. *)
Definition outcome (cur : FS) (l : Layer) (r : option error) : Prop :=
  match layer_Digest l, layer_Size l with
  | Err e, _ => r = Some e
  | Ok _, Err e => r = Some e
  | Ok digest, Ok size =>
      match os_Stat h fs0 (location h digest) with
      | Err e => r = if is_ErrNotExist e then None else Some e
      | Ok info =>
          if info_Size info =? size then r = None
          else cur !! location h digest = None
               \/ is_Some (fault h OpRemove (location h digest))
               \/ fs0 !! location h digest = Some Dir
      end
  end.

Definition task_ok (cur : FS) (t : Task) (l : Layer) : Prop :=
  match t with
  | Pending l' => l' = l
  | Removing l' digest loc =>
      l' = l /\ layer_Digest l = Ok digest /\ loc = location h digest /\ mismatched l loc
  | Done l' r => l' = l /\ outcome cur l r
  end.

Record Inv (s : State) : Prop := mkInv {
  inv_len : length (tasks s) = length layers;
  inv_task : forall i t, tasks s !! i = Some t ->
             exists l, layers !! i = Some l /\ task_ok (fs s) t l;
  inv_fs : forall p, fs s !! p = fs0 !! p
                     \/ (fs s !! p = None /\ exists l, l ∈ layers /\ mismatched l p);
  inv_err : forall i l e, tasks s !! i = Some (Done l (Some e)) -> is_Some (firstErr s);
  inv_first : forall e, firstErr s = Some e ->
              exists i l, tasks s !! i = Some (Done l (Some e));
  inv_log : forall o p, (o, p) ∈ log s ->
            exists l digest, l ∈ layers /\ layer_Digest l = Ok digest /\ p = location h digest
}.

Lemma outcome_mono cur cur' l r :
  (forall p, cur !! p = None -> cur' !! p = None) -> outcome cur l r -> outcome cur' l r.
Proof.
  intros Hm. unfold outcome.
  destruct (layer_Digest l) as [digest|]; [|auto].
  destruct (layer_Size l) as [size|]; [|auto].
  destruct (os_Stat h fs0 (location h digest)) as [info|]; [|auto].
  destruct (info_Size info =? size); [auto|]. intros [H|H]; auto.
Qed.

Lemma task_ok_mono cur cur' t l :
  (forall p, cur !! p = None -> cur' !! p = None) -> task_ok cur t l -> task_ok cur' t l.
Proof.
  intros Hm. destruct t; simpl; auto. intros [-> Ho]. split; [reflexivity|].
  eapply outcome_mono; eassumption.
Qed.

Lemma is_ErrNotExist_not_exist op p : is_ErrNotExist (not_exist op p) = true.
Proof. reflexivity. Qed.

(** The answer of [os.Stat] now, against its answer at the start. *)
Lemma stat_now (s : State) (p : path) :
  Inv s ->
  match os_Stat h (fs s) p with
  | Ok info => os_Stat h fs0 p = Ok info /\ fs s !! p = fs0 !! p
  | Err e =>
      os_Stat h fs0 p = Err e
      \/ (is_ErrNotExist e = true /\ fs s !! p = None /\ exists info, os_Stat h fs0 p = Ok info)
  end.
Proof.
  intros HI. unfold os_Stat, stat_with.
  destruct (fault h OpStat p) as [e|]; [now left|].
  destruct (inv_fs _ HI p) as [Heq|[Hnone _]].
  - rewrite Heq. destruct (fs0 !! p) as [[c|]|]; auto.
  - rewrite Hnone. destruct (fs0 !! p) as [[c|]|]; eauto 6.
Qed.

Lemma inv_finish (s : State) (i : nat) (t : Task) (l : Layer) (r : option error) (fs' : FS) :
  Inv s ->
  tasks s !! i = Some t ->
  (match t with Done _ _ => False | _ => True end) ->
  layers !! i = Some l ->
  outcome fs' l r ->
  (forall p, fs s !! p = None -> fs' !! p = None) ->
  (forall p, fs' !! p = fs s !! p \/ (fs' !! p = None /\ exists l', l' ∈ layers /\ mismatched l' p)) ->
  Inv (finish i l r fs' s).
Proof.
  intros HI Ht Hnd Hl Hout Hmono Hfs.
  assert (Hlt : (i < length (tasks s))%nat) by (eapply lookup_lt_Some, Ht).
  constructor; simpl.
  - rewrite length_insert. apply (inv_len _ HI).
  - intros j tj. rewrite list_lookup_insert. destruct (decide (i = j ∧ (i < length (tasks s))%nat)) as [[<- _]|Hne].
    + intros [= <-]. exists l. split; [assumption|]. simpl. auto.
    + intros Hj. destruct (inv_task _ HI j tj Hj) as (lj & Hlj & Hok).
      exists lj. split; [assumption|]. eapply task_ok_mono; eassumption.
  - intros p. destruct (Hfs p) as [Heq|Hrm]; [|now right].
    rewrite Heq. apply (inv_fs _ HI).
  - intros j lj e. rewrite list_lookup_insert.
    destruct (decide (i = j ∧ (i < length (tasks s))%nat)) as [[<- _]|Hne].
    + intros [= ? ?]; subst. destruct (firstErr s); eauto.
    + intros Hj. destruct (inv_err _ HI j lj e Hj) as [e' He']. rewrite He'. eauto.
  - intros e. destruct (firstErr s) as [e0|] eqn:He0.
    + intros [= <-]. destruct (inv_first _ HI e0 He0) as (j & lj & Hj).
      exists j, lj. rewrite list_lookup_insert_ne; [assumption|].
      intros <-. rewrite Ht in Hj. injection Hj as ->. exact Hnd.
    + intros ->. exists i, l. now apply list_lookup_insert_eq.
  - apply (inv_log _ HI).
Qed.

Lemma inv_logged (s : State) (o : Op) (l : Layer) (digest : Hash) :
  Inv s -> l ∈ layers -> layer_Digest l = Ok digest -> Inv (logged o (location h digest) s).
Proof.
  intros HI Hin Hd. constructor; simpl; try apply HI.
  intros o' p [Hold|Hnew%list_elem_of_singleton]%elem_of_app.
  - eapply (inv_log _ HI); eassumption.
  - injection Hnew as -> ->. eauto.
Qed.

Lemma stat_step_inv (i : nat) (l : Layer) (digest : Hash) (size : Z) (s : State) :
  Inv s ->
  tasks s !! i = Some (Pending l) ->
  layers !! i = Some l ->
  layer_Digest l = Ok digest ->
  layer_Size l = Ok size ->
  Inv (stat_step h i l digest size s).
Proof.
  intros HI Ht Hl0 Hd Hsz. unfold stat_step.
  assert (Hself : forall p, fs s !! p = None -> fs s !! p = None) by auto.
  assert (Hsame : forall p, fs s !! p = fs s !! p
            \/ (fs s !! p = None /\ exists l', l' ∈ layers /\ mismatched l' p)) by auto.
  pose proof (stat_now s (location h digest) HI) as Hstat.
  destruct (os_Stat h (fs s) (location h digest)) as [info|err] eqn:Hnow.
  - destruct Hstat as [Hst0 Heq].
    destruct (info_Size info =? size) eqn:Hcmp; simpl.
    + eapply inv_finish; eauto; try exact I. unfold outcome. now rewrite Hd, Hsz, Hst0, Hcmp.
    + assert (Hlt : (i < length (tasks s))%nat) by (eapply lookup_lt_Some, Ht).
      constructor; simpl.
      * rewrite length_insert. apply (inv_len _ HI).
      * intros j tj. rewrite list_lookup_insert.
        destruct (decide (i = j ∧ (i < length (tasks s))%nat)) as [[<- _]|Hne].
        -- intros [= <-]. exists l. split; [assumption|]. simpl.
           repeat split; auto. exists digest, size, info.
           repeat split; auto. now apply Z.eqb_neq.
        -- intros Hj. apply (inv_task _ HI j tj Hj).
      * apply (inv_fs _ HI).
      * intros j lj e. rewrite list_lookup_insert.
        destruct (decide (i = j ∧ (i < length (tasks s))%nat)) as [[<- _]|Hne];
          [discriminate|]. apply (inv_err _ HI).
      * intros e He. destruct (inv_first _ HI e He) as (j & lj & Hj).
        exists j, lj. rewrite list_lookup_insert_ne; [assumption|].
        intros <-. rewrite Ht in Hj. discriminate.
      * apply (inv_log _ HI).
  - destruct (is_ErrNotExist err) eqn:Hne;
      (eapply inv_finish; eauto; try exact I); unfold outcome; rewrite Hd, Hsz.
    + destruct Hstat as [Hst0|(_ & Hnone & info & Hst0)]; rewrite Hst0.
      * now rewrite Hne.
      * destruct (info_Size info =? size); auto.
    + destruct Hstat as [Hst0|(Habs & _)]; [|congruence].
      rewrite Hst0. now rewrite Hne.
Qed.

Lemma remove_step_inv (i : nat) (l0 : Layer) (digest : Hash) (s : State) :
  Inv s ->
  tasks s !! i = Some (Removing l0 digest (location h digest)) ->
  layers !! i = Some l0 ->
  layer_Digest l0 = Ok digest ->
  mismatched l0 (location h digest) ->
  Inv (remove_step h i l0 digest (location h digest) s).
Proof.
  intros HI Ht Hl0 Hd Hmis. unfold remove_step.
  pose proof Hmis as (digest' & size & info & Hd' & Hloc & Hsz & Hst0 & Hneq).
  rewrite Hd in Hd'. injection Hd' as <-.
  assert (Hself : forall p, fs s !! p = None -> fs s !! p = None) by auto.
  assert (Hsame : forall p, fs s !! p = fs s !! p
            \/ (fs s !! p = None /\ exists l', l' ∈ layers /\ mismatched l' p)) by auto.
  assert (Hneqb : (info_Size info =? size) = false) by now apply Z.eqb_neq.
  assert (Hl0in : l0 ∈ layers) by (eapply list_elem_of_lookup_2, Hl0).
  unfold os_Remove.
  destruct (fault h OpRemove (location h digest)) as [e|] eqn:Hf.
  { eapply inv_finish; eauto; try exact I.
    unfold outcome. rewrite Hd, Hsz, Hst0, Hneqb. right. left. eauto. }
  destruct (fs s !! location h digest) as [[c|]|] eqn:Hnode.
  - eapply inv_finish; eauto; try exact I.
    + unfold outcome. rewrite Hd, Hsz, Hst0, Hneqb. left. apply lookup_delete_eq.
    + intros p Hp. rewrite lookup_delete. destruct (decide (location h digest = p)); auto.
    + intros p. rewrite lookup_delete. destruct (decide (location h digest = p)) as [<-|]; eauto.
  - assert (Hdir0 : fs0 !! location h digest = Some Dir).
    { destruct (inv_fs _ HI (location h digest)) as [Heq|[Hnone _]]; congruence. }
    destruct (children (fs s) (location h digest));
      (eapply inv_finish; eauto; try exact I).
    + unfold outcome. rewrite Hd, Hsz, Hst0, Hneqb. left. apply lookup_delete_eq.
    + intros p Hp. rewrite lookup_delete. destruct (decide (location h digest = p)); auto.
    + intros p. rewrite lookup_delete. destruct (decide (location h digest = p)) as [<-|]; eauto.
    + unfold outcome. rewrite Hd, Hsz, Hst0, Hneqb. auto.
  - eapply inv_finish; eauto; try exact I.
    unfold outcome. rewrite Hd, Hsz, Hst0, Hneqb. auto.
Qed.

Lemma cleanup_step_inv (i : nat) (s s' : State) :
  Inv s -> step h i s = Some s' -> Inv s'.
Proof.
  intros HI. unfold step.
  destruct (tasks s !! i) as [t|] eqn:Ht; [|discriminate].
  destruct (inv_task _ HI i t Ht) as (l0 & Hl0 & Hok).
  assert (Hl0in : l0 ∈ layers) by (eapply list_elem_of_lookup_2, Hl0).
  destruct t as [l|l digest loc|l r]; [| |discriminate]; simpl in Hok.
  - subst l0.
    destruct (layer_Digest l) as [digest|e] eqn:Hd.
    2:{ intros [= <-]. eapply inv_finish; eauto; try exact I. unfold outcome. now rewrite Hd. }
    destruct (layer_Size l) as [size|e] eqn:Hsz.
    2:{ intros [= <-]. eapply inv_finish; eauto; try exact I.
        unfold outcome. now rewrite Hd, Hsz. }
    intros [= <-]. apply stat_step_inv; auto. now apply (inv_logged s OpStat l).
  - destruct Hok as (-> & Hd & -> & Hmis). intros [= <-].
    apply remove_step_inv; auto. now apply (inv_logged s OpRemove l0).
Qed.

Lemma cleanup_start_inv : Inv (start layers fs0).
Proof.
  constructor; simpl.
  - apply length_map.
  - intros i t Ht. rewrite list_lookup_fmap in Ht.
    destruct (layers !! i) as [l|]; [|discriminate]. injection Ht as <-.
    exists l. split; reflexivity.
  - auto.
  - intros i l e Ht. rewrite list_lookup_fmap in Ht. destruct (layers !! i); discriminate.
  - discriminate.
  - intros o p Hin. by apply elem_of_nil in Hin.
Qed.

Lemma cleanup_run_inv (sched : list nat) (s : State) : Inv s -> Inv (run h sched s).
Proof.
  revert s. induction sched as [|i sched IH]; intros s HI; simpl; [assumption|].
  apply IH. destruct (step h i s) as [s'|] eqn:Hstep; simpl; [|assumption].
  eapply cleanup_step_inv; eassumption.
Qed.

End Invariant.

(** *** Every goroutine ends *)

Lemma cleanup_step_progress (h : Host) (i : nat) (s s' : State) :
  step h i s = Some s' ->
  exists t t', tasks s !! i = Some t /\ tasks s' = <[i := t']> (tasks s)
               /\ (rank t < rank t')%nat.
Proof.
  unfold step. destruct (tasks s !! i) as [[l|l digest loc|l r]|] eqn:Ht; try discriminate.
  - intros H. exists (Pending l). unfold stat_step in H.
    repeat (match type of H with
            | context [match ?x with _ => _ end] => destruct x
            end);
      injection H as <-; simpl; eexists; (split; [reflexivity|]); (split; [reflexivity|]);
      simpl; lia.
  - intros H. exists (Removing l digest loc). unfold remove_step in H.
    destruct (os_Remove h (fs (logged OpRemove loc s)) loc) as [fs' [e|]];
      injection H as <-; simpl;
      eexists; (split; [reflexivity|]); (split; [reflexivity|]); simpl; lia.
Qed.

Lemma cleanup_step_stuck (h : Host) (i : nat) (s : State) (t : Task) :
  step h i s = None -> tasks s !! i = Some t -> (2 <= rank t)%nat.
Proof.
  unfold step. intros H Ht. rewrite Ht in H.
  destruct t as [l|l digest loc|l r]; [| |simpl; lia].
  - repeat (match type of H with
            | context [match ?x with _ => _ end] => destruct x
            end); discriminate.
  - discriminate.
Qed.

Lemma cleanup_run_with (h : Host) (sched : list nat) (s : State) :
  run h sched s = Goroutines.run_with (step h) sched s.
Proof. revert s. induction sched as [|i sched IH]; intros s; simpl; [reflexivity | apply IH]. Qed.

Lemma cleanup_run_length (h : Host) (sched : list nat) (s : State) :
  length (tasks (run h sched s)) = length (tasks s).
Proof.
  rewrite cleanup_run_with.
  apply (Goroutines.run_with_length tasks rank (step h) (cleanup_step_progress h)).
Qed.

Lemma complete_all_done (h : Host) (sched : list nat) (s : State) (j : nat) (t : Task) :
  tasks (run h (complete sched (length (tasks s))) s) !! j = Some t ->
  exists l r, t = Done l r.
Proof.
  rewrite cleanup_run_with. intros Ht.
  apply (Goroutines.all_at_end tasks rank (step h)
           (cleanup_step_progress h) (cleanup_step_stuck h)) in Ht.
  destruct t; simpl in Ht; try lia. eauto.
Qed.

(** C7: for every layer of the image whose descriptor gives a digest and a
    size, with the blob looked for at [cacheDir/<digest>]: when the blob is
    missing the goroutine returns no error and the cache is as before; when
    [os.Stat] fails otherwise, its error is returned and the operation
    fails; when the size on disk is the recorded size, no error is returned
    and the blob is kept (unless the same image records another size for
    the same blob); when the blob is a file of another size it is deleted,
    provided [os.Remove] is not refused. The error of the operation is the
    error of one of the goroutines. *)
Theorem C7_cleanup_by_size (h : Host) (sched : list nat) (img : v1Image)
    (layers : list Layer) (fs0 : FS) :
  img_Layers img = Ok layers ->
  let s := run h (complete sched (length layers)) (start layers fs0) in
  CleanupInProgressLayers h sched img fs0 = (fs s, firstErr s)
  /\ (forall e, firstErr s = Some e -> exists i l, tasks s !! i = Some (Done l (Some e)))
  /\ forall i l digest size,
       layers !! i = Some l -> layer_Digest l = Ok digest -> layer_Size l = Ok size ->
       let loc := location h digest in
       exists r, tasks s !! i = Some (Done l r)
       /\ (forall e, os_Stat h fs0 loc = Err e -> is_ErrNotExist e = true ->
             r = None /\ fs s !! loc = fs0 !! loc)
       /\ (forall e, os_Stat h fs0 loc = Err e -> is_ErrNotExist e = false ->
             r = Some e /\ is_Some (firstErr s) /\ fs s !! loc = fs0 !! loc)
       /\ (forall info, os_Stat h fs0 loc = Ok info -> info_Size info = size ->
             r = None
             /\ ((forall l' d' size', l' ∈ layers -> layer_Digest l' = Ok d' ->
                    location h d' = loc -> layer_Size l' = Ok size' -> size' = size) ->
                 fs s !! loc = fs0 !! loc))
       /\ (forall c, fs0 !! loc = Some (File c) -> fault h OpStat loc = None ->
             Z.of_nat (String.length c) <> size -> fault h OpRemove loc = None ->
             fs s !! loc = None).
Proof.
  intros Hlayers s.
  assert (HI : Inv h layers fs0 s) by apply cleanup_run_inv, cleanup_start_inv.
  split; [unfold CleanupInProgressLayers; now rewrite Hlayers|].
  split; [apply (inv_first _ _ _ _ HI)|].
  intros i l digest size Hi Hd Hsz loc.
  assert (Hlen : length (tasks (start layers fs0)) = length layers) by apply length_map.
  assert (Hlt : (i < length (tasks s))%nat).
  { unfold s. rewrite cleanup_run_length, Hlen. eapply lookup_lt_Some, Hi. }
  destruct (lookup_lt_is_Some_2 _ _ Hlt) as [t Ht].
  assert (Hdone : exists l' r, t = Done l' r).
  { eapply (complete_all_done h sched (start layers fs0) i). rewrite Hlen. exact Ht. }
  destruct Hdone as (l' & r & ->).
  destruct (inv_task _ _ _ _ HI i _ Ht) as (l0 & Hl0 & Hok). simpl in Hok.
  rewrite Hi in Hl0. injection Hl0 as <-. destruct Hok as [-> Hout].
  exists r. split; [exact Ht|].
  unfold outcome in Hout. rewrite Hd, Hsz in Hout. fold loc in Hout.
  assert (Hkept : (forall l', l' ∈ layers -> ~ mismatched h fs0 l' loc) -> fs s !! loc = fs0 !! loc).
  { intros Hno. destruct (inv_fs _ _ _ _ HI loc) as [Heq|(_ & l' & Hin & Hmis)]; [assumption|].
    exfalso. eapply Hno; eassumption. }
  split; [|split; [|split]].
  - intros e He Hne. rewrite He, Hne in Hout. split; [assumption|].
    apply Hkept. intros l' _ (d' & sz' & info & _ & _ & _ & Hst & _). congruence.
  - intros e He Hne. rewrite He, Hne in Hout. split; [assumption|]. split.
    + subst r. eapply (inv_err _ _ _ _ HI). exact Ht.
    + apply Hkept. intros l' _ (d' & sz' & info & _ & _ & _ & Hst & _). congruence.
  - intros info Hst Heq. rewrite Hst in Hout.
    rewrite (proj2 (Z.eqb_eq _ _) Heq) in Hout. split; [assumption|].
    intros Hsame. apply Hkept.
    intros l' Hin (d' & sz' & info' & Hd' & Hloc & Hsz' & Hst' & Hneq).
    rewrite Hst in Hst'. injection Hst' as <-.
    apply Hneq. rewrite Heq. symmetry. eapply Hsame; eauto.
  - intros c Hc Hnf Hneq Hrm.
    assert (Hst : os_Stat h fs0 loc = Ok (mkFileInfo false (Z.of_nat (String.length c)))).
    { unfold os_Stat, stat_with. now rewrite Hnf, Hc. }
    rewrite Hst in Hout. simpl in Hout.
    rewrite (proj2 (Z.eqb_neq _ _) Hneq) in Hout.
    destruct Hout as [H|[H|H]]; [assumption | | congruence].
    rewrite Hrm in H. by inversion H.
Qed.

(** A cache with a blob of the right size (["aa"]), a truncated blob
    (["bb"]), no blob for ["cc"], and a blob whose [os.Stat] is refused
    (["dd"]). *)
Definition host_w : Host :=
  {| fault := fun o p =>
       match o with
       | OpStat => if decide (p = ["zarf-cache"; "images"; "sha256:dd"])
                   then Some (Errorf "stat zarf-cache/images/sha256:dd: permission denied")
                   else None
       | _ => None
       end;
     dir_size := fun _ => 4096;
     cwd := ["work"];
     GetAbsCachePath := ["zarf-cache"];
     ImagesDir := "images";
     sha256_hex := fun c => c |}.

Definition layer_w (hex : string) (size : Z) : Layer :=
  mkLayer (Ok (mkHash "sha256" hex)) (Ok size).

Definition layers_w : list Layer :=
  [layer_w "aa" 3; layer_w "bb" 5; layer_w "cc" 4; layer_w "dd" 2].

Definition img_w : v1Image :=
  {| img_Manifest := Ok (mkManifest 10); img_Layers := Ok layers_w; img_cache := None |}.

Definition fs_w : FS :=
  list_to_map [(["zarf-cache"], Dir); (["zarf-cache"; "images"], Dir);
               (["zarf-cache"; "images"; "sha256:aa"], File "abc");
               (["zarf-cache"; "images"; "sha256:bb"], File "ab");
               (["zarf-cache"; "images"; "sha256:dd"], File "xy")].

Lemma C7_cleanup_by_size_witness :
  let out := CleanupInProgressLayers host_w [3; 1; 0; 1; 2]%nat img_w fs_w in
  out.1 !! ["zarf-cache"; "images"; "sha256:aa"] = Some (File "abc")
  /\ out.1 !! ["zarf-cache"; "images"; "sha256:bb"] = None
  /\ out.1 !! ["zarf-cache"; "images"; "sha256:cc"] = None
  /\ out.1 !! ["zarf-cache"; "images"; "sha256:dd"] = Some (File "xy")
  /\ out.2 = Some (Errorf "stat zarf-cache/images/sha256:dd: permission denied").
Proof.
  intros out.
  destruct (C7_cleanup_by_size host_w [3; 1; 0; 1; 2]%nat img_w layers_w fs_w eq_refl)
    as (Hout & Hfirst & Hlayer).
  destruct (Hlayer 1%nat (layer_w "bb" 5) (mkHash "sha256" "bb") 5 eq_refl eq_refl eq_refl)
    as (r & _ & _ & _ & _ & Hdel).
  assert (Hbb : out.1 !! ["zarf-cache"; "images"; "sha256:bb"] = None).
  { unfold out. rewrite Hout. cbn [fst].
    apply (Hdel "ab"); [vm_cast_no_check (eq_refl (Some (File "ab"))) | reflexivity
                       | discriminate | reflexivity]. }
  split; [vm_cast_no_check (eq_refl (Some (File "abc")))|].
  split; [exact Hbb|].
  split; [vm_cast_no_check (eq_refl (@None node))|].
  split; [vm_cast_no_check (eq_refl (Some (File "xy")))|].
  vm_cast_no_check (eq_refl (Some (Errorf "stat zarf-cache/images/sha256:dd: permission denied"))).
Defined.

(** *** The cache directory of the cleanup *)

(** Two configurations of [Pull] that differ at most in [CacheDirectory]. *)
Definition differ_only_in_CacheDirectory (cfg1 cfg2 : PullConfig) : Prop :=
  DestinationDirectory cfg1 = DestinationDirectory cfg2
  /\ RegistryOverrides cfg1 = RegistryOverrides cfg2
  /\ ImageList cfg1 = ImageList cfg2
  /\ Arch cfg1 = Arch cfg2.

(** [cache.NewFilesystemCache(dir)] keeps the blob of a layer at
    [filepath.Join(dir, digest.String())]. *)
Definition cachepath (dir : path) (digest : Hash) : path := dir ++ [Hash_String digest].

Lemma cleanup_frame (h : Host) (sched : list nat) (img : v1Image) (fs0 : FS) (p : path) :
  (forall name, p <> (cacheDir h ++ [name])%list) ->
  (CleanupInProgressLayers h sched img fs0).1 !! p = fs0 !! p.
Proof.
  intros Hp. unfold CleanupInProgressLayers.
  destruct (img_Layers img) as [layers|e]; [|reflexivity]. simpl.
  assert (HI : Inv h layers fs0 (run h (complete sched (length layers)) (start layers fs0)))
    by apply cleanup_run_inv, cleanup_start_inv.
  destruct (inv_fs _ _ _ _ HI p) as [Heq|(_ & l & _ & Hmis)]; [assumption|].
  destruct Hmis as (digest & size & info & _ & -> & _). exfalso. eapply Hp. reflexivity.
Qed.

Lemma cleanup_calls_in_cacheDir (h : Host) (sched : list nat) (img : v1Image) (fs0 : FS)
    (o : Op) (p : path) :
  (o, p) ∈ cleanup_calls h sched img fs0 -> exists name, p = (cacheDir h ++ [name])%list.
Proof.
  unfold cleanup_calls. destruct (img_Layers img) as [layers|e].
  - intros Hin.
    assert (HI : Inv h layers fs0 (run h (complete sched (length layers)) (start layers fs0)))
      by apply cleanup_run_inv, cleanup_start_inv.
    destruct (inv_log _ _ _ _ HI o p Hin) as (l & digest & _ & _ & ->). eauto.
  - intros Hin. by apply elem_of_nil in Hin.
Qed.

(** C10: an image resolved under two configurations that differ only in
    [CacheDirectory] is cleaned up in the same way: same result, same calls
    to the file system, all of them on entries of
    [GetAbsCachePath()/ImagesDir]. When that directory is not the
    [CacheDirectory] given to [Pull], no blob of the layer cache is looked
    at or removed. *)
Theorem C10_cleanup_uses_global_cache (env : Remote) (h : Host) (sched : list nat)
    (order : list (string * string)) (refInfo : Image) (cfg1 cfg2 : PullConfig)
    (tr : list Event) (img1 : v1Image) (fs0 : FS) :
  differ_only_in_CacheDirectory cfg1 cfg2 ->
  Resolver.resolveImage env cfg1 order refInfo [] = (tr, Ok img1) ->
  exists img2,
    Resolver.resolveImage env cfg2 order refInfo [] = (tr, Ok img2)
    /\ img_cache img1 = Some (CacheDirectory cfg1)
    /\ img_cache img2 = Some (CacheDirectory cfg2)
    /\ CleanupInProgressLayers h sched img1 fs0 = CleanupInProgressLayers h sched img2 fs0
    /\ cleanup_calls h sched img1 fs0 = cleanup_calls h sched img2 fs0
    /\ (forall o p, (o, p) ∈ cleanup_calls h sched img1 fs0 ->
          exists name, p = (GetAbsCachePath h ++ [ImagesDir h] ++ [name])%list)
    /\ ((GetAbsCachePath h ++ [ImagesDir h])%list <> CacheDirectory cfg1 ->
        forall digest : Hash,
          (forall o, (o, cachepath (CacheDirectory cfg1) digest)
                     ∉ cleanup_calls h sched img1 fs0)
          /\ (CleanupInProgressLayers h sched img1 fs0).1 !! cachepath (CacheDirectory cfg1) digest
             = fs0 !! cachepath (CacheDirectory cfg1) digest).
Proof.
  intros _ Hres. unfold Resolver.resolveImage, Resolver.bind in *.
  destruct (Resolver.sourceImage env refInfo _ []) as [tr1 [src|e]]; [|discriminate].
  destruct (Resolver.rejectIndex env refInfo src.2 tr1) as [tr2 [[]|e]]; [|discriminate].
  unfold Resolver.ret in *. injection Hres as <- <-.
  exists (cache_Image src.1 (CacheDirectory cfg2)).
  split; [reflexivity|]. split; [reflexivity|]. split; [reflexivity|].
  split; [reflexivity|]. split; [reflexivity|]. split.
  - intros o p Hin. destruct (cleanup_calls_in_cacheDir _ _ _ _ _ _ Hin) as [name ->].
    exists name. unfold cacheDir. now rewrite <- app_assoc.
  - intros Hne digest.
    assert (Hout : forall name, cachepath (CacheDirectory cfg1) digest <> (cacheDir h ++ [name])%list).
    { intros name Heq. unfold cachepath in Heq. apply app_inj_tail in Heq as [Heq _].
      apply Hne. now rewrite Heq. }
    split.
    + intros o Hin. destruct (cleanup_calls_in_cacheDir _ _ _ _ _ _ Hin) as [name Hname].
      eapply Hout; eassumption.
    + now apply cleanup_frame.
Qed.

Lemma C10_cleanup_uses_global_cache_witness :
  let cfg1 := ResolverSpec.cfg_one ResolverSpec.pinned in
  let cfg2 := {| DestinationDirectory := DestinationDirectory cfg1;
                 CacheDirectory := ["elsewhere"];
                 RegistryOverrides := RegistryOverrides cfg1;
                 ImageList := ImageList cfg1;
                 Arch := Arch cfg1 |} in
  let env := {| crane_Load := fun _ => Ok img_w;
                name_ParseReference := fun r => Ok r;
                crane_Get := fun _ => Err (Errorf "unreachable");
                crane_Pull := fun _ => Err (Errorf "unreachable");
                client_NewClientWithOpts := None;
                cli_ImageInspectWithRaw := fun _ => Ok 5;
                daemon_Image := fun _ => Err (Errorf "no daemon");
                json_Unmarshal := fun _ => Ok [];
                utils_ByteFormat := fun _ => "5 Byte" |} in
  let refInfo := mkImage "app.tar" "app" "" "" in
  exists img2,
    Resolver.resolveImage env cfg2 [] refInfo [] = ([Call_crane_Load "app.tar"], Ok img2)
    /\ CleanupInProgressLayers host_w [] (cache_Image img_w ["cache"; "images"]) fs_w
       = CleanupInProgressLayers host_w [] img2 fs_w.
Proof.
  intros cfg1 cfg2 env refInfo.
  destruct (C10_cleanup_uses_global_cache env host_w [] [] refInfo cfg1 cfg2
              [Call_crane_Load "app.tar"] (cache_Image img_w ["cache"; "images"]) fs_w)
    as (img2 & Hres & _ & _ & Heq & _).
  - repeat split; reflexivity.
  - reflexivity.
  - exists img2. split; assumption.
Defined.

End CleanupSpec.

(** ** The save strategies *)
Module Save.
Import OS.

(** [v1.Descriptor], as the layout writer receives it. *)
Record LayoutDescriptor : Type := mkLayoutDescriptor {
  ld_Digest : Hash;
  ld_Annotations : gmap string string
}.

(** The methods of [clayout.Path] and [partial.Descriptor]: they act on the
    file system and may fail. *)
Record LayoutWriter : Type := mkLayoutWriter {
  AppendImage : FS -> v1Image -> gmap string string -> FS * option error;
  WriteImage : FS -> v1Image -> FS * option error;
  AppendDescriptor : FS -> LayoutDescriptor -> FS * option error;
  partial_Descriptor : v1Image -> result LayoutDescriptor
}.

(** [ocispec.AnnotationBaseImageName] *)
Definition AnnotationBaseImageName : string := "org.opencontainers.image.base.name".

Definition annotations_of (info : Image) : gmap string string :=
  {[ AnnotationBaseImageName := Reference info ]}.

Inductive Strategy : Type := Concurrent | Sequential.

(** What a save does that the outside can observe. *)
Inductive SaveEvent : Type :=
  | Ev_Start (strategy : Strategy) (workset : gmap Image v1Image)
  | Ev_AppendImage (info : Image) (img : v1Image) (annotations : gmap string string)
                   (err : option error)
  | Ev_WriteImage (info : Image) (img : v1Image) (err : option error)
  | Ev_AppendDescriptor (info : Image) (desc : LayoutDescriptor) (err : option error)
  | Ev_Cleanup (img : v1Image) (err : option error)
  | Ev_WarnErr (err : error) (msg : string)
  | Ev_Warnf (msg : string).

Record World : Type := mkWorld {
  wfs : FS;
  events : list SaveEvent
}.

(** What the Go runtime decides: the order in which [range] visits a map,
    and the order in which goroutines take their steps. The decisions may
    differ from one call to the next: they are indexed by the number of
    events so far. *)
Record Runtime : Type := mkRuntime {
  range_order : nat -> gmap Image v1Image -> list (Image * v1Image);
  range_order_perm : forall n m, range_order n m ≡ₚ map_to_list m;
  save_sched : nat -> list nat;
  cleanup_sched : nat -> list nat
}.

Definition emit (ev : SaveEvent) (fs' : FS) (w : World) : World :=
  {| wfs := fs'; events := events w ++ [ev] |}.

Definition clear_cache_hint : string :=
  "failed to clean up in-progress layers, please run `zarf tools clear-cache`".

(** [if err := CleanupInProgressLayers(ctx, img); err != nil { message.WarnErr(...) }] *)
Definition cleanup_on_failure (rt : Runtime) (h : Host) (img : v1Image) (w : World) : World :=
  match Cleanup.CleanupInProgressLayers h (cleanup_sched rt (length (events w))) img (wfs w) with
  | (fs', Some e) =>
      emit (Ev_WarnErr e clear_cache_hint) fs' (emit (Ev_Cleanup img (Some e)) fs' w)
  | (fs', None) => emit (Ev_Cleanup img None) fs' w
  end.

(** *** [SaveSequential] *)

(** The loop over the map, in the order [range] visits it. *)
Fixpoint seq_loop (rt : Runtime) (h : Host) (cl : LayoutWriter)
    (order : list (Image * v1Image)) (saved : gmap Image v1Image) (w : World)
  : World * gmap Image v1Image * option error :=
  match order with
  | [] => (w, saved, None)
  | (info, img) :: rest =>
      match AppendImage cl (wfs w) img (annotations_of info) with
      | (fs', Some err) =>
          (cleanup_on_failure rt h img
             (emit (Ev_AppendImage info img (annotations_of info) (Some err)) fs' w),
           saved, Some err)
      | (fs', None) =>
          seq_loop rt h cl rest (<[info := img]> saved)
            (emit (Ev_AppendImage info img (annotations_of info) None) fs' w)
      end
  end.

Definition SaveSequential (rt : Runtime) (h : Host) (cl : LayoutWriter)
    (m : gmap Image v1Image) (w : World) : World * gmap Image v1Image * option error :=
  let w0 := emit (Ev_Start Sequential m) (wfs w) w in
  seq_loop rt h cl (range_order rt (length (events w)) m) ∅ w0.

(** *** [SaveConcurrent] *)

(** Where the goroutine of one image stands. *)
Inductive Task : Type :=
  | Pending (info : Image) (img : v1Image)
  | Written (info : Image) (img : v1Image) (desc : LayoutDescriptor)
  | Done (info : Image) (img : v1Image) (err : option error).

Record State : Type := mkState {
  world : World;
  tasks : list Task;
  saved : gmap Image v1Image;
  firstErr : option error
}.

Definition finish (i : nat) (info : Image) (img : v1Image) (err : option error)
    (w : World) (saved' : gmap Image v1Image) (s : State) : State :=
  {| world := w;
     tasks := <[i := Done info img err]> (tasks s);
     saved := saved';
     firstErr := match firstErr s with
                 | Some e => Some e
                 | None => err
                 end |}.

(** One step of the goroutine of the [i]th image: up to the return of
    [cl.WriteImage] (and the cleanup when it failed), or the section under
    the mutex [mu], from [cl.AppendDescriptor] to the return. *)
Definition step (rt : Runtime) (h : Host) (cl : LayoutWriter) (i : nat) (s : State)
  : option State :=
  match tasks s !! i with
  | Some (Pending info img) =>
      match partial_Descriptor cl img with
      | Err e => Some (finish i info img (Some e) (world s) (saved s) s)
      | Ok desc =>
          match WriteImage cl (wfs (world s)) img with
          | (fs', Some err) =>
              Some (finish i info img (Some err)
                      (cleanup_on_failure rt h img
                         (emit (Ev_WriteImage info img (Some err)) fs' (world s)))
                      (saved s) s)
          | (fs', None) =>
              Some {| world := emit (Ev_WriteImage info img None) fs' (world s);
                      tasks := <[i := Written info img desc]> (tasks s);
                      saved := saved s;
                      firstErr := firstErr s |}
          end
      end
  | Some (Written info img desc) =>
      let desc' := {| ld_Digest := ld_Digest desc; ld_Annotations := annotations_of info |} in
      match AppendDescriptor cl (wfs (world s)) desc' with
      | (fs', Some err) =>
          Some (finish i info img (Some err)
                  (emit (Ev_AppendDescriptor info desc' (Some err)) fs' (world s))
                  (saved s) s)
      | (fs', None) =>
          Some (finish i info img None
                  (emit (Ev_AppendDescriptor info desc' None) fs' (world s))
                  (<[info := img]> (saved s)) s)
      end
  | Some (Done _ _ _) => None
  | None => None
  end.

Fixpoint run (rt : Runtime) (h : Host) (cl : LayoutWriter) (sched : list nat) (s : State)
  : State :=
  match sched with
  | [] => s
  | i :: sched' => run rt h cl sched' (default s (step rt h cl i s))
  end.

Definition start (order : list (Image * v1Image)) (w : World) : State :=
  {| world := w;
     tasks := map (fun kv => Pending kv.1 kv.2) order;
     saved := ∅;
     firstErr := None |}.

(** [return saved, eg.Wait()]: every goroutine has returned; a goroutine
    ends after at most two steps (see [Cleanup.complete]). *)
Definition SaveConcurrent (rt : Runtime) (h : Host) (cl : LayoutWriter)
    (m : gmap Image v1Image) (w : World) : World * gmap Image v1Image * option error :=
  let w0 := emit (Ev_Start Concurrent m) (wfs w) w in
  let order := range_order rt (length (events w)) m in
  let s := run rt h cl (Cleanup.complete (save_sched rt (length (events w))) (length order))
               (start order w0) in
  (world s, saved s, firstErr s).

(** *** The retry policy of [Pull] *)

(** Modelled from the spec: [helpers.Retry] (package
    github.com/defenseunicorns/pkg/helpers, not under src/): the function is
    attempted up to [retries] times, at least once, until it returns no
    error, with a warning and a delay between two attempts; the error of
    the last attempt is returned. The delay is not modelled. *)
Fixpoint retry_loop {S : Type} (fn : S -> S * option error) (logger : error -> S -> S)
    (more : nat) (s : S) : S * option error :=
  match fn s with
  | (s', None) => (s', None)
  | (s', Some err) =>
      match more with
      | O => (s', Some err)
      | S more' => retry_loop fn logger more' (logger err s')
      end
  end.

Definition Retry {S : Type} (fn : S -> S * option error) (retries : nat)
    (logger : error -> S -> S) (s : S) : S * option error :=
  retry_loop fn logger (retries - 1) s.

(** The variables the closures [sc] and [ss] of [Pull] share. *)
Record Saving : Type := mkSaving {
  toPull : gmap Image v1Image;
  sworld : World
}.

(** [for k := range saved { delete(toPull, k) }] *)
Definition delete_saved (saved toPull : gmap Image v1Image) : gmap Image v1Image :=
  toPull ∖ saved.

Definition sc (rt : Runtime) (h : Host) (cl : LayoutWriter) (st : Saving)
  : Saving * option error :=
  match SaveConcurrent rt h cl (toPull st) (sworld st) with
  | (w, saved, err) => ({| toPull := delete_saved saved (toPull st); sworld := w |}, err)
  end.

Definition ss (rt : Runtime) (h : Host) (cl : LayoutWriter) (st : Saving)
  : Saving * option error :=
  match SaveSequential rt h cl (toPull st) (sworld st) with
  | (w, saved, err) => ({| toPull := delete_saved saved (toPull st); sworld := w |}, err)
  end.

Definition warnf (msg : string) (st : Saving) : Saving :=
  {| toPull := toPull st;
     sworld := emit (Ev_Warnf msg) (wfs (sworld st)) (sworld st) |}.

Definition retry_warning (err : error) : Saving -> Saving :=
  warnf ("Retrying in 5s: " ++ Error err).

(** Lines 219 to 243 of [Pull]. *)
Definition save_images (rt : Runtime) (h : Host) (cl : LayoutWriter)
    (fetched : gmap Image v1Image) (w : World) : Saving * option error :=
  let st := {| toPull := fetched; sworld := w |} in
  match Retry (sc rt h cl) 2 retry_warning st with
  | (st1, None) => (st1, None)
  | (st1, Some err) =>
      Retry (ss rt h cl) 2 retry_warning
        (warnf ("Failed to save images in parallel, falling back to sequential save: "
                ++ Error err) st1)
  end.

(** The references persisted so far: those whose append to the index of
    the layout succeeded. *)
Definition persisted_key (ev : SaveEvent) : option Image :=
  match ev with
  | Ev_AppendImage info _ _ None => Some info
  | Ev_AppendDescriptor info _ None => Some info
  | _ => None
  end.

Definition persisted (evs : list SaveEvent) : list Image := omap persisted_key evs.

Definition is_start (strategy : Strategy) (ev : SaveEvent) : bool :=
  match ev, strategy with
  | Ev_Start Concurrent _, Concurrent => true
  | Ev_Start Sequential _, Sequential => true
  | _, _ => false
  end.

(** The number of attempts of a strategy. *)
Definition attempts (strategy : Strategy) (evs : list SaveEvent) : nat :=
  length (filter (fun ev => is_start strategy ev = true) evs).

End Save.

(** ** Properties of the save strategies *)
Module SaveSpec.
Import OS Save.
#[local] Open Scope list_scope.

Lemma persisted_app (a b : list SaveEvent) : persisted (a ++ b) = persisted a ++ persisted b.
Proof. unfold persisted. apply omap_app. Qed.

Lemma events_emit (ev : SaveEvent) (fs' : FS) (w : World) :
  events (emit ev fs' w) = events w ++ [ev].
Proof. reflexivity. Qed.

Lemma events_cleanup (rt : Runtime) (h : Host) (img : v1Image) (w : World) :
  exists cerr,
    events (cleanup_on_failure rt h img w)
    = events w ++ Ev_Cleanup img cerr
                  :: match cerr with
                     | Some e => [Ev_WarnErr e clear_cache_hint]
                     | None => []
                     end.
Proof.
  unfold cleanup_on_failure.
  destruct (Cleanup.CleanupInProgressLayers _ _ _ _) as [fs' [e|]].
  - exists (Some e). simpl. now rewrite <- app_assoc.
  - exists None. reflexivity.
Qed.

Lemma persisted_cleanup (rt : Runtime) (h : Host) (img : v1Image) (w : World) :
  persisted (events (cleanup_on_failure rt h img w)) = persisted (events w).
Proof.
  destruct (events_cleanup rt h img w) as [cerr ->]. rewrite persisted_app.
  destruct cerr; simpl; apply app_nil_r.
Qed.

Definition is_Start (ev : SaveEvent) : bool :=
  match ev with
  | Ev_Start _ _ => true
  | _ => false
  end.

(** Events of one attempt after its start: none of them starts an attempt. *)
Definition no_start (evs : list SaveEvent) : Prop := Forall (fun ev => is_Start ev = false) evs.

Lemma no_start_app (a b : list SaveEvent) : no_start a -> no_start b -> no_start (a ++ b).
Proof. intros Ha Hb. apply Forall_app. auto. Qed.

Lemma cleanup_events (rt : Runtime) (h : Host) (img : v1Image) (w : World) :
  exists evs, events (cleanup_on_failure rt h img w) = events w ++ evs
              /\ no_start evs /\ persisted evs = [].
Proof.
  destruct (events_cleanup rt h img w) as [cerr ->]. eexists. split; [reflexivity|].
  destruct cerr; split; repeat constructor.
Qed.

(** The event of a successful [AppendImage] of one entry of the map. *)
Definition appended_ok (kv : Image * v1Image) : SaveEvent :=
  Ev_AppendImage kv.1 kv.2 (annotations_of kv.1) None.

Definition insert_all (l : list (Image * v1Image)) (acc : gmap Image v1Image)
  : gmap Image v1Image :=
  fold_left (fun acc kv => <[kv.1 := kv.2]> acc) l acc.

Lemma insert_all_lookup (l : list (Image * v1Image)) (acc : gmap Image v1Image)
    (k : Image) (v : v1Image) :
  NoDup l.*1 ->
  (forall kv, kv ∈ l -> acc !! kv.1 = None) ->
  insert_all l acc !! k = Some v <-> (k, v) ∈ l \/ acc !! k = Some v.
Proof.
  revert acc. induction l as [|[k0 v0] l IH]; intros acc Hnd Hfresh; simpl.
  - split; [auto|]. intros [H|H]; [by apply elem_of_nil in H | assumption].
  - apply NoDup_cons in Hnd as [Hk0 Hnd]. simpl in Hk0.
    rewrite IH; [|assumption|].
    + rewrite lookup_insert. destruct (decide (k0 = k)) as [->|Hne].
      * split.
        -- intros [H|[= ->]]; [left; now right | left; now left].
        -- intros [[[= ->]|H]%elem_of_cons|H]; [now right | now left |].
           pose proof (Hfresh (k, v0) ltac:(now left)) as Hf. simpl in Hf. congruence.
      * split.
        -- intros [H|H]; [left; now right | now right].
        -- intros [[[= -> ->]|H]%elem_of_cons|H]; [congruence | now left | now right].
    + intros [k1 v1] Hin. simpl. rewrite lookup_insert_ne.
      * apply (Hfresh (k1, v1)). now right.
      * intros ->. apply Hk0. apply list_elem_of_fmap. exists (k1, v1). auto.
Qed.

Lemma insert_all_empty (l : list (Image * v1Image)) :
  NoDup l.*1 -> insert_all l ∅ = list_to_map l.
Proof.
  intros Hnd. apply map_eq. intros k. apply option_eq. intros v.
  rewrite insert_all_lookup; [|assumption|intros; apply lookup_empty].
  rewrite lookup_empty. rewrite <- elem_of_list_to_map by assumption.
  split; [intros [H|H]; [assumption | discriminate] | auto].
Qed.

(** What the loop of [SaveSequential] does, whatever the order. *)
Lemma seq_loop_spec (rt : Runtime) (h : Host) (cl : LayoutWriter)
    (order : list (Image * v1Image)) (acc : gmap Image v1Image) (w : World) :
  exists pre rest,
    order = pre ++ rest
    /\ (seq_loop rt h cl order acc w).1.2 = insert_all pre acc
    /\ match (seq_loop rt h cl order acc w).2 with
       | None =>
           rest = []
           /\ events (seq_loop rt h cl order acc w).1.1 = events w ++ map appended_ok pre
       | Some e =>
           exists info img rest' cerr,
             rest = (info, img) :: rest'
             /\ events (seq_loop rt h cl order acc w).1.1
                = events w ++ map appended_ok pre
                  ++ [Ev_AppendImage info img (annotations_of info) (Some e);
                      Ev_Cleanup img cerr]
                  ++ match cerr with
                     | Some ce => [Ev_WarnErr ce clear_cache_hint]
                     | None => []
                     end
       end.
Proof.
  revert acc w. induction order as [|[info img] order IH]; intros acc w; simpl.
  - exists [], []. simpl. rewrite app_nil_r. auto.
  - destruct (AppendImage cl (wfs w) img (annotations_of info)) as [fs' [err|]] eqn:Happ.
    + exists [], ((info, img) :: order). simpl. split; [reflexivity|]. split; [reflexivity|].
      destruct (events_cleanup rt h img
                  (emit (Ev_AppendImage info img (annotations_of info) (Some err)) fs' w))
        as [cerr Hev].
      exists info, img, order, cerr. split; [reflexivity|].
      rewrite Hev, events_emit. now rewrite <- app_assoc.
    + destruct (IH (<[info := img]> acc)
                   (emit (Ev_AppendImage info img (annotations_of info) None) fs' w))
        as (pre & rest & -> & Hsaved & Hev).
      exists ((info, img) :: pre), rest. split; [reflexivity|]. split; [exact Hsaved|].
      destruct ((seq_loop rt h cl (pre ++ rest) (<[info:=img]> acc) _).2) as [e|].
      * destruct Hev as (info' & img' & rest' & cerr & -> & Hev).
        exists info', img', rest', cerr. split; [reflexivity|].
        rewrite Hev, events_emit. simpl. now rewrite <- app_assoc.
      * destruct Hev as (-> & Hev). split; [reflexivity|].
        rewrite Hev, events_emit. simpl. now rewrite <- app_assoc.
Qed.

Lemma range_order_NoDup (rt : Runtime) (n : nat) (m : gmap Image v1Image) :
  NoDup (range_order rt n m).*1.
Proof.
  rewrite (range_order_perm rt n m). apply NoDup_fst_map_to_list.
Qed.

Lemma range_order_to_map (rt : Runtime) (n : nat) (m : gmap Image v1Image) :
  list_to_map (range_order rt n m) = m.
Proof.
  rewrite <- (list_to_map_to_list m) at 2.
  apply list_to_map_proper; [apply range_order_NoDup | apply range_order_perm].
Qed.

Lemma range_order_elem (rt : Runtime) (n : nat) (m : gmap Image v1Image) (k : Image) (v : v1Image) :
  (k, v) ∈ range_order rt n m <-> m !! k = Some v.
Proof. rewrite (range_order_perm rt n m). apply elem_of_map_to_list. Qed.

(** The file system after the entries of [l] have been appended in order,
    each with the annotation [org.opencontainers.image.base.name] set to the
    [Reference] of its key; [None] when one of the appends fails. *)
Fixpoint appended_all (cl : LayoutWriter) (l : list (Image * v1Image)) (fs : FS) : option FS :=
  match l with
  | [] => Some fs
  | (info, img) :: l' =>
      match AppendImage cl fs img {[ "org.opencontainers.image.base.name" := Reference info ]} with
      | (fs', None) => appended_all cl l' fs'
      | (_, Some _) => None
      end
  end.

(** The loop of [SaveSequential], call by call: the entries before the first
    failing append are appended, each to the file system the one before it
    left; the failing append is followed by the cleanup of its image and by
    nothing else. *)
Lemma seq_loop_calls (rt : Runtime) (h : Host) (cl : LayoutWriter)
    (order : list (Image * v1Image)) (acc : gmap Image v1Image) (w : World) :
  exists pre rest fs1,
    order = pre ++ rest
    /\ appended_all cl pre (wfs w) = Some fs1
    /\ (seq_loop rt h cl order acc w).1.2 = insert_all pre acc
    /\ match (seq_loop rt h cl order acc w).2 with
       | None =>
           rest = []
           /\ wfs (seq_loop rt h cl order acc w).1.1 = fs1
           /\ events (seq_loop rt h cl order acc w).1.1 = events w ++ map appended_ok pre
       | Some e =>
           exists info img rest' fs2 sched,
             rest = (info, img) :: rest'
             /\ AppendImage cl fs1 img (annotations_of info) = (fs2, Some e)
             /\ wfs (seq_loop rt h cl order acc w).1.1
                = (Cleanup.CleanupInProgressLayers h sched img fs2).1
             /\ events (seq_loop rt h cl order acc w).1.1
                = events w ++ map appended_ok pre
                  ++ [Ev_AppendImage info img (annotations_of info) (Some e);
                      Ev_Cleanup img (Cleanup.CleanupInProgressLayers h sched img fs2).2]
                  ++ match (Cleanup.CleanupInProgressLayers h sched img fs2).2 with
                     | Some ce => [Ev_WarnErr ce clear_cache_hint]
                     | None => []
                     end
       end.
Proof.
  revert acc w. induction order as [|[info img] order IH]; intros acc w; simpl.
  - exists [], [], (wfs w). simpl. rewrite app_nil_r. repeat split; reflexivity.
  - destruct (AppendImage cl (wfs w) img (annotations_of info)) as [fs' [err|]] eqn:Happ.
    + exists [], ((info, img) :: order), (wfs w). simpl.
      split; [reflexivity|]. split; [reflexivity|]. split; [reflexivity|].
      exists info, img, order, fs',
        (cleanup_sched rt
           (length (events (emit (Ev_AppendImage info img (annotations_of info) (Some err))
                              fs' w)))).
      split; [reflexivity|]. split; [exact Happ|].
      unfold cleanup_on_failure. cbn [wfs emit].
      destruct (Cleanup.CleanupInProgressLayers h _ img fs') as [fs'' [ce|]];
        cbn [fst snd wfs events emit]; (split; [reflexivity|]);
        repeat first [rewrite <- app_assoc | progress cbn [app]]; reflexivity.
    + destruct (IH (<[info := img]> acc)
                   (emit (Ev_AppendImage info img (annotations_of info) None) fs' w))
        as (pre & rest & fs1 & -> & Hfs & Hsaved & Hev).
      exists ((info, img) :: pre), rest, fs1. split; [reflexivity|].
      split.
      { cbn [appended_all]. change ({[ "org.opencontainers.image.base.name" := Reference info ]})
          with (annotations_of info). rewrite Happ. exact Hfs. }
      split; [exact Hsaved|].
      destruct ((seq_loop rt h cl (pre ++ rest) (<[info:=img]> acc) _).2) as [e|].
      * destruct Hev as (info' & img' & rest' & fs2 & sched & -> & Hfail & Hw & Hev).
        exists info', img', rest', fs2, sched. split; [reflexivity|]. split; [exact Hfail|].
        split; [exact Hw|]. rewrite Hev, events_emit. cbn [map]. now rewrite <- app_assoc.
      * destruct Hev as (-> & Hw & Hev). split; [reflexivity|]. split; [exact Hw|].
        rewrite Hev, events_emit. cbn [map]. now rewrite <- app_assoc.
Qed.

(** C8: [SaveSequential] appends the images one at a time, in the order
    [range] visits the map, each by a call of [cl.AppendImage] with the
    annotation [org.opencontainers.image.base.name] set to the [Reference]
    of its key, on the file system the call before it left. It stops at
    the first failing append: it then runs the cleanup for that image
    (whose failure is only a warning), calls nothing more, and returns the
    images appended so far with the error of the append. When no append
    fails it returns the whole input map and no error. *)
Theorem C8_SaveSequential (rt : Runtime) (h : Host) (cl : LayoutWriter)
    (m : gmap Image v1Image) (w : World) :
  let out := SaveSequential rt h cl m w in
  exists pre rest fs1,
    range_order rt (length (events w)) m = pre ++ rest
    /\ appended_all cl pre (wfs w) = Some fs1
    /\ out.1.2 = list_to_map pre
    /\ match out.2 with
       | None =>
           rest = [] /\ out.1.2 = m
           /\ wfs out.1.1 = fs1
           /\ events out.1.1
              = events w ++ [Ev_Start Sequential m] ++ map appended_ok pre
       | Some e =>
           exists info img rest' fs2 sched,
             rest = (info, img) :: rest'
             /\ AppendImage cl fs1 img
                  {[ "org.opencontainers.image.base.name" := Reference info ]} = (fs2, Some e)
             /\ wfs out.1.1 = (Cleanup.CleanupInProgressLayers h sched img fs2).1
             /\ events out.1.1
                = events w ++ [Ev_Start Sequential m] ++ map appended_ok pre
                  ++ [Ev_AppendImage info img
                        {[ "org.opencontainers.image.base.name" := Reference info ]} (Some e);
                      Ev_Cleanup img (Cleanup.CleanupInProgressLayers h sched img fs2).2]
                  ++ match (Cleanup.CleanupInProgressLayers h sched img fs2).2 with
                     | Some ce => [Ev_WarnErr ce clear_cache_hint]
                     | None => []
                     end
       end.
Proof.
  intros out. unfold out, SaveSequential.
  set (order := range_order rt (length (events w)) m).
  set (w0 := emit (Ev_Start Sequential m) (wfs w) w).
  destruct (seq_loop_calls rt h cl order ∅ w0) as (pre & rest & fs1 & Horder & Hfs & Hsaved & Hev).
  assert (Hnd : NoDup pre.*1).
  { pose proof (range_order_NoDup rt (length (events w)) m) as Hnd. fold order in Hnd.
    rewrite Horder, fmap_app in Hnd. now apply NoDup_app in Hnd as [Hnd _]. }
  exists pre, rest, fs1. split; [assumption|]. split; [exact Hfs|].
  rewrite Hsaved, insert_all_empty by assumption. split; [reflexivity|].
  destruct ((seq_loop rt h cl order ∅ w0).2) as [e|].
  - destruct Hev as (info & img & rest' & fs2 & sched & -> & Hfail & Hw & Hev).
    exists info, img, rest', fs2, sched. split; [reflexivity|]. split; [exact Hfail|].
    split; [exact Hw|].
    rewrite Hev. unfold w0. rewrite events_emit. now rewrite <- !app_assoc.
  - destruct Hev as (-> & Hw & Hev). split; [reflexivity|]. split.
    + rewrite app_nil_r in Horder. rewrite <- Horder. apply range_order_to_map.
    + split; [exact Hw|]. rewrite Hev. unfold w0. rewrite events_emit. now rewrite <- !app_assoc.
Qed.

(** *** [SaveConcurrent] *)

Definition task_key (t : Task) : Image :=
  match t with
  | Pending info _ | Written info _ _ | Done info _ _ => info
  end.

Definition task_img (t : Task) : v1Image :=
  match t with
  | Pending _ img | Written _ img _ | Done _ img _ => img
  end.

Definition rank (t : Task) : nat :=
  match t with
  | Pending _ _ => 0
  | Written _ _ _ => 1
  | Done _ _ _ => 2
  end.

Section Invariant.
Variable rt : Runtime.
Variable h : Host.
Variable cl : LayoutWriter.
Variable order : list (Image * v1Image).
Variable w0 : World.
Hypothesis order_NoDup : NoDup order.*1.

Record Inv (s : State) : Prop := mkInv {
  inv_task : forall i t, tasks s !! i = Some t -> order !! i = Some (task_key t, task_img t);
  inv_saved : forall k v, saved s !! k = Some v ->
              exists i, tasks s !! i = Some (Done k v None);
  inv_done : forall i k v, tasks s !! i = Some (Done k v None) -> saved s !! k = Some v;
  inv_err : forall i k v e, tasks s !! i = Some (Done k v (Some e)) -> is_Some (firstErr s);
  inv_first : forall e, firstErr s = Some e ->
              exists i k v, tasks s !! i = Some (Done k v (Some e));
  inv_persisted : exists rest,
      events (world s) = events w0 ++ rest
      /\ no_start rest
      /\ NoDup (persisted rest)
      /\ forall k, k ∈ persisted rest <-> is_Some (saved s !! k)
}.

(** Two goroutines of one call work on different keys. *)
Lemma same_key_same_task (s : State) (i j : nat) (t tj : Task) :
  Inv s -> tasks s !! i = Some t -> tasks s !! j = Some tj ->
  task_key t = task_key tj -> i = j.
Proof.
  intros HI Hi Hj Hk.
  pose proof (inv_task _ HI _ _ Hi) as Hoi. pose proof (inv_task _ HI _ _ Hj) as Hoj.
  eapply NoDup_lookup; [exact order_NoDup | |].
  - rewrite list_lookup_fmap, Hoi. reflexivity.
  - rewrite list_lookup_fmap, Hoj. simpl. now rewrite Hk.
Qed.

Lemma save_inv_finish (s : State) (i : nat) (t : Task) (r : option error) (w' : World)
    (saved' : gmap Image v1Image) :
  Inv s ->
  tasks s !! i = Some t ->
  (rank t < 2)%nat ->
  (exists evs, events w' = events (world s) ++ evs /\ no_start evs
     /\ match r with
        | Some _ => saved' = saved s /\ persisted evs = []
        | None => saved' = <[task_key t := task_img t]> (saved s)
                  /\ persisted evs = [task_key t]
        end) ->
  Inv (finish i (task_key t) (task_img t) r w' saved' s).
Proof.
  intros HI Ht Hrank (evs & Hevs & Hns & Hr).
  assert (Hlt : (i < length (tasks s))%nat) by (eapply lookup_lt_Some, Ht).
  assert (Hnotdone : forall k v r', t <> Done k v r').
  { intros k v r' ->. simpl in Hrank. lia. }
  assert (Hother : forall j tj, j <> i -> tasks s !! j = Some tj ->
                                task_key tj <> task_key t).
  { intros j tj Hne Hj Hk. apply Hne. symmetry. eapply same_key_same_task; eauto. }
  assert (Hfresh : saved s !! task_key t = None).
  { destruct (saved s !! task_key t) as [v|] eqn:Hs; [|reflexivity].
    destruct (inv_saved _ HI _ _ Hs) as [j Hj].
    assert (i = j) by (eapply same_key_same_task; eauto). subst j.
    rewrite Ht in Hj. injection Hj as Heq. exfalso. eapply Hnotdone. exact Heq. }
  constructor; simpl.
  - intros j tj. rewrite list_lookup_insert.
    destruct (decide (i = j ∧ (i < length (tasks s))%nat)) as [[<- _]|Hne].
    + intros [= <-]. simpl. apply (inv_task _ HI _ _ Ht).
    + apply (inv_task _ HI).
  - intros k v Hs.
    assert (Hcase : (r = None /\ k = task_key t /\ v = task_img t) \/ saved s !! k = Some v).
    { destruct r as [e|]; destruct Hr as [-> _]; [now right|].
      rewrite lookup_insert in Hs. destruct (decide (task_key t = k)) as [<-|]; [|now right].
      injection Hs as <-. now left. }
    destruct Hcase as [(-> & -> & ->)|Hold].
    + exists i. now apply list_lookup_insert_eq.
    + destruct (inv_saved _ HI _ _ Hold) as [j Hj]. exists j.
      rewrite list_lookup_insert_ne; [assumption|].
      intros <-. rewrite Ht in Hj. injection Hj as ->. eapply Hnotdone. reflexivity.
  - intros j k v. rewrite list_lookup_insert.
    destruct (decide (i = j ∧ (i < length (tasks s))%nat)) as [[<- _]|Hne].
    + intros [= <- <- ->]. destruct Hr as [-> _].
      apply lookup_insert_eq.
    + intros Hj. pose proof (inv_done _ HI _ _ _ Hj) as Hs.
      destruct r as [e|]; destruct Hr as [-> _]; [assumption|].
      rewrite lookup_insert_ne; [assumption|].
      intros Hk. rewrite <- Hk in Hs. congruence.
  - intros j k v e. rewrite list_lookup_insert.
    destruct (decide (i = j ∧ (i < length (tasks s))%nat)) as [[<- _]|Hne].
    + intros [= _ _ ->]. destruct (firstErr s); eauto.
    + intros Hj. destruct (inv_err _ HI _ _ _ _ Hj) as [e' ->]. eauto.
  - intros e. destruct (firstErr s) as [e0|] eqn:He0.
    + intros [= <-]. destruct (inv_first _ HI e0 He0) as (j & k & v & Hj).
      exists j, k, v. rewrite list_lookup_insert_ne; [assumption|].
      intros <-. rewrite Ht in Hj. injection Hj as ->. eapply Hnotdone. reflexivity.
    + intros ->. exists i, (task_key t), (task_img t). now apply list_lookup_insert_eq.
  - destruct (inv_persisted _ HI) as (rest & Hrest & Hns0 & Hnd & Hiff).
    exists (rest ++ evs). split; [now rewrite Hevs, Hrest, app_assoc|].
    split; [now apply no_start_app|]. rewrite persisted_app.
    destruct r as [e|]; destruct Hr as [-> ->].
    + rewrite app_nil_r. auto.
    + split.
      * apply NoDup_app. split; [assumption|]. split; [|apply NoDup_singleton].
        intros k Hin ->%list_elem_of_singleton. apply Hiff in Hin.
        rewrite Hfresh in Hin. by inversion Hin.
      * intros k. rewrite elem_of_app, list_elem_of_singleton, Hiff, lookup_insert.
        destruct (decide (task_key t = k)) as [<-|Hne].
        -- split; eauto.
        -- split; [intros [H|H]; [assumption | congruence] | auto].
Qed.

Lemma save_inv_written (s : State) (i : nat) (info : Image) (img : v1Image)
    (desc : LayoutDescriptor) (w' : World) :
  Inv s ->
  tasks s !! i = Some (Pending info img) ->
  (exists evs, events w' = events (world s) ++ evs /\ no_start evs /\ persisted evs = []) ->
  Inv {| world := w'; tasks := <[i := Written info img desc]> (tasks s);
         saved := saved s; firstErr := firstErr s |}.
Proof.
  intros HI Ht (evs & Hevs & Hns & Hp).
  assert (Hlt : (i < length (tasks s))%nat) by (eapply lookup_lt_Some, Ht).
  constructor; simpl.
  - intros j tj. rewrite list_lookup_insert.
    destruct (decide (i = j ∧ (i < length (tasks s))%nat)) as [[<- _]|Hne].
    + intros [= <-]. simpl. apply (inv_task _ HI _ _ Ht).
    + apply (inv_task _ HI).
  - intros k v Hs. destruct (inv_saved _ HI _ _ Hs) as [j Hj]. exists j.
    rewrite list_lookup_insert_ne; [assumption|]. intros <-. congruence.
  - intros j k v. rewrite list_lookup_insert.
    destruct (decide (i = j ∧ (i < length (tasks s))%nat)) as [[<- _]|Hne]; [discriminate|].
    apply (inv_done _ HI).
  - intros j k v e. rewrite list_lookup_insert.
    destruct (decide (i = j ∧ (i < length (tasks s))%nat)) as [[<- _]|Hne]; [discriminate|].
    apply (inv_err _ HI).
  - intros e He. destruct (inv_first _ HI e He) as (j & k & v & Hj).
    exists j, k, v. rewrite list_lookup_insert_ne; [assumption|]. intros <-. congruence.
  - destruct (inv_persisted _ HI) as (rest & Hrest & Hns0 & Hnd & Hiff).
    exists (rest ++ evs). split; [now rewrite Hevs, Hrest, app_assoc|].
    split; [now apply no_start_app|]. rewrite persisted_app, Hp, app_nil_r. auto.
Qed.

Lemma save_step_inv (i : nat) (s s' : State) :
  Inv s -> step rt h cl i s = Some s' -> Inv s'.
Proof.
  intros HI. unfold step.
  destruct (tasks s !! i) as [[info img|info img desc|info img r]|] eqn:Ht; try discriminate.
  - destruct (partial_Descriptor cl img) as [desc|e].
    + destruct (WriteImage cl (wfs (world s)) img) as [fs' [err|]]; intros [= <-].
      * apply (save_inv_finish s i (Pending info img) (Some err));
          [assumption | assumption | simpl; lia |].
        destruct (cleanup_events rt h img
                    (emit (Ev_WriteImage info img (Some err)) fs' (world s)))
          as (evs & -> & Hns & Hp).
        exists (Ev_WriteImage info img (Some err) :: evs).
        rewrite events_emit, <- app_assoc. split; [reflexivity|].
        split; [constructor; [reflexivity | assumption]|]. split; [reflexivity | exact Hp].
      * apply save_inv_written; [assumption | assumption |].
        exists [Ev_WriteImage info img None]. repeat split. repeat constructor.
    + intros [= <-]. apply (save_inv_finish s i (Pending info img) (Some e));
        [assumption | assumption | simpl; lia |].
      exists []. rewrite app_nil_r. repeat split. constructor.
  - destruct (AppendDescriptor cl (wfs (world s)) _) as [fs' [err|]]; intros [= <-].
    + apply (save_inv_finish s i (Written info img desc) (Some err));
        [assumption | assumption | simpl; lia |].
      eexists [_]. repeat split. repeat constructor.
    + apply (save_inv_finish s i (Written info img desc) None);
        [assumption | assumption | simpl; lia |].
      eexists [_]. repeat split. repeat constructor.
Qed.

Lemma save_run_inv (sched : list nat) (s : State) :
  Inv s -> Inv (run rt h cl sched s).
Proof.
  revert s. induction sched as [|i sched IH]; intros s HI; simpl; [assumption|].
  apply IH. destruct (step rt h cl i s) as [s'|] eqn:Hstep; simpl; [|assumption].
  eapply save_step_inv; eassumption.
Qed.

Lemma save_start_inv : Inv (start order w0).
Proof.
  constructor; simpl.
  - intros i t Ht. rewrite list_lookup_fmap in Ht.
    destruct (order !! i) as [[k v]|]; [|discriminate]. injection Ht as <-. reflexivity.
  - intros k v Hs. by rewrite lookup_empty in Hs.
  - intros i k v Ht. rewrite list_lookup_fmap in Ht. destruct (order !! i); discriminate.
  - intros i k v e Ht. rewrite list_lookup_fmap in Ht. destruct (order !! i); discriminate.
  - discriminate.
  - exists []. split; [now rewrite app_nil_r|]. split; [constructor|]. split; [constructor|].
    intros k. rewrite lookup_empty. split; [intros H; by apply elem_of_nil in H|].
    intros H. by inversion H.
Qed.

End Invariant.

Lemma save_step_progress (rt : Runtime) (h : Host) (cl : LayoutWriter) (i : nat) (s s' : State) :
  step rt h cl i s = Some s' ->
  exists t t', tasks s !! i = Some t /\ tasks s' = <[i := t']> (tasks s)
               /\ (rank t < rank t')%nat.
Proof.
  unfold step.
  destruct (tasks s !! i) as [[info img|info img desc|info img r]|] eqn:Ht; try discriminate.
  - intros H. exists (Pending info img).
    destruct (partial_Descriptor cl img) as [desc|e];
      [destruct (WriteImage cl (wfs (world s)) img) as [fs' [err|]]|];
      injection H as <-; simpl; eexists; (split; [reflexivity|]); (split; [reflexivity|]);
      simpl; lia.
  - intros H. exists (Written info img desc).
    destruct (AppendDescriptor cl (wfs (world s)) _) as [fs' [err|]];
      injection H as <-; simpl; eexists; (split; [reflexivity|]); (split; [reflexivity|]);
      simpl; lia.
Qed.

Lemma save_step_stuck (rt : Runtime) (h : Host) (cl : LayoutWriter) (i : nat) (s : State)
    (t : Task) :
  step rt h cl i s = None -> tasks s !! i = Some t -> (2 <= rank t)%nat.
Proof.
  unfold step. intros H Ht. rewrite Ht in H.
  destruct t as [info img|info img desc|info img r]; [| |simpl; lia].
  - destruct (partial_Descriptor cl img) as [desc|e];
      [destruct (WriteImage cl (wfs (world s)) img) as [fs' [err|]]|]; discriminate.
  - destruct (AppendDescriptor cl (wfs (world s)) _) as [fs' [err|]]; discriminate.
Qed.

Lemma save_run_with (rt : Runtime) (h : Host) (cl : LayoutWriter) (sched : list nat) (s : State) :
  run rt h cl sched s = Goroutines.run_with (step rt h cl) sched s.
Proof. revert s. induction sched as [|i sched IH]; intros s; simpl; [reflexivity | apply IH]. Qed.

(** What one attempt of either strategy returns. *)
Definition attempt_ok (strategy : Strategy) (m : gmap Image v1Image) (w : World)
    (out : World * gmap Image v1Image * option error) : Prop :=
  out.1.2 ⊆ m
  /\ (out.2 = None -> out.1.2 = m)
  /\ exists rest, events out.1.1 = events w ++ Ev_Start strategy m :: rest
                  /\ no_start rest
                  /\ NoDup (persisted rest)
                  /\ forall k, k ∈ persisted rest <-> is_Some (out.1.2 !! k).

Lemma SaveConcurrent_ok (rt : Runtime) (h : Host) (cl : LayoutWriter)
    (m : gmap Image v1Image) (w : World) :
  attempt_ok Concurrent m w (SaveConcurrent rt h cl m w).
Proof.
  unfold SaveConcurrent.
  set (order := range_order rt (length (events w)) m).
  set (w0 := emit (Ev_Start Concurrent m) (wfs w) w).
  set (s := run rt h cl _ (start order w0)).
  assert (HI : Inv order w0 s).
  { apply save_run_inv; [apply range_order_NoDup | apply save_start_inv]. }
  assert (Hdone : forall i t, tasks s !! i = Some t -> exists k v r, t = Done k v r).
  { intros i t Ht. unfold s in Ht. rewrite save_run_with in Ht.
    assert (Hlen : length order = length (tasks (start order w0))).
    { simpl. now rewrite length_map. }
    rewrite Hlen in Ht.
    apply (Goroutines.all_at_end tasks rank (step rt h cl)
             (save_step_progress rt h cl) (save_step_stuck rt h cl)) in Ht.
    destruct t; simpl in Ht; try lia. eauto. }
  assert (Hsub : saved s ⊆ m).
  { apply map_subseteq_spec. intros k v Hs.
    destruct (inv_saved _ _ _ HI _ _ Hs) as [i Hi].
    pose proof (inv_task _ _ _ HI _ _ Hi) as Ho. simpl in Ho.
    apply (range_order_elem rt (length (events w))). eapply list_elem_of_lookup_2, Ho. }
  split; [exact Hsub|]. split.
  - simpl. intros Hnone. apply (anti_symm (⊆)); [exact Hsub|].
    apply map_subseteq_spec. intros k v Hm.
    apply (range_order_elem rt (length (events w))) in Hm. fold order in Hm.
    apply list_elem_of_lookup_1 in Hm as [i Hi].
    assert (Hlt : (i < length (tasks s))%nat).
    { unfold s. rewrite save_run_with.
      rewrite (Goroutines.run_with_length tasks rank (step rt h cl)
                 (save_step_progress rt h cl)).
      simpl. rewrite length_map. eapply lookup_lt_Some, Hi. }
    destruct (lookup_lt_is_Some_2 _ _ Hlt) as [t Ht].
    destruct (Hdone _ _ Ht) as (k' & v' & r & ->).
    pose proof (inv_task _ _ _ HI _ _ Ht) as Ho. simpl in Ho.
    rewrite Hi in Ho. injection Ho as <- <-.
    destruct r as [e|].
    + destruct (inv_err _ _ _ HI _ _ _ _ Ht) as [e' He']. congruence.
    + eapply inv_done; eassumption.
  - destruct (inv_persisted _ _ _ HI) as (rest & Hrest & Hns & Hnd & Hiff).
    exists rest. split; [|auto]. simpl. rewrite Hrest. unfold w0.
    rewrite events_emit, <- app_assoc. reflexivity.
Qed.

(** The part of the behaviour of [SaveSequential] that the retry policy
    relies on. *)
Lemma SaveSequential_tail (rt : Runtime) (h : Host) (cl : LayoutWriter)
    (m : gmap Image v1Image) (w : World) :
  exists pre rest evs,
    range_order rt (length (events w)) m = pre ++ rest
    /\ (SaveSequential rt h cl m w).1.2 = list_to_map pre
    /\ events (SaveSequential rt h cl m w).1.1
       = events w ++ Ev_Start Sequential m :: map appended_ok pre ++ evs
    /\ no_start evs /\ persisted evs = []
    /\ ((SaveSequential rt h cl m w).2 = None -> rest = []).
Proof.
  unfold SaveSequential.
  set (order := range_order rt (length (events w)) m).
  set (w0 := emit (Ev_Start Sequential m) (wfs w) w).
  destruct (seq_loop_spec rt h cl order ∅ w0) as (pre & rest & Horder & Hsaved & Hev).
  assert (Hnd : NoDup pre.*1).
  { pose proof (range_order_NoDup rt (length (events w)) m) as Hnd. fold order in Hnd.
    rewrite Horder, fmap_app in Hnd. now apply NoDup_app in Hnd as [Hnd _]. }
  rewrite Hsaved, insert_all_empty by assumption.
  destruct ((seq_loop rt h cl order ∅ w0).2) as [e|].
  - destruct Hev as (info & img & rest' & cerr & -> & Hev).
    eexists pre, _, _. split; [exact Horder|]. split; [reflexivity|].
    split; [rewrite Hev; unfold w0; rewrite events_emit, <- app_assoc; reflexivity|].
    split; [destruct cerr; repeat constructor|]. split; [|discriminate].
    destruct cerr; reflexivity.
  - destruct Hev as (-> & Hev).
    exists pre, [], []. split; [assumption|]. split; [reflexivity|].
    split; [rewrite Hev; unfold w0; rewrite events_emit, <- app_assoc, app_nil_r; reflexivity|].
    split; [constructor|]. split; reflexivity.
Qed.

Lemma SaveSequential_ok (rt : Runtime) (h : Host) (cl : LayoutWriter)
    (m : gmap Image v1Image) (w : World) :
  attempt_ok Sequential m w (SaveSequential rt h cl m w).
Proof.
  destruct (SaveSequential_tail rt h cl m w)
    as (pre & rest & evs & Horder & Hsaved & Hev & Hns & Hp & Hnone).
  pose proof (range_order_NoDup rt (length (events w)) m) as Hnd.
  rewrite Horder, fmap_app in Hnd. apply NoDup_app in Hnd as (Hnd & _ & _).
  assert (Hkeys : forall l, persisted (map appended_ok l) = l.*1).
  { induction l as [|[k v] l IH]; [reflexivity|].
    change (k :: persisted (map appended_ok l) = k :: l.*1). now f_equal. }
  assert (Hquiet : forall l, no_start (map appended_ok l)).
  { intros l. apply Forall_forall. intros ev [kv [-> _]]%list_elem_of_fmap. reflexivity. }
  split; [|split].
  - rewrite Hsaved. apply map_subseteq_spec. intros k v Hs.
    apply elem_of_list_to_map in Hs; [|assumption].
    apply (range_order_elem rt (length (events w))). rewrite Horder.
    apply elem_of_app. now left.
  - intros Hn. rewrite Hsaved. rewrite (Hnone Hn), app_nil_r in Horder.
    rewrite <- Horder. apply range_order_to_map.
  - exists (map appended_ok pre ++ evs). split; [exact Hev|].
    split; [now apply no_start_app|]. rewrite persisted_app, Hp, app_nil_r, Hkeys.
    split; [assumption|].
    intros k. rewrite Hsaved, list_elem_of_fmap. split.
    + intros ([k' v] & -> & Hin). exists v. now apply elem_of_list_to_map.
    + intros [v Hv]. apply elem_of_list_to_map in Hv; [|assumption]. exists (k, v). auto.
Qed.

(** C9: what either strategy returns, with or without an error, is a
    submap of its input: every key of the returned map is a key of the
    input with the same image. Deleting the returned keys from the work set
    therefore leaves a submap of the work set, which is empty when the
    strategy returned no error. *)
Theorem C9_saved_submap (rt : Runtime) (h : Host) (cl : LayoutWriter)
    (m : gmap Image v1Image) (w : World) :
  (SaveSequential rt h cl m w).1.2 ⊆ m
  /\ (SaveConcurrent rt h cl m w).1.2 ⊆ m
  /\ (forall saved, saved ⊆ m ->
        delete_saved saved m ⊆ m
        /\ forall k, delete_saved saved m !! k
                     = if decide (is_Some (saved !! k)) then None else m !! k)
  /\ ((ss rt h cl {| toPull := m; sworld := w |}).1).(toPull) ⊆ m
  /\ ((sc rt h cl {| toPull := m; sworld := w |}).1).(toPull) ⊆ m.
Proof.
  assert (Hdel : forall saved : gmap Image v1Image, delete_saved saved m ⊆ m).
  { intros saved. unfold delete_saved. apply map_subseteq_spec. intros k v.
    rewrite lookup_difference_Some. tauto. }
  split; [apply SaveSequential_ok|]. split; [apply SaveConcurrent_ok|]. split; [|split].
  - intros saved Hsub. split; [apply Hdel|]. intros k. unfold delete_saved.
    destruct (decide (is_Some (saved !! k))) as [Hs|Hn].
    + apply lookup_difference_None. now right.
    + apply eq_None_not_Some in Hn. destruct (m !! k) as [v|] eqn:Hm.
      * apply lookup_difference_Some. auto.
      * apply lookup_difference_None. now left.
  - unfold ss. cbn [toPull sworld].
    destruct (SaveSequential rt h cl m w) as [[w' saved] err]. apply Hdel.
  - unfold sc. cbn [toPull sworld].
    destruct (SaveConcurrent rt h cl m w) as [[w' saved] err]. apply Hdel.
Qed.

End SaveSpec.

(** ** The retry and fallback policy of [Pull] *)
Module RetrySpec.
Import OS Save SaveSpec.
#[local] Open Scope list_scope.

(** What is left of [fetched] once the keys [ks] have been persisted. *)
Definition remaining (fetched : gmap Image v1Image) (ks : list Image) (k : Image)
  : option v1Image :=
  if decide (k ∈ ks) then None else fetched !! k.

(** Every attempt in [evs] starts from what is left of [fetched] at that
    point, [seen] being the keys persisted before [evs]. *)
Fixpoint starts_ok (fetched : gmap Image v1Image) (seen : list Image) (evs : list SaveEvent)
  : Prop :=
  match evs with
  | [] => True
  | ev :: evs' =>
      match ev with
      | Ev_Start _ m => forall k, m !! k = remaining fetched seen k
      | _ => True
      end
      /\ starts_ok fetched (seen ++ persisted [ev]) evs'
  end.

Lemma starts_ok_app fetched seen a b :
  starts_ok fetched seen (a ++ b)
  <-> starts_ok fetched seen a /\ starts_ok fetched (seen ++ persisted a) b.
Proof.
  revert seen. induction a as [|ev a IH]; intros seen.
  - simpl. rewrite app_nil_r. tauto.
  - change ((ev :: a) ++ b) with (ev :: (a ++ b)). cbn [starts_ok]. rewrite IH.
    replace (seen ++ persisted (ev :: a)) with ((seen ++ persisted [ev]) ++ persisted a).
    + tauto.
    + rewrite <- app_assoc. f_equal. symmetry. apply (persisted_app [ev] a).
Qed.

Lemma starts_ok_no_start fetched seen evs : no_start evs -> starts_ok fetched seen evs.
Proof.
  revert seen. induction evs as [|ev evs IH]; intros seen Hns; simpl; [exact I|].
  apply Forall_cons in Hns as [Hev Hns]. split; [|now apply IH].
  destruct ev; try exact I. discriminate.
Qed.

Lemma starts_ok_at fetched seen evs pre strategy m post :
  starts_ok fetched seen evs ->
  evs = pre ++ Ev_Start strategy m :: post ->
  forall k, m !! k = remaining fetched (seen ++ persisted pre) k.
Proof.
  intros Hok ->. apply starts_ok_app in Hok as [_ Hok]. simpl in Hok. tauto.
Qed.

Lemma attempts_app strategy a b :
  attempts strategy (a ++ b) = (attempts strategy a + attempts strategy b)%nat.
Proof. unfold attempts. now rewrite filter_app, length_app. Qed.

Lemma attempts_no_start strategy evs : no_start evs -> attempts strategy evs = 0%nat.
Proof.
  unfold attempts. induction evs as [|ev evs IH]; intros Hns; [reflexivity|].
  apply Forall_cons in Hns as [Hev Hns]. rewrite filter_cons.
  destruct (decide (is_start strategy ev = true)) as [Hs|Hs]; [|now apply IH].
  destruct ev; simpl in Hev; try discriminate; destruct strategy; discriminate.
Qed.

Lemma attempts_start strategy strategy' m :
  attempts strategy [Ev_Start strategy' m]
  = match strategy, strategy' with
    | Concurrent, Concurrent | Sequential, Sequential => 1%nat
    | _, _ => 0%nat
    end.
Proof. destruct strategy, strategy'; reflexivity. Qed.

Section Policy.
Variable rt : Runtime.
Variable h : Host.
Variable cl : LayoutWriter.
Variable fetched : gmap Image v1Image.
Variable ev0 : list SaveEvent.

(** What holds between two attempts: [nc] and [ns] bound the attempts of
    each strategy so far. *)
Definition OInv (nc ns : nat) (st : Saving) : Prop :=
  exists new,
    events (sworld st) = ev0 ++ new
    /\ NoDup (persisted new)
    /\ (forall k, k ∈ persisted new -> is_Some (fetched !! k))
    /\ (forall k, toPull st !! k = remaining fetched (persisted new) k)
    /\ starts_ok fetched [] new
    /\ (attempts Concurrent new <= nc)%nat
    /\ (attempts Sequential new <= ns)%nat.

Lemma OInv_warnf nc ns msg st : OInv nc ns st -> OInv nc ns (warnf msg st).
Proof.
  intros (new & Hev & Hnd & Hin & Hto & Hst & Hc & Hs).
  exists (new ++ [Ev_Warnf msg]). simpl. rewrite Hev, <- app_assoc.
  rewrite persisted_app, app_nil_r, !attempts_app. simpl.
  assert (Hz : forall strategy, attempts strategy [Ev_Warnf msg] = 0%nat) by reflexivity.
  rewrite !Hz.
  repeat split; auto; try lia.
  apply starts_ok_app. split; [assumption|]. simpl. auto.
Qed.

(** One attempt of a strategy, followed by the deletion of the saved keys
    from the work set. *)
Lemma OInv_attempt nc ns strategy st out :
  OInv nc ns st ->
  attempt_ok strategy (toPull st) (sworld st) out ->
  let st' := {| toPull := delete_saved out.1.2 (toPull st); sworld := out.1.1 |} in
  OInv (match strategy with Concurrent => S nc | Sequential => nc end)
       (match strategy with Concurrent => ns | Sequential => S ns end) st'
  /\ (out.2 = None -> toPull st' = ∅).
Proof.
  intros (new & Hev & Hnd & Hin & Hto & Hst & Hc & Hs) (Hsub & Hall & rest & Hev' & Hns & Hnd' & Hiff).
  simpl. split.
  - exists (new ++ Ev_Start strategy (toPull st) :: rest). simpl.
    assert (Hp : persisted (new ++ Ev_Start strategy (toPull st) :: rest)
                 = persisted new ++ persisted rest).
    { rewrite persisted_app. reflexivity. }
    assert (Hsaved : forall k, k ∈ persisted rest ->
                       (k ∉ persisted new) /\ is_Some (fetched !! k)).
    { intros k Hk. apply Hiff in Hk as [v Hv].
      pose proof (lookup_weaken _ _ _ _ Hv Hsub) as Ht. rewrite Hto in Ht.
      unfold remaining in Ht. destruct (decide (k ∈ persisted new)); [discriminate|]. eauto. }
    rewrite Hp. split; [now rewrite Hev', Hev, <- app_assoc|]. split; [|split; [|split; [|split]]].
    + apply NoDup_app. split; [assumption|]. split; [|assumption].
      intros k Hk Hk'. now apply Hsaved in Hk'.
    + intros k [Hk|Hk]%elem_of_app; [auto | now apply Hsaved].
    + intros k. unfold delete_saved, remaining.
      destruct (decide (k ∈ persisted new ++ persisted rest)) as [Hk|Hk].
      * apply lookup_difference_None. apply elem_of_app in Hk as [Hk|Hk].
        -- left. rewrite Hto. unfold remaining. now rewrite decide_True.
        -- right. now apply Hiff.
      * rewrite elem_of_app in Hk.
        assert (Hnone : out.1.2 !! k = None).
        { apply eq_None_not_Some. rewrite <- Hiff. tauto. }
        assert (Ht : toPull st !! k = fetched !! k).
        { rewrite Hto. unfold remaining. rewrite decide_False; tauto. }
        rewrite <- Ht. destruct (toPull st !! k) as [v|] eqn:Hv.
        -- apply lookup_difference_Some. auto.
        -- apply lookup_difference_None. now left.
    + apply starts_ok_app. split; [assumption|]. simpl. split; [exact Hto|].
      now apply starts_ok_no_start.
    + rewrite !attempts_app.
      change (Ev_Start strategy (toPull st) :: rest)
        with ([Ev_Start strategy (toPull st)] ++ rest).
      rewrite !attempts_app, !(attempts_no_start _ rest Hns), !attempts_start.
      destruct strategy; lia.
  - intros Hnone. rewrite (Hall Hnone). unfold delete_saved. apply map_difference_diag.
Qed.

Lemma OInv_weaken nc ns nc' ns' st :
  (nc <= nc')%nat -> (ns <= ns')%nat -> OInv nc ns st -> OInv nc' ns' st.
Proof.
  intros Hc Hs (new & H1 & H2 & H3 & H4 & H5 & H6 & H7).
  exists new. repeat split; auto; lia.
Qed.

Lemma sc_attempt nc ns st :
  OInv nc ns st ->
  OInv (S nc) ns (sc rt h cl st).1 /\ ((sc rt h cl st).2 = None -> toPull (sc rt h cl st).1 = ∅).
Proof.
  intros HI. pose proof (SaveConcurrent_ok rt h cl (toPull st) (sworld st)) as Hok.
  pose proof (OInv_attempt nc ns Concurrent st _ HI Hok) as H. unfold sc.
  destruct (SaveConcurrent rt h cl (toPull st) (sworld st)) as [[w' saved] err]. exact H.
Qed.

Lemma ss_attempt nc ns st :
  OInv nc ns st ->
  OInv nc (S ns) (ss rt h cl st).1 /\ ((ss rt h cl st).2 = None -> toPull (ss rt h cl st).1 = ∅).
Proof.
  intros HI. pose proof (SaveSequential_ok rt h cl (toPull st) (sworld st)) as Hok.
  pose proof (OInv_attempt nc ns Sequential st _ HI Hok) as H. unfold ss.
  destruct (SaveSequential rt h cl (toPull st) (sworld st)) as [[w' saved] err]. exact H.
Qed.

(** [helpers.Retry(fn, 2, ...)] makes one or two attempts. *)
Lemma Retry_twice (fn : Saving -> Saving * option error) (P P1 P2 : Saving -> Prop)
    (st : Saving) :
  (forall st, P st -> P1 (fn st).1 /\ ((fn st).2 = None -> toPull (fn st).1 = ∅)) ->
  (forall st, P1 st -> P2 (fn st).1 /\ ((fn st).2 = None -> toPull (fn st).1 = ∅)) ->
  (forall st msg, P1 st -> P1 (warnf msg st)) ->
  (forall st, P1 st -> P2 st) ->
  P st ->
  P2 (Retry fn 2 retry_warning st).1
  /\ ((Retry fn 2 retry_warning st).2 = None -> toPull (Retry fn 2 retry_warning st).1 = ∅).
Proof.
  intros H1 H2 Hw H12 HP. unfold Retry. simpl.
  destruct (H1 st HP) as [HP1 Hnone1].
  destruct (fn st) as [st1 [err|]] eqn:Hfn; simpl in *.
  - assert (HP1' : P1 (retry_warning err st1)) by (apply Hw, HP1).
    destruct (H2 _ HP1') as [HP2 Hnone2].
    destruct (fn (retry_warning err st1)) as [st2 [err2|]]; simpl in *; auto.
  - auto.
Qed.

Lemma save_images_inv (w : World) :
  events w = ev0 ->
  OInv 2 2 (save_images rt h cl fetched w).1
  /\ ((save_images rt h cl fetched w).2 = None -> toPull (save_images rt h cl fetched w).1 = ∅).
Proof.
  intros Hw.
  assert (H0 : OInv 0 0 {| toPull := fetched; sworld := w |}).
  { exists []. simpl. rewrite app_nil_r. split; [assumption|]. split; [constructor|].
    split; [intros k Hk; by apply elem_of_nil in Hk|].
    split; [|split; [exact I | split; reflexivity]].
    intros k. unfold remaining. rewrite decide_False; [reflexivity|].
    intros Hk. by apply elem_of_nil in Hk. }
  unfold save_images.
  assert (Hw12 : forall st, OInv 1 0 st -> OInv 2 0 st) by (intros st; apply OInv_weaken; lia).
  destruct (Retry_twice (sc rt h cl) (OInv 0 0) (OInv 1 0) (OInv 2 0) _
              (sc_attempt 0 0) (sc_attempt 1 0) (fun st msg => OInv_warnf 1 0 msg st)
              Hw12 H0) as [Hc Hcn].
  destruct (Retry (sc rt h cl) 2 retry_warning _) as [st1 [err|]]; simpl in *.
  - apply (Retry_twice (ss rt h cl) (OInv 2 0) (OInv 2 1) (OInv 2 2)).
    + apply ss_attempt.
    + apply ss_attempt.
    + intros st msg. apply OInv_warnf.
    + intros st. apply OInv_weaken; lia.
    + now apply OInv_warnf.
  - split; [|auto]. eapply OInv_weaken; [| |exact Hc]; lia.
Qed.

End Policy.

(** C2: over the whole of the save policy of [Pull], no reference is
    persisted twice, and every reference persisted is one of [fetched]. The
    work set at any time is [fetched] without the references persisted so
    far: this is what the policy ends with and what every attempt starts
    from. There are at most two attempts of the concurrent strategy and at
    most two of the sequential one. When the policy returns no error the
    work set is empty and the references persisted are exactly those of
    [fetched]. *)
Theorem C2_no_image_saved_twice (rt : Runtime) (h : Host) (cl : LayoutWriter)
    (fetched : gmap Image v1Image) (w : World) :
  let out := save_images rt h cl fetched w in
  exists new,
    events (sworld out.1) = events w ++ new
    /\ NoDup (persisted new)
    /\ (forall k, k ∈ persisted new -> is_Some (fetched !! k))
    /\ (forall k, toPull out.1 !! k = remaining fetched (persisted new) k)
    /\ (forall pre strategy m post,
          new = pre ++ Ev_Start strategy m :: post ->
          forall k, m !! k = remaining fetched (persisted pre) k)
    /\ (attempts Concurrent new <= 2)%nat
    /\ (attempts Sequential new <= 2)%nat
    /\ (out.2 = None ->
        toPull out.1 = ∅ /\ forall k, k ∈ persisted new <-> is_Some (fetched !! k)).
Proof.
  intros out.
  destruct (save_images_inv rt h cl fetched (events w) w eq_refl)
    as [(new & Hev & Hnd & Hin & Hto & Hst & Hc & Hs) Hnone].
  exists new. split; [exact Hev|]. split; [exact Hnd|]. split; [exact Hin|].
  split; [exact Hto|]. split.
  { intros pre strategy m post Heq k.
    apply (starts_ok_at fetched [] new pre strategy m post Hst Heq). }
  split; [exact Hc|]. split; [exact Hs|].
  intros Hn. split; [apply Hnone, Hn|].
  intros k. split; [apply Hin|]. intros Hk.
  specialize (Hto k). rewrite (Hnone Hn), lookup_empty in Hto. unfold remaining in Hto.
  destruct (decide (k ∈ persisted new)); [assumption|].
  rewrite <- Hto in Hk. by inversion Hk.
Qed.

(** Two images; the layout refuses the concurrent write of the second one
    and accepts everything else. *)
Definition key_a : Image := mkImage "a" "a" "" "".
Definition key_b : Image := mkImage "b" "b" "" "".

Definition image_of (config_size : Z) : v1Image :=
  {| img_Manifest := Ok (mkManifest config_size); img_Layers := Ok []; img_cache := None |}.

Definition fetched_ab : gmap Image v1Image :=
  <[key_a := image_of 1]> (<[key_b := image_of 2]> ∅).

Definition is_second (img : v1Image) : bool :=
  match img_Manifest img with
  | Ok m => Config_Size m =? 2
  | Err _ => false
  end.

Definition layout_w : LayoutWriter :=
  {| AppendImage := fun fs _ _ => (fs, None);
     WriteImage := fun fs img =>
       if is_second img then (fs, Some (Errorf "too many open files")) else (fs, None);
     AppendDescriptor := fun fs _ => (fs, None);
     partial_Descriptor := fun _ => Ok (mkLayoutDescriptor (mkHash "sha256" "00") ∅) |}.

Definition runtime_w : Runtime :=
  {| range_order := fun _ m => map_to_list m;
     range_order_perm := fun _ m => reflexivity (map_to_list m);
     save_sched := fun _ => [];
     cleanup_sched := fun _ => [] |}.

Definition world_w : World := {| wfs := CleanupSpec.fs_w; events := [] |}.

Lemma C2_no_image_saved_twice_witness :
  let out := save_images runtime_w CleanupSpec.host_w layout_w fetched_ab world_w in
  out.2 = None
  /\ toPull out.1 = ∅
  /\ persisted (events (sworld out.1)) = [key_a; key_b]
  /\ attempts Concurrent (events (sworld out.1)) = 2%nat
  /\ attempts Sequential (events (sworld out.1)) = 1%nat.
Proof.
  intros out.
  assert (Hnone : out.2 = None) by (vm_cast_no_check (eq_refl (@None error))).
  destruct (C2_no_image_saved_twice runtime_w CleanupSpec.host_w layout_w fetched_ab world_w)
    as (new & _ & _ & _ & _ & _ & _ & _ & Hsucc).
  split; [exact Hnone|]. split; [exact (proj1 (Hsucc Hnone))|].
  split; [vm_cast_no_check (eq_refl [key_a; key_b])|].
  split; [vm_cast_no_check (eq_refl 2%nat) | vm_cast_no_check (eq_refl 1%nat)].
Defined.

Lemma C9_saved_submap_witness :
  let saved := (SaveConcurrent runtime_w CleanupSpec.host_w layout_w fetched_ab world_w).1.2 in
  saved ⊆ fetched_ab
  /\ delete_saved saved fetched_ab ⊆ fetched_ab
  /\ delete_saved saved fetched_ab !! key_a = None.
Proof.
  intros saved.
  destruct (C9_saved_submap runtime_w CleanupSpec.host_w layout_w fetched_ab world_w)
    as (_ & Hc & Hdel & _).
  split; [exact Hc|]. destruct (Hdel saved Hc) as [Hsub Hlook].
  split; [exact Hsub|]. rewrite Hlook.
  vm_cast_no_check (eq_refl (@None v1Image)).
Defined.

End RetrySpec.

(** ** The blob hash repair (the end of [Pull]) *)
Module Repair.
Import OS.
#[local] Open Scope list_scope.

(** [os.Open]: the node the handle gives access to. *)
Definition os_Open (h : Host) (fs : FS) (p : path) : result node :=
  match fault h OpOpen p with
  | Some e => Err e
  | None =>
      match fs !! p with
      | None => Err (not_exist "open" p)
      | Some n => Ok n
      end
  end.

(** [helpers.GetSHA256Hash(file)]: the content read through the handle is
    fed to SHA-256; reading from the handle of a directory fails. *)
Definition GetSHA256Hash (h : Host) (p : path) (n : node) : result string :=
  match fault h OpRead p with
  | Some e => Err e
  | None =>
      match n with
      | File content => Ok (sha256_hex h content)
      | Dir => Err (Errorf ("read " ++ path_string p ++ ": is a directory")%string)
      end
  end.

Definition parent (p : path) : path := take (length p - 1) p.

(** The entries at and below [old], moved to [new]. *)
Definition move_tree (fs : FS) (old new : path) : FS :=
  list_to_map
    (map (fun pn : path * node =>
            (if decide (take (length old) pn.1 = old)
             then new ++ drop (length old) pn.1
             else pn.1, pn.2))
         (map_to_list fs)).

(** [os.Rename(oldpath, newpath)]: a file replaces a file that is at
    [newpath]; a directory moves with what is below it to a free place. *)
Definition os_Rename (h : Host) (fs : FS) (old new : path) : FS * option error :=
  match fault h OpRename old with
  | Some e => (fs, Some e)
  | None =>
      match fs !! old with
      | None => (fs, Some (not_exist "rename" old))
      | Some n =>
          if decide (old = new) then (fs, None)
          else
            match fs !! parent new with
            | Some Dir =>
                match n, fs !! new with
                | File c, Some Dir =>
                    (fs, Some (Errorf ("rename " ++ path_string new
                                       ++ ": file exists")%string))
                | File c, _ => (<[new := File c]> (delete old fs), None)
                | Dir, None => (move_tree fs old new, None)
                | Dir, Some _ =>
                    (fs, Some (Errorf ("rename " ++ path_string new
                                       ++ ": file exists")%string))
                end
            | _ => (fs, Some (not_exist "rename" new))
            end
      end
  end.

(** [filepath.WalkFunc] *)
Definition WalkFunc : Type := path -> option FileInfo -> option error -> FS -> FS * option error.

(** [readDirNames]: the names of the entries of a directory, sorted. *)
Definition readDirNames (h : Host) (fs : FS) (p : path) : list string * option error :=
  match fault h OpReadDir p with
  | Some e => ([], Some e)
  | None => (merge_sort String.le (children fs p), None)
  end.

Definition is_SkipDir (e : error) : bool :=
  match e with
  | SkipDir => true
  | _ => false
  end.

Definition is_Skip (e : error) : bool :=
  match e with
  | SkipDir | SkipAll => true
  | _ => false
  end.

(** [walk] of [path/filepath]. [fuel] bounds the depth of the recursion;
    [None] when it does not suffice. *)
Fixpoint walk (fuel : nat) (h : Host) (walkFn : WalkFunc) (p : path) (info : FileInfo)
    (fs : FS) : option (FS * option error) :=
  match fuel with
  | O => None
  | S fuel' =>
      if negb (info_IsDir info) then Some (walkFn p (Some info) None fs)
      else
        let (names, err) := readDirNames h fs p in
        let (fs1, err1) := walkFn p (Some info) err fs in
        match err, err1 with
        | None, None =>
            (fix loop (names : list string) (fs : FS) : option (FS * option error) :=
               match names with
               | [] => Some (fs, None)
               | name :: names' =>
                   let filename := p ++ [name] in
                   match os_Lstat h fs filename with
                   | Err e =>
                       match walkFn filename None (Some e) fs with
                       | (fs', Some e') =>
                           if is_SkipDir e' then loop names' fs' else Some (fs', Some e')
                       | (fs', None) => loop names' fs'
                       end
                   | Ok fileInfo =>
                       match walk fuel' h walkFn filename fileInfo fs with
                       | None => None
                       | Some (fs', Some e') =>
                           if info_IsDir fileInfo && is_SkipDir e' then loop names' fs'
                           else Some (fs', Some e')
                       | Some (fs', None) => loop names' fs'
                       end
                   end
               end) names fs1
        | _, _ => Some (fs1, err1)
        end
  end.

(** [filepath.Walk(root, fn)] *)
Definition Walk (fuel : nat) (h : Host) (fn : WalkFunc) (root : path) (fs : FS)
  : option (FS * option error) :=
  match
    match os_Lstat h fs root with
    | Err e => Some (fn root None (Some e) fs)
    | Ok info => walk fuel h fn root info fs
    end
  with
  | None => None
  | Some (fs', Some e) => if is_Skip e then Some (fs', None) else Some (fs', Some e)
  | Some (fs', None) => Some (fs', None)
  end.

(** The function [Pull] gives to [filepath.Walk]. The new name is the bare
    hash: a path without a directory, which the system resolves against the
    working directory of the process. *)
Definition repair_fn (h : Host) : WalkFunc :=
  fun p _ err fs =>
    match err with
    | Some e => (fs, Some e)
    | None =>
        match os_Open h fs p with
        | Err e => (fs, Some e)
        | Ok file =>
            match GetSHA256Hash h p file with
            | Err e => (fs, Some e)
            | Ok hash => os_Rename h fs p (cwd h ++ [hash])
            end
        end
    end.

(** [filepath.Join(cfg.DestinationDirectory, "images", "blobs", "sha256")] *)
Definition blobDirectory (cfg : PullConfig) : path :=
  DestinationDirectory cfg ++ ["images"; "blobs"; "sha256"]%string.

(** Where the layout written by [clayout.Write(cfg.DestinationDirectory, _)]
    keeps its blobs. *)
Definition layout_blobs (cfg : PullConfig) : path :=
  DestinationDirectory cfg ++ ["blobs"; "sha256"]%string.

(** The last lines of [Pull]: the walk, then [return fetched, nil]. *)
Definition repair_and_return (fuel : nat) (h : Host) (cfg : PullConfig)
    (fetched : gmap Image v1Image) (fs : FS) : option (FS * result (gmap Image v1Image)) :=
  match Walk fuel h (repair_fn h) (blobDirectory cfg) fs with
  | None => None
  | Some (fs', Some e) => Some (fs', Err e)
  | Some (fs', None) => Some (fs', Ok fetched)
  end.

(** The behaviour the specification describes: every file of [dir] whose
    name is not the hash of its content is renamed, inside [dir], to that
    hash. *)
Definition spec_repaired (h : Host) (dir : path) (fs fs' : FS) : Prop :=
  forall name content,
    fs !! (dir ++ [name]) = Some (File content) ->
    fs' !! (dir ++ [sha256_hex h content]) = Some (File content).

End Repair.

(** ** What the blob hash repair does *)
Module RepairSpec.
Import OS Repair.
#[local] Open Scope list_scope.

(** When the directory walked does not exist, the walk returns the error
    of [os.Lstat] and changes nothing. *)
Lemma repair_missing_directory (fuel : nat) (h : Host) (cfg : PullConfig) (fs : FS) (e : error) :
  os_Lstat h fs (blobDirectory cfg) = Err e ->
  is_Skip e = false ->
  Walk fuel h (repair_fn h) (blobDirectory cfg) fs = Some (fs, Some e).
Proof. intros Hl Hs. unfold Walk. rewrite Hl. simpl. now rewrite Hs. Qed.

(** When it exists, the function given to the walk is first called on the
    directory itself, fails to hash it, and the walk stops there. *)
Lemma repair_stops_at_directory (fuel : nat) (h : Host) (cfg : PullConfig) (fs : FS) :
  fs !! blobDirectory cfg = Some Dir ->
  (forall o, fault h o (blobDirectory cfg) = None) ->
  Walk (S fuel) h (repair_fn h) (blobDirectory cfg) fs
  = Some (fs, Some (Errorf ("read " ++ path_string (blobDirectory cfg)
                            ++ ": is a directory")%string)).
Proof.
  intros Hdir Hf. unfold Walk, os_Lstat, stat_with. rewrite Hf, Hdir. simpl.
  unfold readDirNames. rewrite Hf. simpl.
  unfold os_Open. rewrite Hf, Hdir. unfold GetSHA256Hash. rewrite Hf. reflexivity.
Qed.

(** On a file, the function renames it to its hash in the working
    directory of the process. *)
Lemma repair_fn_moves_to_cwd (h : Host) (fs : FS) (p : path) (info : option FileInfo)
    (content : string) :
  fs !! p = Some (File content) ->
  (forall o, fault h o p = None) ->
  fs !! cwd h = Some Dir ->
  p <> cwd h ++ [sha256_hex h content] ->
  fs !! (cwd h ++ [sha256_hex h content]) <> Some Dir ->
  repair_fn h p info None fs
  = (<[cwd h ++ [sha256_hex h content] := File content]> (delete p fs), None).
Proof.
  intros Hp Hf Hcwd Hne Hnd. unfold repair_fn, os_Open. rewrite Hf, Hp.
  unfold GetSHA256Hash. rewrite Hf. unfold os_Rename. rewrite Hf, Hp.
  rewrite decide_False by assumption.
  assert (Hpar : parent (cwd h ++ [sha256_hex h content]) = cwd h).
  { unfold parent. rewrite length_app. simpl.
    replace (length (cwd h) + 1 - 1)%nat with (length (cwd h)) by lia.
    apply take_app_length. }
  rewrite Hpar, Hcwd.
  destruct (fs !! (cwd h ++ [sha256_hex h content])) as [[c|]|]; congruence.
Qed.

(** A layout at [pkg] after a save, with a blob stored under a name that
    is not its hash; the process runs in [work]. *)
Definition host_of (sha : string -> string) : Host :=
  {| fault := fun _ _ => None;
     dir_size := fun _ => 4096;
     cwd := ["work"]%string;
     GetAbsCachePath := ["zarf-cache"]%string;
     ImagesDir := "images";
     sha256_hex := sha |}.

Definition cfg_pkg : PullConfig :=
  {| DestinationDirectory := ["pkg"]%string;
     CacheDirectory := ["zarf-cache"; "images"]%string;
     RegistryOverrides := ∅;
     ImageList := [];
     Arch := "amd64" |}.

Definition fs_layout : FS :=
  list_to_map [(["pkg"], Dir); (["pkg"; "index.json"], File "{}");
               (["pkg"; "oci-layout"], File "{}");
               (["pkg"; "blobs"], Dir); (["pkg"; "blobs"; "sha256"], Dir);
               (["pkg"; "blobs"; "sha256"; "0bad"], File "config");
               (["work"], Dir)]%string.

(** The same with the blobs under [pkg/images/blobs/sha256], the directory
    that is walked. *)
Definition fs_images : FS :=
  list_to_map [(["pkg"], Dir); (["pkg"; "images"], Dir);
               (["pkg"; "images"; "blobs"], Dir);
               (["pkg"; "images"; "blobs"; "sha256"], Dir);
               (["pkg"; "images"; "blobs"; "sha256"; "0bad"], File "config");
               (["work"], Dir)]%string.

(** C5 (defect of the code): the repair pass does not do what its comment
    and the specification say. Whatever the hash function, on a layout
    with a misnamed blob [Pull] fails and the blob keeps its name: the walk
    is started in [DestinationDirectory/images/blobs/sha256], not in the
    [blobs/sha256] of the layout; and where that directory exists, the
    function is first called on the directory itself, cannot hash it, and
    the walk stops before any file. On a file, the function would move it
    to the working directory, out of the blob directory. *)
Theorem C5_repair_leaves_misnamed_blob (sha : string -> string) (fuel : nat)
    (fetched : gmap Image v1Image) :
  let h := host_of sha in
  repair_and_return fuel h cfg_pkg fetched fs_layout
  = Some (fs_layout, Err (not_exist "lstat" ["pkg"; "images"; "blobs"; "sha256"]%string))
  /\ fs_layout !! (layout_blobs cfg_pkg ++ ["0bad"%string]) = Some (File "config")
  /\ (sha "config" <> "0bad"%string ->
      ~ spec_repaired h (layout_blobs cfg_pkg) fs_layout fs_layout)
  /\ repair_and_return (S fuel) h cfg_pkg fetched fs_images
     = Some (fs_images, Err (Errorf "read pkg/images/blobs/sha256: is a directory"))
  /\ (sha "config" <> "0bad"%string ->
      ~ spec_repaired h (blobDirectory cfg_pkg) fs_images fs_images)
  /\ (repair_fn h (blobDirectory cfg_pkg ++ ["0bad"%string]) None None fs_images).1
       !! (["work"%string; sha "config"])
     = Some (File "config")
  /\ (repair_fn h (blobDirectory cfg_pkg ++ ["0bad"%string]) None None fs_images).1
       !! (blobDirectory cfg_pkg ++ [sha "config"])
     = None.
Proof.
  intros h.
  assert (Hfs1 : forall p n, fs_layout !! p = Some n ->
            p ∈ [["pkg"]; ["pkg"; "index.json"]; ["pkg"; "oci-layout"]; ["pkg"; "blobs"];
                 ["pkg"; "blobs"; "sha256"]; ["pkg"; "blobs"; "sha256"; "0bad"];
                 ["work"]]%string).
  { intros p n Hp. unfold fs_layout in Hp. apply elem_of_list_to_map_2 in Hp.
    apply (list_elem_of_fmap_2 fst) in Hp. exact Hp. }
  assert (Hfs2 : forall p n, fs_images !! p = Some n ->
            p ∈ [["pkg"]; ["pkg"; "images"]; ["pkg"; "images"; "blobs"];
                 ["pkg"; "images"; "blobs"; "sha256"];
                 ["pkg"; "images"; "blobs"; "sha256"; "0bad"]; ["work"]]%string).
  { intros p n Hp. unfold fs_images in Hp. apply elem_of_list_to_map_2 in Hp.
    apply (list_elem_of_fmap_2 fst) in Hp. exact Hp. }
  split; [|split; [|split; [|split; [|split; [|split]]]]].
  - unfold repair_and_return.
    rewrite (repair_missing_directory fuel h cfg_pkg fs_layout
               (not_exist "lstat" ["pkg"; "images"; "blobs"; "sha256"]%string));
      reflexivity.
  - reflexivity.
  - intros Hne Hspec.
    specialize (Hspec "0bad"%string "config"%string eq_refl).
    apply Hfs1 in Hspec. simpl in Hspec.
    repeat (apply elem_of_cons in Hspec as [Hspec|Hspec]; [try discriminate Hspec|]).
    + injection Hspec as Heq. contradiction.
    + by apply elem_of_nil in Hspec.
  - unfold repair_and_return.
    rewrite (repair_stops_at_directory fuel h cfg_pkg fs_images); reflexivity.
  - intros Hne Hspec.
    specialize (Hspec "0bad"%string "config"%string eq_refl).
    apply Hfs2 in Hspec. simpl in Hspec.
    repeat (apply elem_of_cons in Hspec as [Hspec|Hspec]; [try discriminate Hspec|]).
    + injection Hspec as Heq. contradiction.
    + by apply elem_of_nil in Hspec.
  - rewrite (repair_fn_moves_to_cwd h fs_images _ None "config"); try reflexivity.
    + simpl. apply lookup_insert_eq.
    + discriminate.
    + simpl. intros Hd. apply Hfs2 in Hd.
      repeat (apply elem_of_cons in Hd as [Hd|Hd]; [discriminate Hd|]).
      by apply elem_of_nil in Hd.
  - rewrite (repair_fn_moves_to_cwd h fs_images _ None "config"); try reflexivity.
    + simpl. rewrite lookup_insert_ne by discriminate.
      destruct (decide (sha "config" = "0bad"%string)) as [->|Hne].
      * apply lookup_delete_eq.
      * rewrite lookup_delete_ne by congruence.
        destruct (fs_images !! _) as [n|] eqn:Hn; [|reflexivity].
        apply Hfs2 in Hn.
        repeat (apply elem_of_cons in Hn as [Hn|Hn]; [try discriminate Hn|]).
        -- injection Hn as Heq. contradiction.
        -- by apply elem_of_nil in Hn.
    + discriminate.
    + simpl. intros Hd. apply Hfs2 in Hd.
      repeat (apply elem_of_cons in Hd as [Hd|Hd]; [discriminate Hd|]).
      by apply elem_of_nil in Hd.
Qed.

End RepairSpec.

(** ** [Pull], from its parts *)
Module PullAll.
Import OS Save Repair.
#[local] Open Scope list_scope.

(** [helpers.CreateDirectory] and [clayout.Write]: the second gives the
    writer of the layout it has created. *)
Record Setup : Type := mkSetup {
  CreateDirectory : FS -> path -> FS * option error;
  clayout_Write : FS -> path -> FS * result LayoutWriter
}.

(** [Pull(ctx, cfg)]. The schedules and the visiting orders are what the
    runtime decides; the result is [None] when [sched] leaves a worker of
    the fetch unfinished (a worker that has panicked never returns, and
    [Pull] does not either) or [fuel] is too small for the walk. The
    progress bar is left out. *)
Definition Pull (env : Remote) (h : Host) (setup : Setup) (rt : Runtime)
    (orders : nat -> list (string * string)) (sched : list nat) (fuel : nat)
    (cfg : PullConfig) (fs0 : FS) : option (FS * result (gmap Image v1Image)) :=
  match CreateDirectory setup fs0 (DestinationDirectory cfg) with
  | (fs1, Some err) =>
      Some (fs1, Err (Wrap ("failed to create image path "
                            ++ path_string (DestinationDirectory cfg) ++ ": ")%string err))
  | (fs1, None) =>
      match clayout_Write setup fs1 (DestinationDirectory cfg) with
      | (fs2, Err err) => Some (fs2, Err err)
      | (fs2, Ok cranePath) =>
          match Fetch.fetch_result (Fetch.run env cfg orders sched (Fetch.init cfg)) with
          | None => None
          | Some (Err err) => Some (fs2, Err err)
          | Some (Ok (fetched, totalBytes)) =>
              match save_images rt h cranePath fetched {| wfs := fs2; events := [] |} with
              | (st, Some err) => Some (wfs (sworld st), Err err)
              | (st, None) => repair_and_return fuel h cfg fetched (wfs (sworld st))
              end
          end
      end
  end.

(** [Pull] returns a map only when the fetch, the save policy and the walk
    over the blobs all returned no error, and the map is then the one the
    fetch built. *)
Lemma Pull_returns_fetched (env : Remote) (h : Host) (setup : Setup) (rt : Runtime)
    (orders : nat -> list (string * string)) (sched : list nat) (fuel : nat)
    (cfg : PullConfig) (fs0 fs' : FS) (m : gmap Image v1Image) :
  Pull env h setup rt orders sched fuel cfg fs0 = Some (fs', Ok m) ->
  exists fs1 fs2 cranePath totalBytes st,
    CreateDirectory setup fs0 (DestinationDirectory cfg) = (fs1, None)
    /\ clayout_Write setup fs1 (DestinationDirectory cfg) = (fs2, Ok cranePath)
    /\ Fetch.fetch_result (Fetch.run env cfg orders sched (Fetch.init cfg))
       = Some (Ok (m, totalBytes))
    /\ save_images rt h cranePath m {| wfs := fs2; events := [] |} = (st, None)
    /\ Walk fuel h (repair_fn h) (blobDirectory cfg) (wfs (sworld st)) = Some (fs', None).
Proof.
  unfold Pull.
  destruct (CreateDirectory setup fs0 _) as [fs1 [e|]] eqn:Hmk; [discriminate|].
  destruct (clayout_Write setup fs1 _) as [fs2 [cranePath|e]] eqn:Hwr; [|discriminate].
  destruct (Fetch.fetch_result _) as [[[fetched total]|e]|] eqn:Hfetch; try discriminate.
  destruct (save_images rt h cranePath fetched _) as [st [e|]] eqn:Hsave; [discriminate|].
  unfold repair_and_return.
  destruct (Walk fuel h (repair_fn h) (blobDirectory cfg) (wfs (sworld st)))
    as [[fs'' [e|]]|] eqn:Hwalk; try discriminate.
  intros [= <- <-]. exists fs1, fs2, cranePath, total, st. auto.
Qed.

(** X23: when the operating system refuses nothing at
    [DestinationDirectory/images/blobs/sha256], [Pull] returns a map only
    if, after the save, that path is a regular file: a missing path and a
    directory both make the walk fail. *)
Lemma Pull_needs_a_file_at_blobDirectory (env : Remote) (h : Host) (setup : Setup)
    (rt : Runtime) (orders : nat -> list (string * string)) (sched : list nat) (fuel : nat)
    (cfg : PullConfig) (fs0 fs' : FS) (m : gmap Image v1Image) :
  (forall o, fault h o (blobDirectory cfg) = None) ->
  Pull env h setup rt orders sched fuel cfg fs0 = Some (fs', Ok m) ->
  exists fs1 fs2 cranePath st content,
    CreateDirectory setup fs0 (DestinationDirectory cfg) = (fs1, None)
    /\ clayout_Write setup fs1 (DestinationDirectory cfg) = (fs2, Ok cranePath)
    /\ save_images rt h cranePath m {| wfs := fs2; events := [] |} = (st, None)
    /\ wfs (sworld st) !! blobDirectory cfg = Some (File content).
Proof.
  intros Hf HP. destruct (Pull_returns_fetched _ _ _ _ _ _ _ _ _ _ _ HP)
    as (fs1 & fs2 & cranePath & total & st & Hmk & Hwr & _ & Hsave & Hwalk).
  exists fs1, fs2, cranePath, st.
  destruct (wfs (sworld st) !! blobDirectory cfg) as [[content|]|] eqn:Hnode.
  - exists content. auto.
  - exfalso. destruct fuel as [|fuel].
    + unfold Walk, os_Lstat, stat_with in Hwalk. rewrite Hf, Hnode in Hwalk. discriminate.
    + rewrite (RepairSpec.repair_stops_at_directory fuel h cfg _ Hnode Hf) in Hwalk.
      discriminate.
  - exfalso.
    rewrite (RepairSpec.repair_missing_directory fuel h cfg _
               (not_exist "lstat" (blobDirectory cfg))) in Hwalk; [discriminate| |reflexivity].
    unfold os_Lstat, stat_with. now rewrite Hf, Hnode.
Qed.

End PullAll.

(** ** The registry overrides and the visiting order *)
Module OverridesSpec.
Import GoStrings Overrides.

Lemma last_match_None (reference : string) (order : list (string * string)) :
  last_match reference order = None <->
  Forall (fun kv => HasPrefix reference kv.1 = false) order.
Proof.
  induction order as [|kv rest IH]; simpl.
  - split; [constructor | reflexivity].
  - destruct (last_match reference rest) eqn:Hl.
    + split; [discriminate|]. intros H. apply Forall_cons in H as [_ H].
      apply IH in H. discriminate.
    + destruct (HasPrefix reference kv.1) eqn:Hp.
      * split; [discriminate|]. intros H. apply Forall_cons in H as [H _]. congruence.
      * split; [|reflexivity]. intros _. constructor; [assumption | now apply IH].
Qed.

Lemma last_match_Some (reference : string) (order : list (string * string))
    (kv : string * string) :
  last_match reference order = Some kv -> kv ∈ order /\ HasPrefix reference kv.1 = true.
Proof.
  induction order as [|kv0 rest IH]; simpl; [discriminate|].
  destruct (last_match reference rest) eqn:Hl.
  - intros [= <-]. destruct (IH eq_refl) as [Hin Hp]. split; [now right | assumption].
  - destruct (HasPrefix reference kv0.1) eqn:Hp; [|discriminate].
    intros [= <-]. split; [now left | assumption].
Qed.

(** X1: when at most one pair of the overrides has a key that is a prefix
    of the reference, the rewritten reference does not depend on the order
    in which [range] visits the map. *)
Theorem override_order_irrelevant (reference : string)
    (order1 order2 : list (string * string)) :
  order1 ≡ₚ order2 ->
  (forall kv kv', kv ∈ order1 -> kv' ∈ order1 ->
     HasPrefix reference kv.1 = true -> HasPrefix reference kv'.1 = true -> kv = kv') ->
  applyOverrides reference order1 = applyOverrides reference order2.
Proof.
  intros Hperm Huniq. unfold applyOverrides. rewrite !fold_override_last.
  destruct (last_match reference order1) as [kv1|] eqn:H1;
    destruct (last_match reference order2) as [kv2|] eqn:H2.
  - apply last_match_Some in H1 as [Hin1 Hp1]. apply last_match_Some in H2 as [Hin2 Hp2].
    rewrite <- Hperm in Hin2. now rewrite (Huniq kv1 kv2).
  - apply last_match_Some in H1 as [Hin1 Hp1]. apply last_match_None in H2.
    rewrite Hperm in Hin1. rewrite Forall_forall in H2. specialize (H2 _ Hin1). congruence.
  - apply last_match_Some in H2 as [Hin2 Hp2]. apply last_match_None in H1.
    rewrite <- Hperm in Hin2. rewrite Forall_forall in H1. specialize (H1 _ Hin2). congruence.
  - reflexivity.
Qed.

Lemma override_order_irrelevant_witness :
  applyOverrides "docker.io/library/nginx"
    [("docker.io", "mirror.local"); ("ghcr.io", "mirror.local/ghcr")]
  = applyOverrides "docker.io/library/nginx"
      [("ghcr.io", "mirror.local/ghcr"); ("docker.io", "mirror.local")].
Proof.
  apply override_order_irrelevant.
  - apply perm_swap.
  - intros kv kv' Hin Hin' Hp Hp'.
    apply elem_of_cons in Hin as [->|Hin]; [|apply list_elem_of_singleton in Hin as ->];
      (apply elem_of_cons in Hin' as [->|Hin']; [|apply list_elem_of_singleton in Hin' as ->]);
      try reflexivity; vm_compute in Hp, Hp'; discriminate.
Defined.

End OverridesSpec.

(** ** More on the resolver: where the image comes from *)
Module SourceSpec.
Import GoStrings Overrides Resolver StringFacts.

Definition is_Warn (ev : Event) : bool :=
  match ev with
  | Warn _ => true
  | _ => false
  end.

(** X3: the fallback to the docker daemon, entered when [crane.Get] fails
    with anything but a 429. When the docker client cannot be made, the
    error is wrapped as "docker not available" and the daemon is not asked
    anything. When the inspection of the image fails, its error is returned
    as it is and [daemon.Image] is not called. Otherwise the image is
    opened under the parsed reference, after a second warning exactly when
    the inspected size is above 750,000,000 bytes. *)
Theorem daemon_fallback_steps (env : Remote) (cfg : PullConfig)
    (order : list (string * string)) (refInfo : Image) (reference : string) (err : error) :
  let ref := applyOverrides (Reference refInfo) order in
  is_tarball ref = false ->
  name_ParseReference env ref = Ok reference ->
  crane_Get env ref = Err err ->
  rate_limited err = false ->
  let out := resolveImage env cfg order refInfo [] in
  let entry := [Call_ParseReference ref; Call_crane_Get ref;
                Warn ("Falling back to local 'docker', failed to find the manifest on a remote: "
                      ++ Error err);
                Call_docker_NewClient] in
  (forall e, client_NewClientWithOpts env = Some e ->
     out = (entry, Err (Wrap "docker not available: " e)))
  /\ (forall e, client_NewClientWithOpts env = None ->
        cli_ImageInspectWithRaw env ref = Err e ->
        out = ((entry ++ [Call_docker_NegotiateAPIVersion; Call_docker_ImageInspect ref])%list,
               Err e))
  /\ (forall size, client_NewClientWithOpts env = None ->
        cli_ImageInspectWithRaw env ref = Ok size ->
        out.2 = match daemon_Image env reference with
                | Ok img => Ok (cache_Image img (CacheDirectory cfg))
                | Err e => Err (Wrap "failed to load from docker daemon: " e)
                end
        /\ (exists large,
              out.1 = (entry ++ [Call_docker_NegotiateAPIVersion; Call_docker_ImageInspect ref]
                         ++ large ++ [Call_daemon_Image reference])%list
              /\ Forall (fun ev => is_Warn ev = true) large
              /\ (length large = 1%nat <-> 750000000 < size)
              /\ (large = [] <-> size <= 750000000))).
Proof.
  intros ref Htar Hparse Hget Hrl out entry. subst out entry.
  unfold resolveImage, sourceImage. fold ref. rewrite Htar.
  unfold bind at 1 2 3. unfold emit at 1. simpl. rewrite Hparse. simpl.
  unfold bind at 1 2 3. unfold emit at 1. simpl. rewrite Hget, Hrl.
  unfold daemonFallback, rejectIndex, bind, emit, fail, ret, try, try_wrap; simpl.
  split; [|split].
  - intros e ->. reflexivity.
  - intros e -> ->. reflexivity.
  - intros size -> ->. simpl.
    change (750 * 1000 * 1000) with 750000000.
    destruct (750000000 <? size) eqn:Hcmp; simpl.
    + apply Z.ltb_lt in Hcmp.
      split; [destruct (daemon_Image env reference); reflexivity|].
      eexists [_]. split; [destruct (daemon_Image env reference); reflexivity|].
      split; [repeat constructor|]. split; [tauto|]. split; [discriminate | lia].
    + apply Z.ltb_ge in Hcmp.
      split; [destruct (daemon_Image env reference); reflexivity|].
      exists []. split; [destruct (daemon_Image env reference); reflexivity|].
      split; [constructor|]. split; [|tauto]. simpl. split; [discriminate | lia].
Qed.

Definition env_daemon (size : Z) : Remote :=
  {| crane_Load := fun _ => Err (Errorf "no such file");
     name_ParseReference := fun r => Ok ("index.docker.io/" ++ r);
     crane_Get := fun _ => Err (Errorf "MANIFEST_UNKNOWN: manifest unknown");
     crane_Pull := fun _ => Err (Errorf "unreachable");
     client_NewClientWithOpts := None;
     cli_ImageInspectWithRaw := fun _ => Ok size;
     daemon_Image := fun _ => Ok ResolverSpec.plain_image;
     json_Unmarshal := fun _ => Ok [];
     utils_ByteFormat := fun _ => "750 MB" |}.

Lemma daemon_fallback_steps_witness :
  let refInfo := mkImage "local/app:dev" "local/app" "dev" "" in
  let out := resolveImage (env_daemon 750000000) (ResolverSpec.cfg_one refInfo) [] refInfo [] in
  out.2 = Ok (cache_Image ResolverSpec.plain_image ["cache"; "images"])
  /\ length (filter (fun ev => is_Warn ev = true) out.1) = 1%nat.
Proof.
  intros refInfo out.
  destruct (daemon_fallback_steps (env_daemon 750000000) (ResolverSpec.cfg_one refInfo) []
              refInfo "index.docker.io/local/app:dev"
              (Errorf "MANIFEST_UNKNOWN: manifest unknown")
              eq_refl eq_refl eq_refl eq_refl) as (_ & _ & Hok).
  destruct (Hok 750000000 eq_refl eq_refl) as [Hres _].
  split; [exact Hres | reflexivity].
Defined.

(** X4: a reference without a digest is never rejected as an index,
    whatever the media type of its descriptor: the resolver succeeds
    exactly when the source stage does, with the same calls, and the image
    it returns is the source image wrapped by the layer cache of
    [cfg.CacheDirectory]. *)
Theorem undigested_reference_not_rejected (env : Remote) (cfg : PullConfig)
    (order : list (string * string)) (refInfo : Image) :
  Digest refInfo = "" ->
  resolveImage env cfg order refInfo []
  = match sourceImage env refInfo (applyOverrides (Reference refInfo) order) [] with
    | (tr, Ok src) => (tr, Ok (cache_Image src.1 (CacheDirectory cfg)))
    | (tr, Err e) => (tr, Err e)
    end.
Proof.
  intros Hd. unfold resolveImage, bind.
  destruct (sourceImage env refInfo _ []) as [tr [[img desc]|e]]; [|reflexivity].
  unfold rejectIndex. simpl. rewrite Hd. simpl. destruct desc; reflexivity.
Qed.

Lemma undigested_reference_not_rejected_witness :
  let refInfo := mkImage "registry/app:1" "registry/app" "1" "" in
  resolveImage (ResolverSpec.env_index (Ok ResolverSpec.plain_image))
    (ResolverSpec.cfg_one refInfo) [] refInfo []
  = ([Call_ParseReference "registry/app:1"; Call_crane_Get "registry/app:1";
      Call_crane_Pull "registry/app:1"],
     Ok (cache_Image ResolverSpec.plain_image ["cache"; "images"])).
Proof.
  intros refInfo.
  exact (undigested_reference_not_rejected
           (ResolverSpec.env_index (Ok ResolverSpec.plain_image))
           (ResolverSpec.cfg_one refInfo) [] refInfo eq_refl).
Defined.

End SourceSpec.

(** ** More on the fetch coordinator: what every execution keeps true *)
Module FetchReach.
Import GoStrings Overrides Resolver Fetch FetchSpec.
#[local] Open Scope list_scope.

(** *** Sums over the list of workers *)

Lemma sum_imap_insert {A : Type} (f : nat -> A -> nat) (l : list A) (i : nat) (w w' : A) :
  l !! i = Some w ->
  (sum_list (imap f (<[i := w']> l)) + f i w = sum_list (imap f l) + f i w')%nat.
Proof.
  revert f i. induction l as [|x l IH]; intros f i Hi; [discriminate|].
  destruct i as [|i]; simpl in *.
  - injection Hi as ->. lia.
  - specialize (IH (f ∘ S) i Hi). simpl in IH. lia.
Qed.

Lemma sumZ_imap_insert {A : Type} (f : nat -> A -> Z) (l : list A) (i : nat) (w w' : A) :
  l !! i = Some w ->
  sumZ (imap f (<[i := w']> l)) + f i w = sumZ (imap f l) + f i w'.
Proof.
  revert f i. induction l as [|x l IH]; intros f i Hi; [discriminate|].
  destruct i as [|i]; simpl in *.
  - injection Hi as ->. lia.
  - specialize (IH (f ∘ S) i Hi). simpl in IH. lia.
Qed.

Lemma sumZ_app (a b : list Z) : sumZ (a ++ b) = sumZ a + sumZ b.
Proof. induction a as [|x a IH]; simpl; [lia|]. rewrite IH. lia. Qed.

(** What a list of workers gives through [f], when one of them moves. *)
Lemma omap_moved {A B : Type} (f : A -> option B) (l : list A) (i : nat) (w w' : A) :
  l !! i = Some w ->
  option_list (f w) ++ omap f (<[i := w']> l) ≡ₚ option_list (f w') ++ omap f l.
Proof.
  assert (Hcons : forall x k, omap f (x :: k) = option_list (f x) ++ omap f k).
  { intros x k. simpl. destruct (f x); reflexivity. }
  revert i. induction l as [|x l IH]; intros i Hi; [discriminate|].
  destruct i as [|i]; simpl in Hi.
  - injection Hi as ->. change (<[0%nat := w']> (w :: l)) with (w' :: l).
    rewrite !Hcons. apply Permutation_app_swap_app.
  - change (<[S i := w']> (x :: l)) with (x :: <[i := w']> l).
    rewrite !Hcons. rewrite Permutation_app_swap_app, (IH i Hi).
    apply Permutation_app_swap_app.
Qed.

(** *** The resolver never touches the spinner *)

Definition spinner_update (ev : Event) : option (Z * Z) :=
  match ev with
  | SpinnerUpdate idx total => Some (idx, total)
  | _ => None
  end.

(** The updates of the spinner, in the order of the trace. *)
Definition spinner_updates (tr : list Event) : list (Z * Z) := omap spinner_update tr.

Definition quiet {A : Type} (m : M A) : Prop :=
  forall tr, exists tr', (m tr).1 = tr ++ tr' /\ spinner_updates tr' = [].

Lemma quiet_ret {A : Type} (a : A) : quiet (ret a).
Proof. intros tr. exists []. now rewrite app_nil_r. Qed.

Lemma quiet_fail {A : Type} (e : error) : quiet (@fail A e).
Proof. intros tr. exists []. now rewrite app_nil_r. Qed.

Lemma quiet_emit (ev : Event) : spinner_update ev = None -> quiet (emit ev).
Proof. intros Hev tr. exists [ev]. split; [reflexivity|]. unfold spinner_updates. simpl. now rewrite Hev. Qed.

Lemma quiet_try {A : Type} (r : result A) : quiet (try r).
Proof. destruct r; [apply quiet_ret | apply quiet_fail]. Qed.

Lemma quiet_try_wrap {A : Type} (msg : string) (r : result A) : quiet (try_wrap msg r).
Proof. destruct r; [apply quiet_ret | apply quiet_fail]. Qed.

Lemma quiet_bind {A B : Type} (m : M A) (k : A -> M B) :
  quiet m -> (forall a, quiet (k a)) -> quiet (bind m k).
Proof.
  intros Hm Hk tr. unfold bind. destruct (Hm tr) as (tr1 & H1 & Hq1).
  destruct (m tr) as [tr' [a|e]]; simpl in H1; subst tr'.
  - destruct (Hk a (tr ++ tr1)) as (tr2 & H2 & Hq2). exists (tr1 ++ tr2).
    rewrite H2, <- app_assoc. split; [reflexivity|].
    unfold spinner_updates in *. now rewrite omap_app, Hq1, Hq2.
  - exists tr1. auto.
Qed.

Ltac quiet_steps :=
  repeat first
    [ apply quiet_ret | apply quiet_fail | apply quiet_try | apply quiet_try_wrap
    | apply quiet_emit; reflexivity
    | apply quiet_bind; [|intros ?]
    | match goal with
      | |- quiet (match ?x with _ => _ end) => destruct x
      end ].

Lemma quiet_resolveImage (env : Remote) (cfg : PullConfig) (order : list (string * string))
    (refInfo : Image) : quiet (resolveImage env cfg order refInfo).
Proof. unfold resolveImage, sourceImage, daemonFallback, rejectIndex. quiet_steps. Qed.

Lemma prepare_trace (env : Remote) (cfg : PullConfig) (order : list (string * string))
    (refInfo : Image) : spinner_updates (prepare env cfg order refInfo).1 = [].
Proof.
  destruct (quiet_resolveImage env cfg order refInfo []) as (tr' & Htr & Hq).
  unfold prepare. destruct (resolveImage env cfg order refInfo []) as [tr [img|e]];
    simpl in Htr; subst tr; exact Hq.
Qed.

(** What [examine] hands to the rest of the worker. *)
Lemma examine_ready (refInfo : Image) (img0 img : v1Image) (c : Z) (ls : list Layer) :
  examine refInfo img0 = PrepReady img c ls ->
  img = img0 /\ img_Manifest img = Ok (mkManifest c) /\ img_Layers img = Ok ls.
Proof.
  unfold examine. destruct (img_Manifest img0) as [[c0]|e] eqn:Hm; [|discriminate].
  destruct (img_Layers img0) as [ls0|e] eqn:Hl; [|discriminate].
  intros [= <- <- <-]. auto.
Qed.

(** What [prepare] hands to the rest of the worker: the image is the one
    the resolver returned, wrapped by the layer cache. *)
Lemma prepare_ready (env : Remote) (cfg : PullConfig) (order : list (string * string))
    (refInfo : Image) (tr : list Event) (img : v1Image) (c : Z) (ls : list Layer) :
  prepare env cfg order refInfo = (tr, PrepReady img c ls) ->
  resolveImage env cfg order refInfo [] = (tr, Ok img)
  /\ img_Manifest img = Ok (mkManifest c) /\ img_Layers img = Ok ls
  /\ img_cache img = Some (CacheDirectory cfg).
Proof.
  unfold prepare. destruct (resolveImage env cfg order refInfo []) as [tr0 [img0|e]] eqn:Hres;
    [|discriminate].
  intros [= <- Hex]. destruct (examine_ready _ _ _ _ _ Hex) as (-> & Hm & Hl).
  repeat split; try assumption.
  revert Hres. unfold resolveImage, bind.
  destruct (sourceImage env refInfo _ []) as [tr1 [src|e]]; [|discriminate].
  destruct (rejectIndex env refInfo src.2 tr1) as [tr2 [[]|e]]; [|discriminate].
  unfold ret. intros [= _ <-]. reflexivity.
Qed.

Section Reach.
Variable env : Remote.
Variable cfg : PullConfig.
Variable orders : nat -> list (string * string).

(** [e0] is the error [crane.Load] gives to a worker of the batch. *)
Definition load_error_in_batch (e0 : error) : Prop :=
  exists j refInfo,
    ImageList cfg !! j = Some refInfo
    /\ is_tarball (applyOverrides (Reference refInfo) (orders j)) = true
    /\ crane_Load env (applyOverrides (Reference refInfo) (orders j)) = Err e0.

(** A load of the batch that succeeds. *)
Definition load_ok_in_batch : Prop :=
  exists j refInfo img,
    ImageList cfg !! j = Some refInfo
    /\ is_tarball (applyOverrides (Reference refInfo) (orders j)) = true
    /\ crane_Load env (applyOverrides (Reference refInfo) (orders j)) = Ok img.

(** Why worker [i] may have returned the error [e]: its image could not be
    prepared; or a layer of its image gave no digest or no size; or, on the
    tarball path, [err] was not nil when the worker tested it, and [e] is
    made from what [err] was when it was read again: nil, or the error of a
    load of the batch, its own or another worker's. *)
Definition worker_error (i : nat) (e : error) : Prop :=
  exists refInfo,
    ImageList cfg !! i = Some refInfo
    /\ ((exists tr added, prepare env cfg (orders i) refInfo = (tr, PrepFailed e added))
        \/ (is_tarball (applyOverrides (Reference refInfo) (orders i)) = true
            /\ exists read,
                 e = load_failure refInfo read
                 /\ forall e0, read = Some e0 -> load_error_in_batch e0)
        \/ (exists tr img c ls l cause,
              prepare env cfg (orders i) refInfo = (tr, PrepReady img c ls)
              /\ l ∈ ls
              /\ ((layer_Digest l = Err cause
                   /\ e = Wrap "unable to get digest for image layer: " cause)
                  \/ (layer_Size l = Err cause
                      /\ e = Wrap "unable to get size for image layer: " cause)))).

Definition started (w : Worker) : nat :=
  match w with
  | Queued => 0
  | _ => 1
  end.

(** The number of workers that have taken their index. *)
Definition started_count (s : State) : nat := sum_list (imap (fun _ => started) (workers s)).

(** The update of the spinner a worker has still to make for the index it
    has taken. *)
Definition pending_update (w : Worker) : option (Z * Z) :=
  match w with
  | Counted idx => Some (idx, Z.of_nat (length (ImageList cfg)))
  | _ => None
  end.

Definition pending_updates (s : State) : list (Z * Z) := omap pending_update (workers s).

(** What worker [i] adds to [totalBytes] for the config blob of its image,
    when it gets as far. *)
Definition config_charge (i : nat) : Z :=
  match ImageList cfg !! i with
  | Some refInfo =>
      match (prepare env cfg (orders i) refInfo).2 with
      | PrepReady _ c _ => c
      | PrepFailed _ (Some c) => c
      | PrepFailed _ None => 0
      end
  | None => 0
  end.

Definition config_part (i : nat) (w : Worker) : Z :=
  match w with
  | Queued | Counted _ | Started | Loaded _ | Reporting | Panicked => 0
  | _ => config_charge i
  end.

(** The steps a worker still has to take, at most, when it is about to go
    on with [p]. *)
Definition ready_work (p : Prepared) : nat :=
  match p with
  | PrepReady _ _ ls => 3 * length ls + 3
  | PrepFailed _ _ => 1
  end.

Definition loaded_work (i : nat) (o : option v1Image) : nat :=
  match ImageList cfg !! i, o with
  | Some refInfo, Some img0 =>
      Nat.max 2 (ready_work (examine refInfo (cache_Image img0 (CacheDirectory cfg))))
  | _, _ => 2
  end.

Definition budget (i : nat) : nat :=
  match ImageList cfg !! i with
  | Some refInfo =>
      if is_tarball (applyOverrides (Reference refInfo) (orders i))
      then S (loaded_work i (loaded_image
                               (crane_Load env (applyOverrides (Reference refInfo) (orders i)))))
      else ready_work (prepare env cfg (orders i) refInfo).2
  | None => 0
  end.

Definition work (i : nat) (w : Worker) : nat :=
  match w with
  | Queued => budget i + 2
  | Counted _ => budget i + 1
  | Started => budget i
  | Loaded o => loaded_work i o
  | Reporting => 1
  | AwaitLock _ ls => 3 * length ls + 2
  | AtLayer _ _ rest => 3 * length rest + 1
  | Inserting _ _ _ _ rest => 3 * length rest + 3
  | Sizing _ _ _ _ rest => 3 * length rest + 2
  | Returned _ => 0
  | Panicked => 0
  end.

Definition total_work (s : State) : nat := sum_list (imap work (workers s)).

Record Reach (s : State) : Prop := mkReach {
  r_inv : Inv env cfg orders s;
  r_len : length (workers s) = length (ImageList cfg);
  r_lock : forall i, shaLock (shared s) = Some i ->
           exists w, workers s !! i = Some w /\ in_cs w = true;
  r_first : forall e, firstErr (shared s) = Some e ->
            exists i, workers s !! i = Some (Returned (Some e));
  r_cause : forall i e, workers s !! i = Some (Returned (Some e)) -> worker_error i e;
  r_fetched : forall k v, fetched (shared s) !! k = Some v ->
              exists i ls, ImageList cfg !! i = Some k /\ prepared_as env cfg orders i v ls;
  r_done : forall i k, ImageList cfg !! i = Some k ->
           workers s !! i = Some (Returned None) -> is_Some (fetched (shared s) !! k);
  r_charges : forall d sz, (d, sz) ∈ charges (shared s) ->
              exists i img ls l h,
                prepared_as env cfg orders i img ls /\ l ∈ ls
                /\ layer_Digest l = Ok h /\ Hex h = d /\ layer_Size l = Ok sz;
  r_err : forall e0, err (shared s) = Some e0 -> load_error_in_batch e0;
  r_reset : forall i, workers s !! i = Some (Loaded None) -> err (shared s) = None ->
            load_ok_in_batch;
  r_panic : forall i, workers s !! i = Some Panicked ->
            loaded_as env cfg orders i None /\ load_ok_in_batch;
  r_counter : counter (shared s) = wrap64 (Z.of_nat (started_count s));
  r_spinner : spinner_updates (trace (shared s)) ++ pending_updates s
              ≡ₚ map (fun k => (wrap64 (Z.of_nat k), Z.of_nat (length (ImageList cfg))))
                     (seq 1 (started_count s));
  r_configs : firstErr (shared s) = None ->
              sumZ (configs (shared s)) = sumZ (imap config_part (workers s))
}.

(** The cases of a step of worker [i], with the equations of each. *)
Ltac fetch_step H :=
  unfold step in H;
  match type of H with
  | context [ImageList ?c !! ?i] =>
      let refInfo := fresh "refInfo" in
      destruct (ImageList c !! i) as [refInfo|] eqn:Hi; [|discriminate H]
  end;
  match type of H with
  | context [workers ?s !! ?i] =>
      let w := fresh "w" in
      destruct (workers s !! i) as [w|] eqn:Hw; [|discriminate H];
      destruct w as [|idx| |o| |img ls|img done [|l rest]|img done l h rest
                    |img done l h rest|r|]
  end;
  [ match type of H with
    | context [(?a <? ?b)%nat] => destruct (a <? b)%nat eqn:Hlimit; [|discriminate H]
    end
  | idtac
  | match type of H with
    | context [is_tarball ?x] => destruct (is_tarball x) eqn:Htar
    end;
    [ idtac
    | match type of H with
      | context [prepare ?e ?c ?o ?r] =>
          destruct (prepare e c o r) as [tr [e0 added|img c0 ls]] eqn:Hprep
      end; unfold prepared in H ]
  | match type of H with
    | context [err ?sh] => destruct (err sh) as [e1|] eqn:Herr
    end;
    [ idtac
    | match type of H with
      | match ?x with _ => _ end = _ => destruct x as [img0|]
      end;
      [ match type of H with
        | context [examine ?r ?x] =>
            destruct (examine r x) as [e0 added|img c0 ls] eqn:Hexam
        end; unfold prepared in H
      | idtac ] ]
  | idtac
  | match type of H with
    | context [shaLock ?sh] => destruct (shaLock sh) eqn:Hlock; [discriminate H|]
    end
  | idtac
  | match type of H with
    | context [layer_Digest ?x] => destruct (layer_Digest x) as [h|e0] eqn:Hd
    end;
    [ match type of H with
      | context [shas ?sh !! ?k] => destruct (shas sh !! k) as [b|] eqn:Hs
      end
    | idtac ]
  | idtac
  | match type of H with
    | context [layer_Size ?x] => destruct (layer_Size x) as [size|e0] eqn:Hsz
    end
  | discriminate H
  | discriminate H ];
  injection H as <-.

Lemma lookup_moved (l : list Worker) (i j : nat) (w w' : Worker) :
  l !! i = Some w ->
  <[i := w']> l !! j = if decide (i = j) then Some w' else l !! j.
Proof.
  intros Hi. rewrite list_lookup_insert. apply lookup_lt_Some in Hi.
  destruct (decide (i = j)) as [->|Hne].
  - now rewrite decide_True.
  - rewrite decide_False; [reflexivity | tauto].
Qed.

(** The image a worker on the tarball path goes on with is the one
    [prepare] gives. *)
Lemma loaded_prepare (i : nat) (refInfo : Image) (img0 : v1Image) :
  ImageList cfg !! i = Some refInfo ->
  loaded_as env cfg orders i (Some img0) ->
  prepare env cfg (orders i) refInfo
  = ([Call_crane_Load (applyOverrides (Reference refInfo) (orders i))],
     examine refInfo (cache_Image img0 (CacheDirectory cfg))).
Proof.
  intros Hi (refInfo' & Hi' & Htar & Ho). rewrite Hi in Hi'. injection Hi' as <-.
  apply prepare_tarball; [exact Htar|].
  destruct (crane_Load env _) as [img1|e1]; [|discriminate Ho]. now injection Ho as ->.
Qed.

Lemma step_lock (i : nat) (s s' : State) :
  Reach s -> step env cfg orders i s = Some s' ->
  forall j, shaLock (shared s') = Some j ->
  exists w, workers s' !! j = Some w /\ in_cs w = true.
Proof.
  intros HR Hstep j. pose proof (r_lock _ HR j) as Hold.
  fetch_step Hstep; simpl; rewrite (lookup_moved _ _ j _ _ Hw); intros Hj;
    try discriminate Hj;
    try (injection Hj as <-; rewrite decide_True by reflexivity; eauto; fail);
    (destruct (Hold Hj) as (wj & Hwj & Hcs);
     destruct (decide (i = j)) as [<-|Hne];
     [rewrite Hw in Hwj; injection Hwj as <-; try discriminate Hcs; eauto | eauto]).
Qed.

Lemma step_first (i : nat) (s s' : State) :
  Reach s -> step env cfg orders i s = Some s' ->
  forall e, firstErr (shared s') = Some e ->
  exists j, workers s' !! j = Some (Returned (Some e)).
Proof.
  intros HR Hstep e. pose proof (r_first _ HR e) as Hold.
  assert (Hkeep : firstErr (shared s) = Some e ->
                  forall w', exists j, <[i := w']> (workers s) !! j = Some (Returned (Some e))).
  { intros He w'. destruct (Hold He) as [j Hj]. exists j.
    destruct (workers s !! i) as [w|] eqn:Hw.
    - rewrite (lookup_moved _ _ j _ _ Hw). destruct (decide (i = j)) as [<-|]; [|exact Hj].
      exfalso. unfold step in Hstep. rewrite Hw in Hstep. rewrite Hj in Hw. injection Hw as <-.
      destruct (ImageList cfg !! i); discriminate.
    - rewrite list_insert_ge; [exact Hj|]. now apply lookup_ge_None. }
  fetch_step Hstep; simpl; intros He; try (apply Hkeep; exact He);
    (destruct (firstErr (shared s)) as [e9|] eqn:Hfe;
     [apply Hkeep; exact He
     | try discriminate He; injection He as <-; exists i;
       rewrite (lookup_moved _ _ i _ _ Hw); now rewrite decide_True]).
Qed.

Lemma step_cause (i : nat) (s s' : State) :
  Reach s -> step env cfg orders i s = Some s' ->
  forall j e, workers s' !! j = Some (Returned (Some e)) -> worker_error j e.
Proof.
  intros HR Hstep j e. pose proof (r_cause _ HR j e) as Hold.
  pose proof (r_inv _ HR) as HI. pose proof (r_err _ HR) as Herr0.
  fetch_step Hstep; pose proof (inv_workers _ _ _ _ HI i _ Hw) as Hok; simpl in Hok |- *;
    rewrite (lookup_moved _ _ j _ _ Hw);
    (destruct (decide (i = j)) as [<-|Hne]; [|exact Hold]); intros [= <-].
  - exists refInfo. split; [assumption|]. left. eauto.
  - exists refInfo. split; [assumption|]. left.
    rewrite (loaded_prepare i refInfo img0 Hi Hok), Hexam. eauto.
  - destruct Hok as (o & refInfo' & Hi' & Htar & _).
    rewrite Hi in Hi'. injection Hi' as <-.
    exists refInfo. split; [assumption|]. right. left. split; [exact Htar|].
    exists (err (shared s)). split; [reflexivity | exact Herr0].
  - destruct Hok as ((refInfo' & tr & c & Hi' & Hprep) & _).
    exists refInfo'. split; [assumption|]. right. right.
    exists tr, img, c, (done ++ l :: rest), l, e0. split; [assumption|].
    split; [apply elem_of_app; right; now left | now left].
  - destruct Hok as ((refInfo' & tr & c & Hi' & Hprep) & _).
    exists refInfo'. split; [assumption|]. right. right.
    exists tr, img, c, (done ++ l :: rest), l, e0. split; [assumption|].
    split; [apply elem_of_app; right; now left | now right].
Qed.

Lemma step_fetched (i : nat) (s s' : State) :
  Reach s -> step env cfg orders i s = Some s' ->
  forall k v, fetched (shared s') !! k = Some v ->
  exists j ls, ImageList cfg !! j = Some k /\ prepared_as env cfg orders j v ls.
Proof.
  intros HR Hstep k v. pose proof (r_fetched _ HR k v) as Hold.
  pose proof (r_inv _ HR) as HI.
  fetch_step Hstep; pose proof (inv_workers _ _ _ _ HI i _ Hw) as Hok; simpl in Hok |- *;
    try exact Hold.
  rewrite lookup_insert. destruct (decide (refInfo = k)) as [<-|Hne]; [|exact Hold].
  intros [= <-]. destruct Hok as (Hp & _). exists i, (done ++ []). auto.
Qed.

Lemma step_done (i : nat) (s s' : State) :
  Reach s -> step env cfg orders i s = Some s' ->
  forall j k, ImageList cfg !! j = Some k -> workers s' !! j = Some (Returned None) ->
  is_Some (fetched (shared s') !! k).
Proof.
  intros HR Hstep j k Hk. pose proof (r_done _ HR j k Hk) as Hold.
  fetch_step Hstep; simpl; rewrite (lookup_moved _ _ j _ _ Hw);
    (destruct (decide (i = j)) as [<-|Hne]; [try discriminate|]); try exact Hold.
  - intros _. rewrite Hi in Hk. injection Hk as <-. rewrite lookup_insert_eq. eauto.
  - intros Hj. rewrite lookup_insert. destruct (decide (refInfo = k)); eauto.
Qed.

Lemma step_charges (i : nat) (s s' : State) :
  Reach s -> step env cfg orders i s = Some s' ->
  forall d sz, (d, sz) ∈ charges (shared s') ->
  exists j img ls l h,
    prepared_as env cfg orders j img ls /\ l ∈ ls
    /\ layer_Digest l = Ok h /\ Hex h = d /\ layer_Size l = Ok sz.
Proof.
  intros HR Hstep d sz. pose proof (r_charges _ HR d sz) as Hold.
  pose proof (r_inv _ HR) as HI.
  fetch_step Hstep; pose proof (inv_workers _ _ _ _ HI i _ Hw) as Hok; simpl in Hok |- *;
    try exact Hold.
  intros [Hin|Hnew%list_elem_of_singleton]%elem_of_app; [now apply Hold|].
  injection Hnew as -> ->. destruct Hok as (Hp & _ & _ & Hdig & _).
  exists i, img, (done ++ l :: rest), l, h. repeat split; auto.
  apply elem_of_app. right. now left.
Qed.

(** [err] only ever holds the error of a load of the batch. *)
Lemma step_err (i : nat) (s s' : State) :
  Reach s -> step env cfg orders i s = Some s' ->
  forall cause, err (shared s') = Some cause -> load_error_in_batch cause.
Proof.
  intros HR Hstep cause. pose proof (r_err _ HR cause) as Hold.
  fetch_step Hstep; simpl; try exact Hold; try (rewrite Herr; exact Hold).
  intros He. exists i, refInfo. split; [exact Hi|]. split; [exact Htar|].
  destruct (crane_Load env _) as [img1|e1]; [discriminate He|]. now injection He as ->.
Qed.

(** A worker that holds a nil image while [err] is nil: a load that
    succeeded has assigned [err] after its own. *)
Lemma step_reset (i : nat) (s s' : State) :
  Reach s -> step env cfg orders i s = Some s' ->
  forall j, workers s' !! j = Some (Loaded None) -> err (shared s') = None ->
  load_ok_in_batch.
Proof.
  intros HR Hstep j. pose proof (r_reset _ HR j) as Hold.
  fetch_step Hstep; simpl; rewrite (lookup_moved _ _ j _ _ Hw);
    (destruct (decide (i = j)) as [<-|Hne]; [try discriminate|]);
    try exact Hold; try (rewrite Herr; exact Hold).
  - destruct (crane_Load env _) as [img1|e1]; discriminate.
  - intros _ He. exists i, refInfo.
    destruct (crane_Load env _) as [img1|e1] eqn:Hload; [eauto | discriminate He].
Qed.

Lemma step_panic (i : nat) (s s' : State) :
  Reach s -> step env cfg orders i s = Some s' ->
  forall j, workers s' !! j = Some Panicked ->
  loaded_as env cfg orders j None /\ load_ok_in_batch.
Proof.
  intros HR Hstep j. pose proof (r_panic _ HR j) as Hold.
  pose proof (r_inv _ HR) as HI. pose proof (r_reset _ HR i) as Hreset.
  fetch_step Hstep; pose proof (inv_workers _ _ _ _ HI i _ Hw) as Hok; simpl in Hok |- *;
    rewrite (lookup_moved _ _ j _ _ Hw);
    (destruct (decide (i = j)) as [<-|Hne]; [try discriminate|exact Hold]).
  intros _. split; [exact Hok | now apply Hreset].
Qed.

Lemma started_count_moved (s s1 : State) (i : nat) (w w' : Worker) :
  workers s !! i = Some w ->
  workers s1 = <[i := w']> (workers s) ->
  (started_count s1 + started w = started_count s + started w')%nat.
Proof. intros Hw Heq. unfold started_count. rewrite Heq. now apply sum_imap_insert. Qed.

Lemma pending_moved (s s1 : State) (i : nat) (w w' : Worker) :
  workers s !! i = Some w ->
  workers s1 = <[i := w']> (workers s) ->
  option_list (pending_update w) ++ pending_updates s1
  ≡ₚ option_list (pending_update w') ++ pending_updates s.
Proof. intros Hw Heq. unfold pending_updates. rewrite Heq. now apply omap_moved. Qed.

Lemma step_spinner (i : nat) (s s' : State) :
  Reach s -> step env cfg orders i s = Some s' ->
  counter (shared s') = wrap64 (Z.of_nat (started_count s'))
  /\ spinner_updates (trace (shared s')) ++ pending_updates s'
     ≡ₚ map (fun k => (wrap64 (Z.of_nat k), Z.of_nat (length (ImageList cfg))))
            (seq 1 (started_count s')).
Proof.
  intros HR Hstep. pose proof (r_counter _ HR) as Hc. pose proof (r_spinner _ HR) as Hsp.
  fetch_step Hstep; unfold return_with;
    match goal with
    | |- context [started_count ?s1] =>
        pose proof (started_count_moved s s1 i _ _ Hw eq_refl) as Hn;
        pose proof (pending_moved s s1 i _ _ Hw eq_refl) as Hp
    end; simpl in Hn, Hp |- *.
  3-18: replace (started_count _) with (started_count s) by lia;
    (split; [exact Hc|]); rewrite Hp;
    unfold spinner_updates in *; rewrite ?omap_app;
    try (pose proof (prepare_trace env cfg (orders i) refInfo) as Hq;
         rewrite Hprep in Hq; unfold spinner_updates in Hq; simpl in Hq; rewrite Hq);
    simpl; rewrite ?app_nil_r; exact Hsp.
  - (* the index is taken *)
    match goal with
    | |- context [started_count ?s1] => replace (started_count s1) with (S (started_count s)) by lia
    end.
    split; [rewrite Hc, wrap64_add; f_equal; lia|].
    rewrite seq_S, map_app. simpl. rewrite Hp, <- Hsp, <- Permutation_middle.
    rewrite <- Permutation_cons_append.
    replace (int64_add (counter (shared s)) 1)
      with (wrap64 (Z.of_nat (1 + started_count s))); [reflexivity|].
    rewrite Hc, wrap64_add. f_equal. lia.
  - (* the spinner is told *)
    replace (started_count _) with (started_count s) by lia.
    split; [exact Hc|]. rewrite <- Hsp, <- Hp.
    unfold spinner_updates. rewrite omap_app. simpl.
    rewrite <- app_assoc. reflexivity.
Qed.

Lemma config_charge_failed (i : nat) (refInfo : Image) (tr : list Event) (e : error)
    (added : option Z) :
  ImageList cfg !! i = Some refInfo ->
  prepare env cfg (orders i) refInfo = (tr, PrepFailed e added) ->
  config_charge i = default 0 added.
Proof. intros Hi Hp. unfold config_charge. rewrite Hi, Hp. now destruct added. Qed.

Lemma config_charge_ready (i : nat) (refInfo : Image) (tr : list Event) (img : v1Image)
    (c : Z) (ls : list Layer) :
  ImageList cfg !! i = Some refInfo ->
  prepare env cfg (orders i) refInfo = (tr, PrepReady img c ls) ->
  config_charge i = c.
Proof. intros Hi Hp. unfold config_charge. now rewrite Hi, Hp. Qed.

Lemma step_configs (i : nat) (s s' : State) :
  Reach s -> step env cfg orders i s = Some s' ->
  firstErr (shared s') = None ->
  sumZ (configs (shared s')) = sumZ (imap config_part (workers s')).
Proof.
  intros HR Hstep. pose proof (r_configs _ HR) as Hc.
  pose proof (r_inv _ HR) as HI.
  fetch_step Hstep; pose proof (inv_workers _ _ _ _ HI i _ Hw) as Hok;
    unfold return_with; simpl; intros Hnone;
    (destruct (firstErr (shared s)) as [e9|] eqn:Hfe; [discriminate Hnone|]);
    try discriminate Hnone; specialize (Hc eq_refl);
    match goal with
    | |- context [<[i := ?w']> (workers s)] =>
        pose proof (sumZ_imap_insert config_part (workers s) i _ w' Hw) as Hn
    end; simpl in Hn; try lia.
  - rewrite (config_charge_ready i refInfo tr img c0 ls Hi Hprep) in Hn.
    rewrite sumZ_app. simpl. lia.
  - rewrite (config_charge_ready i refInfo _ img c0 ls Hi
               (eq_trans (loaded_prepare i refInfo img0 Hi Hok)
                         (f_equal (pair _) Hexam))) in Hn.
    rewrite sumZ_app. simpl. lia.
Qed.

Lemma step_reach (i : nat) (s s' : State) :
  Reach s -> step env cfg orders i s = Some s' -> Reach s'.
Proof.
  intros HR Hstep. destruct (step_spinner i s s' HR Hstep) as [Hc Hsp]. constructor.
  - eapply step_inv; [apply (r_inv _ HR) | exact Hstep].
  - rewrite (step_length env cfg orders i s s' Hstep). apply (r_len _ HR).
  - eapply step_lock; eassumption.
  - eapply step_first; eassumption.
  - eapply step_cause; eassumption.
  - eapply step_fetched; eassumption.
  - eapply step_done; eassumption.
  - eapply step_charges; eassumption.
  - eapply step_err; eassumption.
  - eapply step_reset; eassumption.
  - eapply step_panic; eassumption.
  - exact Hc.
  - exact Hsp.
  - eapply step_configs; eassumption.
Qed.

Lemma init_reach : Reach (init cfg).
Proof.
  assert (Hq : forall i w, workers (init cfg) !! i = Some w -> w = Queued).
  { intros i w Hw. simpl in Hw. now apply lookup_replicate in Hw as [-> _]. }
  assert (Hzero : forall (n k : nat) (f : nat -> Worker -> nat),
            (forall j, f j Queued = 0%nat) -> sum_list (imap f (replicate n Queued)) = 0%nat).
  { intros n. induction n as [|n IH]; intros k f Hf; simpl; [reflexivity|].
    rewrite Hf, (IH k); [reflexivity|]. intros j. apply Hf. }
  assert (HzeroZ : forall (n : nat) (f : nat -> Worker -> Z),
            (forall j, f j Queued = 0) -> sumZ (imap f (replicate n Queued)) = 0).
  { intros n. induction n as [|n IH]; intros f Hf; simpl; [reflexivity|].
    rewrite Hf, IH; [reflexivity|]. intros j. apply Hf. }
  assert (Hn : started_count (init cfg) = 0%nat).
  { unfold started_count. simpl. apply (Hzero _ 0%nat). reflexivity. }
  assert (Hp : pending_updates (init cfg) = []).
  { unfold pending_updates. simpl. induction (length (ImageList cfg)) as [|n IH]; simpl; auto. }
  constructor.
  - apply init_inv.
  - simpl. apply length_replicate.
  - simpl. discriminate.
  - simpl. discriminate.
  - intros i e Hw. apply Hq in Hw. discriminate.
  - simpl. intros k v Hk. by rewrite lookup_empty in Hk.
  - intros i k _ Hw. apply Hq in Hw. discriminate.
  - simpl. intros d sz Hin. by apply elem_of_nil in Hin.
  - simpl. discriminate.
  - intros i Hw. apply Hq in Hw. discriminate.
  - intros i Hw. apply Hq in Hw. discriminate.
  - rewrite Hn. reflexivity.
  - rewrite Hn, Hp. reflexivity.
  - intros _. simpl. symmetry. apply HzeroZ. reflexivity.
Qed.

Lemma run_reach (sched : list nat) (s : State) :
  Reach s -> Reach (run env cfg orders sched s).
Proof.
  revert s. induction sched as [|i sched IH]; intros s HR; simpl; [assumption|].
  apply IH. destruct (step env cfg orders i s) as [s'|] eqn:Hstep; simpl; [|assumption].
  eapply step_reach; eassumption.
Qed.

Lemma run_app (a b : list nat) (s : State) :
  run env cfg orders (a ++ b) s = run env cfg orders b (run env cfg orders a s).
Proof. revert s. induction a as [|i a IH]; intros s; simpl; [reflexivity | apply IH]. Qed.

(** Every worker has returned exactly when [eg.Wait()] has a result. *)
Lemma fetch_result_Some (s : State) :
  fetch_result s <> None <->
  forall i w, workers s !! i = Some w -> exists r, w = Returned r.
Proof.
  unfold fetch_result. destruct (forallb is_Returned (workers s)) eqn:Hall.
  - split; [|intros _; destruct (firstErr (shared s)); discriminate].
    intros _ i w Hw.
    assert (Hr : is_Returned w = true).
    { eapply (proj1 (forallb_forall _ _) Hall), list_elem_of_In, list_elem_of_lookup_2, Hw. }
    destruct w; try discriminate. eauto.
  - split; [congruence|]. intros Hret. exfalso.
    assert (Htrue : forallb is_Returned (workers s) = true).
    { apply forallb_forall. intros w Hin. apply list_elem_of_In in Hin.
      apply list_elem_of_lookup_1 in Hin as [i Hi]. destruct (Hret i w Hi) as [r ->]. reflexivity. }
    congruence.
Qed.

Lemma panicked_true (s : State) :
  panicked s = true <-> exists i, workers s !! i = Some Panicked.
Proof.
  unfold panicked. rewrite existsb_exists. split.
  - intros (w & Hin & Hp). destruct w; try discriminate.
    apply list_elem_of_In, list_elem_of_lookup_1 in Hin. exact Hin.
  - intros [i Hi]. exists Panicked. split; [|reflexivity].
    eapply list_elem_of_In, list_elem_of_lookup_2, Hi.
Qed.

Lemma panicked_false (s : State) :
  panicked s = false <-> forall i, workers s !! i <> Some Panicked.
Proof.
  destruct (panicked s) eqn:Hp.
  - apply panicked_true in Hp as [i Hi]. split; [discriminate|]. intros H. now destruct (H i).
  - split; [|reflexivity]. intros _ i Hi.
    assert (panicked s = true) by (apply panicked_true; eauto). congruence.
Qed.

(** The fetch is not over and no worker has panicked: the first worker that
    has not returned is still on its way, and all before it have given
    their places back. *)
Lemma live_worker (s : State) :
  fetch_result s = None -> panicked s = false ->
  exists i w, workers s !! i = Some w /\ is_Returned w = false /\ is_Panicked w = false
              /\ active_before i s = 0%nat.
Proof.
  unfold fetch_result, panicked, active_before.
  destruct (forallb is_Returned (workers s)) eqn:Hall; [discriminate|]. intros _.
  induction (workers s) as [|w l IH]; [discriminate|].
  simpl in Hall |- *. intros [Hw Hl]%orb_false_iff. destruct (is_Returned w) eqn:Hr.
  - destruct (IH Hall Hl) as (i & w' & Hi & Hr' & Hp' & Hn). exists (S i), w'.
    repeat split; try assumption. simpl. rewrite filter_cons_False; [exact Hn | congruence].
  - exists 0%nat, w. auto.
Qed.

(** The workers before [i] that hold a place are at most [i]. *)
Lemma active_before_le (i : nat) (s : State) : (active_before i s <= i)%nat.
Proof.
  unfold active_before. etransitivity; [apply length_filter|].
  rewrite length_take. lia.
Qed.

(** A worker that is on its way, has a place in the group and is not blocked
    on the lock can move. *)
Lemma can_step (s : State) (i : nat) (w : Worker) :
  Reach s -> workers s !! i = Some w -> is_Returned w = false -> is_Panicked w = false ->
  shaLock (shared s) = None \/ shaLock (shared s) = Some i ->
  (w = Queued -> (active_before i s < 10)%nat) ->
  exists s', step env cfg orders i s = Some s'.
Proof.
  intros HR Hw Hr Hp Hlock Hplace.
  assert (Hlt : (i < length (ImageList cfg))%nat).
  { rewrite <- (r_len _ HR). eapply lookup_lt_Some, Hw. }
  destruct (lookup_lt_is_Some_2 _ _ Hlt) as [refInfo Hi].
  pose proof (inv_workers _ _ _ _ (r_inv _ HR) i w Hw) as Hok.
  unfold step. rewrite Hi, Hw.
  destruct w as [|idx| |o| |img ls|img done [|l rest]|img done l h rest|img done l h rest|r|];
    try discriminate; eauto.
  - apply Nat.ltb_lt in Hplace; [|reflexivity]. rewrite Hplace. eauto.
  - destruct (is_tarball _); [eauto|].
    destruct (prepare env cfg (orders i) refInfo) as [tr p]; eauto.
  - destruct (err (shared s)); [eauto|]. destruct o; eauto.
  - destruct Hlock as [->| Hl]; [eauto|].
    destruct (r_lock _ HR i Hl) as (w' & Hw' & Hcs). rewrite Hw in Hw'.
    injection Hw' as <-. discriminate.
  - destruct (layer_Digest l) as [h|e]; [destruct (shas (shared s) !! Hex h)|]; eauto.
  - destruct (layer_Size l); eauto.
Qed.

Lemma some_worker_can_step (s : State) :
  Reach s -> fetch_result s = None -> panicked s = false ->
  exists i s', step env cfg orders i s = Some s'.
Proof.
  intros HR Hnone Hp. destruct (shaLock (shared s)) as [k|] eqn:Hlock.
  - destruct (r_lock _ HR k Hlock) as (w & Hw & Hcs). exists k.
    eapply can_step; eauto; destruct w; discriminate || reflexivity.
  - destruct (live_worker s Hnone Hp) as (i & w & Hw & Hr & Hpw & Hn). exists i.
    eapply can_step; eauto. intros _. rewrite Hn. lia.
Qed.

Lemma step_less_work (i : nat) (s s' : State) :
  step env cfg orders i s = Some s' -> (total_work s' < total_work s)%nat.
Proof.
  intros Hstep. unfold total_work.
  fetch_step Hstep; unfold return_with; simpl;
    match goal with
    | |- context [<[i := ?w']> (workers s)] =>
        pose proof (sum_imap_insert work (workers s) i _ w' Hw) as Hn
    end; simpl in Hn; unfold budget, loaded_work in Hn;
    rewrite ?Hi, ?Htar, ?Hprep, ?Hexam in Hn; simpl in Hn; try lia.
  all: destruct o as [img1|]; try lia.
Qed.

(** Whatever the workers have done, they can be brought to the end of the
    fetch: all have returned, or one has panicked. *)
Lemma can_finish (n : nat) (s : State) :
  Reach s -> (total_work s <= n)%nat ->
  exists more,
    (fetch_result (run env cfg orders more s) <> None
     \/ panicked (run env cfg orders more s) = true)
    /\ (length more <= total_work s)%nat.
Proof.
  revert s. induction n as [|n IH]; intros s HR Hle.
  - destruct (fetch_result s) eqn:Hres.
    + exists []. simpl. rewrite Hres. split; [left; discriminate | lia].
    + destruct (panicked s) eqn:Hp; [exists []; simpl; split; [now right | lia]|].
      destruct (some_worker_can_step s HR Hres Hp) as (i & s' & Hstep).
      apply step_less_work in Hstep. lia.
  - destruct (fetch_result s) eqn:Hres.
    + exists []. simpl. rewrite Hres. split; [left; discriminate | lia].
    + destruct (panicked s) eqn:Hp; [exists []; simpl; split; [now right | lia]|].
      destruct (some_worker_can_step s HR Hres Hp) as (i & s' & Hstep).
      pose proof (step_less_work i s s' Hstep) as Hlt.
      destruct (IH s' (step_reach i s s' HR Hstep) ltac:(lia)) as (more & Hfin & Hlen).
      exists (i :: more). simpl. rewrite Hstep. simpl. split; [assumption | lia].
Qed.

End Reach.

End FetchReach.

(** ** Properties of every execution of the fetch *)
Module FetchMore.
Import GoStrings Overrides Resolver Fetch FetchSpec FetchReach.
#[local] Open Scope list_scope.

Lemma reachable (env : Remote) (cfg : PullConfig) (orders : nat -> list (string * string))
    (sched : list nat) : Reach env cfg orders (run env cfg orders sched (init cfg)).
Proof. apply run_reach, init_reach. Qed.

(** When [eg.Wait()] returns no error, every worker has returned [nil]. *)
Lemma fetch_ok_all_done (env : Remote) (cfg : PullConfig)
    (orders : nat -> list (string * string)) (s : State) (m : gmap Image v1Image) (total : Z) :
  Reach env cfg orders s ->
  fetch_result s = Some (Ok (m, total)) ->
  m = fetched (shared s) /\ total = totalBytes (shared s)
  /\ firstErr (shared s) = None
  /\ forall i, (i < length (ImageList cfg))%nat -> workers s !! i = Some (Returned None).
Proof.
  intros HR Hres.
  assert (Hall : fetch_result s <> None) by congruence.
  rewrite fetch_result_Some in Hall.
  unfold fetch_result in Hres. destruct (forallb is_Returned (workers s)); [|discriminate].
  destruct (firstErr (shared s)) eqn:Herr; [discriminate|]. injection Hres as <- <-.
  split; [reflexivity|]. split; [reflexivity|]. split; [reflexivity|]. intros i Hlt.
  rewrite <- (r_len _ _ _ _ HR) in Hlt. destruct (lookup_lt_is_Some_2 _ _ Hlt) as [w Hw].
  destruct (Hall i w Hw) as [[e|] ->]; [|exact Hw].
  pose proof (inv_workers _ _ _ _ (r_inv _ _ _ _ HR) i _ Hw) as Hok. simpl in Hok.
  rewrite Herr in Hok. by inversion Hok.
Qed.

(** X5: in every state the workers of [Pull] can reach, [shaLock] is held
    only by a worker that is between [Lock] and the deferred [Unlock]; once
    every worker has returned the lock is free; and as long as a worker has
    not returned and none has panicked, some worker can take a step: the
    workers never wait for each other for ever, neither for the lock nor
    for one of the ten places of the group. *)
Theorem fetch_never_stuck (env : Remote) (cfg : PullConfig)
    (orders : nat -> list (string * string)) (sched : list nat) :
  let s := run env cfg orders sched (init cfg) in
  (forall i, shaLock (shared s) = Some i ->
     exists w, workers s !! i = Some w /\ in_cs w = true)
  /\ (fetch_result s <> None -> shaLock (shared s) = None)
  /\ (fetch_result s = None -> panicked s = false ->
      exists i s', step env cfg orders i s = Some s').
Proof.
  intros s. pose proof (reachable env cfg orders sched) as HR. fold s in HR.
  split; [apply (r_lock _ _ _ _ HR)|]. split.
  - intros Hall. rewrite fetch_result_Some in Hall.
    destruct (shaLock (shared s)) as [i|] eqn:Hlock; [|reflexivity].
    destruct (r_lock _ _ _ _ HR i Hlock) as (w & Hw & Hcs).
    destruct (Hall i w Hw) as [r ->]. discriminate.
  - now apply some_worker_can_step.
Qed.

(** The loads of the batch do not all end the same way: the load of one
    tarball fails and the load of another succeeds. *)
Definition mixed_loads (env : Remote) (cfg : PullConfig)
    (orders : nat -> list (string * string)) : Prop :=
  (exists e0, load_error_in_batch env cfg orders e0) /\ load_ok_in_batch env cfg orders.

Lemma panicked_mixed (env : Remote) (cfg : PullConfig)
    (orders : nat -> list (string * string)) (s : State) :
  Reach env cfg orders s -> panicked s = true -> mixed_loads env cfg orders.
Proof.
  intros HR [i Hi]%panicked_true.
  destruct (r_panic _ _ _ _ HR i Hi) as ((refInfo & Href & Htar & Hnil) & Hok).
  split; [|exact Hok].
  destruct (crane_Load env _) as [img|e0] eqn:Hload; [discriminate Hnil|].
  exists e0, i, refInfo. auto.
Qed.

(** X6: every step a worker takes uses up some of the work that is left
    (at most [6 + 3 * n] steps for an image of [n] layers), and whatever
    the workers have done so far, the fetch can be brought to its end: all
    workers have returned, or one has panicked. A worker panics only when
    the load of one tarball of the batch fails and the load of another
    succeeds; in every other batch the wait of [Pull] for its workers can
    always end. *)
Theorem fetch_can_finish (env : Remote) (cfg : PullConfig)
    (orders : nat -> list (string * string)) (sched : list nat) :
  let s := run env cfg orders sched (init cfg) in
  (forall i s', step env cfg orders i s = Some s' ->
     (total_work env cfg orders s' < total_work env cfg orders s)%nat)
  /\ (exists more,
        (fetch_result (run env cfg orders (sched ++ more) (init cfg)) <> None
         \/ panicked (run env cfg orders (sched ++ more) (init cfg)) = true)
        /\ (length more <= total_work env cfg orders s)%nat)
  /\ (panicked s = true -> mixed_loads env cfg orders)
  /\ (~ mixed_loads env cfg orders ->
      exists more,
        fetch_result (run env cfg orders (sched ++ more) (init cfg)) <> None
        /\ (length more <= total_work env cfg orders s)%nat).
Proof.
  intros s. split; [intros i s'; apply step_less_work|].
  destruct (can_finish env cfg orders (total_work env cfg orders s) s
              (reachable env cfg orders sched) (le_n _)) as (more & Hfin & Hlen).
  split; [exists more; rewrite run_app; auto|].
  split; [apply panicked_mixed, reachable|].
  intros Hmixed. exists more. rewrite run_app. split; [|exact Hlen].
  destruct Hfin as [Hfin|Hp]; [exact Hfin|]. exfalso. apply Hmixed.
  eapply panicked_mixed; [|exact Hp]. fold (run env cfg orders more s).
  unfold s. rewrite <- run_app. apply reachable.
Qed.

(** The keys and the values of the map of a successful fetch. *)
Lemma fetch_ok_keys (env : Remote) (cfg : PullConfig)
    (orders : nat -> list (string * string)) (sched : list nat)
    (m : gmap Image v1Image) (total : Z) (refInfo : Image) :
  fetch_result (run env cfg orders sched (init cfg)) = Some (Ok (m, total)) ->
  refInfo ∈ ImageList cfg <-> is_Some (m !! refInfo).
Proof.
  intros Hres. pose proof (reachable env cfg orders sched) as HR.
  destruct (fetch_ok_all_done env cfg orders _ m total HR Hres) as (-> & _ & _ & Hdone).
  split.
  - intros [i Hi]%list_elem_of_lookup_1.
    eapply (r_done _ _ _ _ HR); [exact Hi|]. apply Hdone. eapply lookup_lt_Some, Hi.
  - intros [img Himg]. destruct (r_fetched _ _ _ _ HR _ _ Himg) as (i & ls & Hi & _).
    eapply list_elem_of_lookup_2, Hi.
Qed.

Lemma fetch_ok_entry (env : Remote) (cfg : PullConfig)
    (orders : nat -> list (string * string)) (sched : list nat)
    (m : gmap Image v1Image) (total : Z) (refInfo : Image) (img : v1Image) :
  fetch_result (run env cfg orders sched (init cfg)) = Some (Ok (m, total)) ->
  m !! refInfo = Some img ->
  img_cache img = Some (CacheDirectory cfg)
  /\ exists i tr c ls,
       ImageList cfg !! i = Some refInfo
       /\ resolveImage env cfg (orders i) refInfo [] = (tr, Ok img)
       /\ img_Manifest img = Ok (mkManifest c) /\ img_Layers img = Ok ls.
Proof.
  intros Hres Himg. pose proof (reachable env cfg orders sched) as HR.
  destruct (fetch_ok_all_done env cfg orders _ m total HR Hres) as (-> & _ & _ & Hdone).
  destruct (r_fetched _ _ _ _ HR _ _ Himg) as (i & ls & Hi & refInfo' & tr & c & Hi' & Hprep).
  rewrite Hi in Hi'. injection Hi' as <-.
  destruct (prepare_ready _ _ _ _ _ _ _ _ Hprep) as (Hr & Hm & Hl & Hc).
  split; [exact Hc|]. exists i, tr, c, ls. auto.
Qed.

(** X7: when the fetch succeeds, the map it hands on has one entry for
    every reference of [cfg.ImageList] and no other; the image of each
    entry is what the resolver returned to one of the workers of that
    reference: it is wrapped by the layer cache of [cfg.CacheDirectory] and
    its manifest and layers could be read. *)
Theorem fetched_covers_image_list (env : Remote) (cfg : PullConfig)
    (orders : nat -> list (string * string)) (sched : list nat)
    (m : gmap Image v1Image) (total : Z) :
  fetch_result (run env cfg orders sched (init cfg)) = Some (Ok (m, total)) ->
  (forall refInfo, refInfo ∈ ImageList cfg <-> is_Some (m !! refInfo))
  /\ forall refInfo img, m !! refInfo = Some img ->
       img_cache img = Some (CacheDirectory cfg)
       /\ exists i tr c ls,
            ImageList cfg !! i = Some refInfo
            /\ resolveImage env cfg (orders i) refInfo [] = (tr, Ok img)
            /\ img_Manifest img = Ok (mkManifest c) /\ img_Layers img = Ok ls.
Proof.
  intros Hres. split.
  - intros refInfo. eapply fetch_ok_keys, Hres.
  - intros refInfo img. eapply fetch_ok_entry, Hres.
Qed.

Lemma fetched_covers_image_list_witness :
  let s := run env_two cfg_two (fun _ => []) alternating (init cfg_two) in
  is_Some (fetched (shared s) !! mkImage "registry/one:1" "registry/one" "1" "")
  /\ is_Some (fetched (shared s) !! mkImage "registry/two:1" "registry/two" "1" "").
Proof.
  intros s.
  assert (Hres : fetch_result s = Some (Ok (fetched (shared s), 151))).
  { vm_cast_no_check (eq_refl (Some (Ok (fetched (shared s), 151)))). }
  destruct (fetched_covers_image_list env_two cfg_two (fun _ => []) alternating _ _ Hres)
    as [Hkeys _].
  split; apply Hkeys; [left | right; left].
Defined.

(** X8: when the fetch fails, the error of [eg.Wait()] is the error one of
    the workers returned. That worker's image could not be resolved or
    read; or a layer of its image gave no digest or no size; or its
    reference names a tarball and [err], which the workers that load
    tarballs share, was not nil when it tested it: the error is then
    "unable to load" with its own reference, around what [err] was when it
    read it again, which is nil or the error of a load of the batch, its
    own or another worker's. [Pull] then returns that error and no map,
    and nothing is saved: the file system is as [clayout.Write] left
    it. *)
Theorem fetch_error_origin (env : Remote) (cfg : PullConfig)
    (orders : nat -> list (string * string)) (sched : list nat) (e : error) :
  let s := run env cfg orders sched (init cfg) in
  fetch_result s = Some (Err e) ->
  (exists i, workers s !! i = Some (Returned (Some e)) /\ worker_error env cfg orders i e)
  /\ forall h setup rt fuel fs0 fs1 fs2 cranePath,
       PullAll.CreateDirectory setup fs0 (DestinationDirectory cfg) = (fs1, None) ->
       PullAll.clayout_Write setup fs1 (DestinationDirectory cfg) = (fs2, Ok cranePath) ->
       PullAll.Pull env h setup rt orders sched fuel cfg fs0 = Some (fs2, Err e).
Proof.
  intros s Hres. pose proof (reachable env cfg orders sched) as HR. fold s in HR.
  split.
  - unfold fetch_result in Hres. destruct (forallb is_Returned (workers s)); [|discriminate].
    destruct (firstErr (shared s)) as [e'|] eqn:Herr; [|discriminate]. injection Hres as ->.
    destruct (r_first _ _ _ _ HR e Herr) as [i Hi]. exists i. split; [exact Hi|].
    eapply (r_cause _ _ _ _ HR), Hi.
  - intros h setup rt fuel fs0 fs1 fs2 cranePath Hmk Hwr.
    unfold PullAll.Pull. rewrite Hmk, Hwr. fold s. now rewrite Hres.
Qed.

Lemma fetch_error_origin_witness :
  let refInfo := mkImage "registry/app:1" "registry/app" "1" "" in
  let s := run ResolverSpec.env_429 (ResolverSpec.cfg_one refInfo) (fun _ => []) [0; 0; 0]%nat
             (init (ResolverSpec.cfg_one refInfo)) in
  exists i, workers s !! i
            = Some (Returned (Some (Wrap "rate limited by registry: "
                (Errorf "GET https://registry/v2/app/manifests/1: unexpected status code 429 Too Many Requests")))).
Proof.
  intros refInfo s.
  destruct (fetch_error_origin ResolverSpec.env_429 (ResolverSpec.cfg_one refInfo) (fun _ => [])
              [0; 0; 0]%nat
              (Wrap "rate limited by registry: "
                 (Errorf "GET https://registry/v2/app/manifests/1: unexpected status code 429 Too Many Requests"))
              eq_refl) as [(i & Hi & _) _].
  exists i. exact Hi.
Defined.

Lemma wrap64_small (z : Z) : - 2 ^ 63 <= z < 2 ^ 63 -> wrap64 z = z.
Proof. intros Hz. unfold wrap64. rewrite Z.mod_small; lia. Qed.

Lemma sum_imap_le {A : Type} (f : nat -> A -> nat) (l : list A) :
  (forall i w, (f i w <= 1)%nat) -> (sum_list (imap f l) <= length l)%nat.
Proof.
  revert f. induction l as [|x l IH]; intros f Hf; simpl; [lia|].
  specialize (IH (f ∘ S) (fun i w => Hf (S i) w)). specialize (Hf 0%nat x). lia.
Qed.

Lemma sum_imap_all {A : Type} (f : nat -> A -> nat) (l : list A) :
  (forall i w, l !! i = Some w -> f i w = 1%nat) -> sum_list (imap f l) = length l.
Proof.
  revert f. induction l as [|x l IH]; intros f Hf; simpl; [reflexivity|].
  rewrite (Hf 0%nat x eq_refl), (IH (f ∘ S)); [reflexivity|].
  intros i w Hw. apply (Hf (S i) w Hw).
Qed.

Lemma started_count_le (s : State) : (started_count s <= length (workers s))%nat.
Proof. apply sum_imap_le. intros _ w. destruct w; simpl; lia. Qed.

Lemma started_count_all (s : State) :
  (forall i w, workers s !! i = Some w -> w <> Queued) ->
  started_count s = length (workers s).
Proof.
  intros Hall. apply sum_imap_all. intros i w Hw. specialize (Hall i w Hw).
  destruct w; simpl; congruence.
Qed.

Lemma omap_none {A B : Type} (f : A -> option B) (l : list A) :
  (forall x, x ∈ l -> f x = None) -> omap f l = [].
Proof.
  induction l as [|x l IH]; intros Hf; [reflexivity|]. simpl.
  rewrite (Hf x) by now left. apply IH. intros y Hy. apply Hf. now right.
Qed.

(** The indexes [1 .. n] as the spinner shows them, each out of [total]. *)
Definition indexes (n : nat) (total : nat) : list (Z * Z) :=
  map (fun k => (Z.of_nat k, Z.of_nat total)) (seq 1 n).

Lemma indexes_NoDup (n total : nat) : NoDup (indexes n total).
Proof.
  unfold indexes. apply NoDup_fmap_2; [|apply NoDup_ListNoDup, seq_NoDup].
  intros a b [= H]. lia.
Qed.

Lemma indexes_elem (n total : nat) (idx t : Z) :
  (idx, t) ∈ indexes n total -> 1 <= idx <= Z.of_nat n /\ t = Z.of_nat total.
Proof.
  unfold indexes. intros (k & [= -> ->] & Hk%elem_of_seq)%list_elem_of_fmap. lia.
Qed.

(** X9: the spinner is told each index once. In every state the workers
    can reach, the counter is the number [n] of workers that have taken
    their index; the indexes shown so far, together with those taken and
    not yet shown, are 1, 2, ... [n], each once and each out of
    [len(cfg.ImageList)]: so no index is shown twice and none above [n]
    is shown, but they may be shown in any order, a greater one before a
    smaller. When the fetch is over every index up to the number of images
    has been shown. *)
Theorem spinner_reports_each_index_once (env : Remote) (cfg : PullConfig)
    (orders : nat -> list (string * string)) (sched : list nat) :
  Z.of_nat (length (ImageList cfg)) < 2 ^ 63 ->
  let s := run env cfg orders sched (init cfg) in
  let n := started_count s in
  let total := length (ImageList cfg) in
  let shown := spinner_updates (trace (shared s)) in
  (n <= total)%nat
  /\ counter (shared s) = Z.of_nat n
  /\ shown ++ pending_updates cfg s ≡ₚ indexes n total
  /\ NoDup shown
  /\ (forall idx t, (idx, t) ∈ shown -> 1 <= idx <= Z.of_nat n /\ t = Z.of_nat total)
  /\ (fetch_result s <> None -> shown ≡ₚ indexes total total).
Proof.
  intros Hsmall s n total shown.
  pose proof (reachable env cfg orders sched) as HR. fold s in HR.
  assert (Hle : (n <= total)%nat).
  { unfold n, total. rewrite <- (r_len _ _ _ _ HR). apply started_count_le. }
  assert (Hperm : shown ++ pending_updates cfg s ≡ₚ indexes n total).
  { unfold shown. rewrite (r_spinner _ _ _ _ HR). fold n. unfold indexes.
    assert (Heq : map (fun k => (wrap64 (Z.of_nat k), Z.of_nat (length (ImageList cfg))))
                      (seq 1 n)
                  = map (fun k => (Z.of_nat k, Z.of_nat total)) (seq 1 n)).
    { apply map_ext_in. intros k Hk%in_seq. rewrite wrap64_small; [reflexivity | lia]. }
    now rewrite Heq. }
  split; [exact Hle|]. split; [|split; [exact Hperm|split; [|split]]].
  - rewrite (r_counter _ _ _ _ HR). fold n. apply wrap64_small. lia.
  - pose proof (indexes_NoDup n total) as Hnd. rewrite <- Hperm in Hnd.
    now apply NoDup_app in Hnd as [Hnd _].
  - intros idx t Hin. apply (indexes_elem n total). rewrite <- Hperm.
    apply elem_of_app. now left.
  - intros Hall. rewrite fetch_result_Some in Hall.
    assert (Hn : n = total).
    { unfold n, total. rewrite started_count_all; [apply (r_len _ _ _ _ HR)|].
      intros i w Hw. destruct (Hall i w Hw) as [r ->]. discriminate. }
    assert (Hnone : pending_updates cfg s = []).
    { apply omap_none. intros w [i Hw]%list_elem_of_lookup_1.
      destruct (Hall i w Hw) as [r ->]. reflexivity. }
    rewrite Hnone, app_nil_r, Hn in Hperm. exact Hperm.
Qed.

Lemma spinner_reports_each_index_once_witness :
  let s := run env_two cfg_two (fun _ => []) alternating (init cfg_two) in
  spinner_updates (trace (shared s)) ≡ₚ [(1, 2); (2, 2)].
Proof.
  intros s.
  destruct (spinner_reports_each_index_once env_two cfg_two (fun _ => []) alternating
              ltac:(reflexivity)) as (_ & _ & _ & _ & _ & Hperm).
  fold s in Hperm. apply Hperm.
  assert (Heq : fetch_result s = Some (Ok (fetched (shared s), 151))).
  { vm_cast_no_check (eq_refl (Some (Ok (fetched (shared s), 151)))). }
  rewrite Heq. discriminate.
Defined.

Lemma sumZ_imap_all {A : Type} (f : nat -> A -> Z) (g : nat -> Z) (l : list A) :
  (forall i w, l !! i = Some w -> f i w = g i) ->
  sumZ (imap f l) = sumZ (map g (seq 0 (length l))).
Proof.
  revert f g. induction l as [|x l IH]; intros f g Hfg; [reflexivity|].
  simpl. rewrite (Hfg 0%nat x eq_refl). f_equal.
  rewrite <- seq_shift, map_map. apply IH. intros i w Hw. apply (Hfg (S i) w Hw).
Qed.

(** X10: when the fetch succeeds, the total handed to the progress bar is,
    in 64-bit arithmetic, the sum of the config sizes of the images of all
    the entries of [cfg.ImageList] (an image listed twice counts twice)
    and of one size for each distinct layer digest: every layer digest of
    every image is charged, none twice, and the size charged for a digest
    is the size of a layer of that digest. *)
Theorem total_bytes_on_success (env : Remote) (cfg : PullConfig)
    (orders : nat -> list (string * string)) (sched : list nat)
    (m : gmap Image v1Image) (total : Z) :
  let s := run env cfg orders sched (init cfg) in
  fetch_result s = Some (Ok (m, total)) ->
  total = wrap64 (sumZ (map (config_charge env cfg orders) (seq 0 (length (ImageList cfg))))
                  + sumZ (charges (shared s)).*2)
  /\ NoDup (charges (shared s)).*1
  /\ (forall i refInfo, ImageList cfg !! i = Some refInfo ->
        exists tr img ls,
          prepare env cfg (orders i) refInfo
          = (tr, PrepReady img (config_charge env cfg orders i) ls)
          /\ img_Manifest img = Ok (mkManifest (config_charge env cfg orders i))
          /\ forall l h, l ∈ ls -> layer_Digest l = Ok h -> Hex h ∈ (charges (shared s)).*1)
  /\ (forall d sz, (d, sz) ∈ charges (shared s) ->
        exists i refInfo tr img c ls l h,
          ImageList cfg !! i = Some refInfo
          /\ prepare env cfg (orders i) refInfo = (tr, PrepReady img c ls)
          /\ l ∈ ls /\ layer_Digest l = Ok h /\ Hex h = d /\ layer_Size l = Ok sz).
Proof.
  intros s Hres. pose proof (reachable env cfg orders sched) as HR. fold s in HR.
  pose proof (r_inv _ _ _ _ HR) as HI.
  destruct (fetch_ok_all_done env cfg orders s m total HR Hres) as (-> & -> & Hok & Hdone).
  split; [|split; [|split]].
  - rewrite (inv_total _ _ _ _ HI), (r_configs _ _ _ _ HR Hok). f_equal. f_equal.
    rewrite <- (r_len _ _ _ _ HR). apply sumZ_imap_all. intros i w Hw.
    rewrite (Hdone i) in Hw; [|rewrite <- (r_len _ _ _ _ HR); eapply lookup_lt_Some, Hw].
    injection Hw as <-. reflexivity.
  - apply (inv_nodup _ _ _ _ HI).
  - intros i refInfo Hi.
    assert (Hw : workers s !! i = Some (Returned None)).
    { apply Hdone. eapply lookup_lt_Some, Hi. }
    destruct (inv_workers _ _ _ _ HI i _ Hw)
      as (img & ls & (refInfo' & tr & c & Hi' & Hprep) & Hseen).
    rewrite Hi in Hi'. injection Hi' as <-.
    rewrite (config_charge_ready env cfg orders i refInfo tr img c ls Hi Hprep).
    exists tr, img, ls. split; [exact Hprep|].
    split; [apply (prepare_ready _ _ _ _ _ _ _ _ Hprep)|].
    intros l h Hl Hd.
    destruct (proj1 (Forall_forall _ _) Hseen l Hl) as (h' & Hd' & Hsome).
    rewrite Hd in Hd'. injection Hd' as <-.
    destruct (inv_shas _ _ _ _ HI _ Hsome) as [Hc|(j & wj & Hj & Hwj)]; [assumption|].
    rewrite (Hdone j) in Hj; [|rewrite <- (r_len _ _ _ _ HR); eapply lookup_lt_Some, Hj].
    injection Hj as <-. simpl in Hwj. tauto.
  - intros d sz Hin.
    destruct (r_charges _ _ _ _ HR d sz Hin)
      as (i & img & ls & l & h & (refInfo & tr & c & Hi & Hprep) & Hl & Hd & Hh & Hsz).
    exists i, refInfo, tr, img, c, ls, l, h. auto 10.
Qed.

Lemma total_bytes_on_success_witness :
  let s := run env_two cfg_two (fun _ => []) alternating (init cfg_two) in
  151 = wrap64 (sumZ (map (config_charge env_two cfg_two (fun _ => [])) (seq 0 2))
                + sumZ (charges (shared s)).*2).
Proof.
  intros s.
  assert (Hres : fetch_result s = Some (Ok (fetched (shared s), 151))).
  { vm_cast_no_check (eq_refl (Some (Ok (fetched (shared s), 151)))). }
  exact (proj1 (total_bytes_on_success env_two cfg_two (fun _ => []) alternating _ _ Hres)).
Defined.

End FetchMore.

(** ** The workers that load tarballs share the variable [err] of [Pull] *)
Module FetchRace.
Import GoStrings Overrides Resolver Fetch FetchSpec FetchReach FetchMore.
#[local] Open Scope list_scope.

Section Race.
Variable env : Remote.
Variable cfg : PullConfig.
Variable orders : nat -> list (string * string).

(** Worker [i] takes a step from [s] to [s']: it is then at [w'], [err] is
    [e'] and the other workers are where they were. *)
Definition moves (i : nat) (s s' : State) (w' : Worker) (e' : option error) : Prop :=
  step env cfg orders i s = Some s'
  /\ workers s' !! i = Some w'
  /\ err (shared s') = e'
  /\ forall j, j <> i -> workers s' !! j = workers s !! j.

Ltac moved Hw :=
  eexists; split; [reflexivity|]; simpl;
  split; [apply list_lookup_insert_eq; eapply lookup_lt_Some, Hw|];
  split; [reflexivity|]; intros k Hk; apply list_lookup_insert_ne; auto.

(** One of the first ten workers has a place in the group from the start. *)
Lemma takes_index (i : nat) (s : State) (refInfo : Image) :
  (i < 10)%nat ->
  ImageList cfg !! i = Some refInfo -> workers s !! i = Some Queued ->
  exists s', moves i s s' (Counted (int64_add (counter (shared s)) 1)) (err (shared s)).
Proof.
  intros Hlt Hi Hw. unfold moves, step. rewrite Hi, Hw.
  replace (active_before i s <? 10)%nat with true
    by (symmetry; apply Nat.ltb_lt; pose proof (active_before_le i s); lia).
  moved Hw.
Qed.

Lemma tells_spinner (i : nat) (s : State) (refInfo : Image) (idx : Z) :
  ImageList cfg !! i = Some refInfo -> workers s !! i = Some (Counted idx) ->
  exists s', moves i s s' Started (err (shared s)).
Proof. intros Hi Hw. unfold moves, step. rewrite Hi, Hw. moved Hw. Qed.

Lemma loads (i : nat) (s : State) (refInfo : Image) :
  ImageList cfg !! i = Some refInfo -> workers s !! i = Some Started ->
  is_tarball (applyOverrides (Reference refInfo) (orders i)) = true ->
  exists s',
    moves i s s'
      (Loaded (loaded_image (crane_Load env (applyOverrides (Reference refInfo) (orders i)))))
      (loaded_error (crane_Load env (applyOverrides (Reference refInfo) (orders i)))).
Proof. intros Hi Hw Htar. unfold moves, step. rewrite Hi, Hw, Htar. moved Hw. Qed.

Lemma tests_not_nil (i : nat) (s : State) (refInfo : Image) (o : option v1Image) (e : error) :
  ImageList cfg !! i = Some refInfo -> workers s !! i = Some (Loaded o) ->
  err (shared s) = Some e ->
  exists s', moves i s s' Reporting (Some e).
Proof.
  intros Hi Hw He. unfold moves, step. rewrite Hi, Hw, He.
  eexists; split; [reflexivity|]; simpl.
  split; [apply list_lookup_insert_eq; eapply lookup_lt_Some, Hw|].
  split; [exact He|]. intros k Hk. apply list_lookup_insert_ne. auto.
Qed.

Lemma tests_nil_and_panics (i : nat) (s : State) (refInfo : Image) :
  ImageList cfg !! i = Some refInfo -> workers s !! i = Some (Loaded None) ->
  err (shared s) = None ->
  exists s', moves i s s' Panicked None.
Proof.
  intros Hi Hw He. unfold moves, step. rewrite Hi, Hw, He.
  eexists; split; [reflexivity|]; simpl.
  split; [apply list_lookup_insert_eq; eapply lookup_lt_Some, Hw|].
  split; [exact He|]. intros k Hk. apply list_lookup_insert_ne. auto.
Qed.

Lemma reports (i : nat) (s : State) (refInfo : Image) :
  ImageList cfg !! i = Some refInfo -> workers s !! i = Some Reporting ->
  exists s',
    moves i s s' (Returned (Some (load_failure refInfo (err (shared s))))) (err (shared s)).
Proof. intros Hi Hw. unfold moves, step. rewrite Hi, Hw. moved Hw. Qed.

Lemma run_step (i : nat) (s s' : State) :
  step env cfg orders i s = Some s' -> run env cfg orders [i] s = s'.
Proof. intros Hstep. simpl. now rewrite Hstep. Qed.

Lemma run_steps (i : nat) (sched : list nat) (s : State) :
  run env cfg orders (i :: sched) s = run env cfg orders sched (run env cfg orders [i] s).
Proof. reflexivity. Qed.

(** The first three steps of a worker on the tarball path: the index, the
    spinner, the load. *)
Lemma runs_to_load (i : nat) (s : State) (refInfo : Image) :
  (i < 10)%nat ->
  ImageList cfg !! i = Some refInfo -> workers s !! i = Some Queued ->
  is_tarball (applyOverrides (Reference refInfo) (orders i)) = true ->
  let s' := run env cfg orders [i; i; i] s in
  workers s' !! i
  = Some (Loaded (loaded_image (crane_Load env (applyOverrides (Reference refInfo) (orders i)))))
  /\ err (shared s')
     = loaded_error (crane_Load env (applyOverrides (Reference refInfo) (orders i)))
  /\ forall j, j <> i -> workers s' !! j = workers s !! j.
Proof.
  intros Hlt Hi Hw Htar.
  destruct (takes_index i s refInfo Hlt Hi Hw) as (s1 & H1 & Hw1 & _ & Ho1).
  destruct (tells_spinner i s1 refInfo _ Hi Hw1) as (s2 & H2 & Hw2 & _ & Ho2).
  destruct (loads i s2 refInfo Hi Hw2 Htar) as (s3 & H3 & Hw3 & He3 & Ho3).
  cbv zeta. rewrite (run_steps i [i; i]), (run_step _ _ _ H1).
  rewrite (run_steps i [i]), (run_step _ _ _ H2), (run_step _ _ _ H3).
  split; [exact Hw3|]. split; [exact He3|].
  intros j Hj. now rewrite Ho3, Ho2, Ho1.
Qed.

Lemma queued_at_first (i : nat) (refInfo : Image) :
  ImageList cfg !! i = Some refInfo -> workers (init cfg) !! i = Some Queued.
Proof. intros Hi. simpl. apply lookup_replicate_2. eapply lookup_lt_Some, Hi. Qed.

End Race.

(** X2: two workers that load tarballs race on the variable [err] of
    [Pull]: each assigns it with the result of its load, tests it, and
    reads it again for its message. Both are among the first ten of the
    list, so that the group gives both a place from the start. When the
    load of one tarball fails and
    the load of another succeeds, there is a schedule in which the worker
    whose load succeeded returns "unable to load" with its own reference,
    around the error of the other's load; a schedule in which the worker
    whose load failed returns an error that wraps nothing, [err] having
    been set to nil between its test and its message; and a schedule in
    which that worker finds [err] nil, goes on with a nil image and
    panics. *)
Theorem tarball_workers_race (env : Remote) (cfg : PullConfig)
    (orders : nat -> list (string * string)) (i j : nat) (refA refB : Image)
    (e : error) (imgB : v1Image) :
  (i < 10)%nat -> (j < 10)%nat ->
  ImageList cfg !! i = Some refA ->
  ImageList cfg !! j = Some refB ->
  is_tarball (applyOverrides (Reference refA) (orders i)) = true ->
  is_tarball (applyOverrides (Reference refB) (orders j)) = true ->
  crane_Load env (applyOverrides (Reference refA) (orders i)) = Err e ->
  crane_Load env (applyOverrides (Reference refB) (orders j)) = Ok imgB ->
  workers (run env cfg orders [j; j; j; i; i; i; j; j] (init cfg)) !! j
  = Some (Returned (Some (Wrap ("unable to load " ++ Reference refB ++ ": ")%string e)))
  /\ workers (run env cfg orders [i; i; i; i; j; j; j; i] (init cfg)) !! i
     = Some (Returned (Some (Errorf ("unable to load " ++ Reference refA
                                     ++ ": %!w(<nil>)")%string)))
  /\ workers (run env cfg orders [i; i; i; j; j; j; i] (init cfg)) !! i = Some Panicked.
Proof.
  intros Hi10 Hj10 Hi Hj HtarA HtarB HloadA HloadB.
  assert (Hne : i <> j).
  { intros ->. rewrite Hi in Hj. injection Hj as ->. congruence. }
  pose proof (queued_at_first cfg i refA Hi) as Hqi.
  pose proof (queued_at_first cfg j refB Hj) as Hqj.
  split; [|split].
  - change [j; j; j; i; i; i; j; j] with ([j; j; j] ++ [i; i; i] ++ [j; j]).
    rewrite !run_app.
    destruct (runs_to_load env cfg orders j _ refB Hj10 Hj Hqj HtarB) as (Hwj & _ & Hoj).
    set (s1 := run env cfg orders [j; j; j] (init cfg)) in *.
    rewrite HloadB in Hwj.
    destruct (runs_to_load env cfg orders i s1 refA Hi10 Hi) as (Hwi & Hei & Hoi); [|exact HtarA|].
    { rewrite Hoj by exact Hne. exact Hqi. }
    set (s2 := run env cfg orders [i; i; i] s1) in *.
    rewrite HloadA in Hei. simpl in Hei.
    assert (Hwj2 : workers s2 !! j = Some (Loaded (Some imgB))).
    { rewrite Hoi by auto. exact Hwj. }
    destruct (tests_not_nil env cfg orders j s2 refB _ e Hj Hwj2 Hei)
      as (s3 & H3 & Hw3 & He3 & _).
    destruct (reports env cfg orders j s3 refB Hj Hw3) as (s4 & H4 & Hw4 & _).
    rewrite (run_steps _ _ _ j [j]), (run_step _ _ _ _ _ _ H3), (run_step _ _ _ _ _ _ H4).
    rewrite Hw4, He3. reflexivity.
  - change [i; i; i; i; j; j; j; i] with ([i; i; i] ++ [i] ++ [j; j; j] ++ [i]).
    rewrite !run_app.
    destruct (runs_to_load env cfg orders i _ refA Hi10 Hi Hqi HtarA) as (Hwi & Hei & Hoi).
    set (s1 := run env cfg orders [i; i; i] (init cfg)) in *.
    rewrite HloadA in Hwi, Hei. simpl in Hwi, Hei.
    destruct (tests_not_nil env cfg orders i s1 refA _ e Hi Hwi Hei)
      as (s2 & H2 & Hw2 & _ & Ho2).
    rewrite (run_step _ _ _ _ _ _ H2).
    destruct (runs_to_load env cfg orders j s2 refB Hj10 Hj) as (_ & Hej & Hoj); [|exact HtarB|].
    { rewrite Ho2 by auto. rewrite Hoi by auto. exact Hqj. }
    set (s3 := run env cfg orders [j; j; j] s2) in *.
    rewrite HloadB in Hej. simpl in Hej.
    assert (Hw3 : workers s3 !! i = Some Reporting).
    { rewrite Hoj by exact Hne. exact Hw2. }
    destruct (reports env cfg orders i s3 refA Hi Hw3) as (s4 & H4 & Hw4 & _).
    rewrite (run_step _ _ _ _ _ _ H4). rewrite Hw4, Hej. reflexivity.
  - change [i; i; i; j; j; j; i] with ([i; i; i] ++ [j; j; j] ++ [i]).
    rewrite !run_app.
    destruct (runs_to_load env cfg orders i _ refA Hi10 Hi Hqi HtarA) as (Hwi & _ & Hoi).
    set (s1 := run env cfg orders [i; i; i] (init cfg)) in *.
    rewrite HloadA in Hwi. simpl in Hwi.
    destruct (runs_to_load env cfg orders j s1 refB Hj10 Hj) as (_ & Hej & Hoj); [|exact HtarB|].
    { rewrite Hoi by auto. exact Hqj. }
    set (s2 := run env cfg orders [j; j; j] s1) in *.
    rewrite HloadB in Hej. simpl in Hej.
    assert (Hw2 : workers s2 !! i = Some (Loaded None)).
    { rewrite Hoj by exact Hne. exact Hwi. }
    destruct (tests_nil_and_panics env cfg orders i s2 refA Hi Hw2 Hej) as (s3 & H3 & Hw3 & _).
    rewrite (run_step _ _ _ _ _ _ H3). exact Hw3.
Qed.

(** Two tarballs, of which the first cannot be read. *)
Definition env_tarballs : Remote :=
  {| crane_Load := fun r => if String.eqb r "good.tar" then Ok ResolverSpec.plain_image
                            else Err (Errorf "open bad.tar: no such file or directory");
     name_ParseReference := fun r => Ok r;
     crane_Get := fun _ => Err (Errorf "network unreachable");
     crane_Pull := fun _ => Err (Errorf "network unreachable");
     client_NewClientWithOpts := Some (Errorf "no docker");
     cli_ImageInspectWithRaw := fun _ => Err (Errorf "no docker");
     daemon_Image := fun _ => Err (Errorf "no docker");
     json_Unmarshal := fun _ => Ok [];
     utils_ByteFormat := fun _ => "0 Byte" |}.

Definition cfg_tarballs : PullConfig :=
  {| DestinationDirectory := ["pkg"; "images"];
     CacheDirectory := ["cache"; "images"];
     RegistryOverrides := ∅;
     ImageList := [mkImage "bad.tar" "bad.tar" "" ""; mkImage "good.tar" "good.tar" "" ""];
     Arch := "amd64" |}.

Lemma tarball_workers_race_witness :
  workers (run env_tarballs cfg_tarballs (fun _ => []) [1; 1; 1; 0; 0; 0; 1; 1]%nat
             (init cfg_tarballs)) !! 1%nat
  = Some (Returned (Some (Wrap "unable to load good.tar: "
                            (Errorf "open bad.tar: no such file or directory")))).
Proof.
  exact (proj1 (tarball_workers_race env_tarballs cfg_tarballs (fun _ => []) 0 1
                  (mkImage "bad.tar" "bad.tar" "" "") (mkImage "good.tar" "good.tar" "" "")
                  (Errorf "open bad.tar: no such file or directory") ResolverSpec.plain_image
                  ltac:(lia) ltac:(lia) eq_refl eq_refl eq_refl eq_refl eq_refl eq_refl)).
Defined.

End FetchRace.

(** ** More on the cleanup manager *)
Module CleanupMore.
Import OS Cleanup CleanupSpec.
#[local] Open Scope list_scope.

(** Why the goroutine of layer [l] may have returned the error [e]. *)
Definition cleanup_error (h : Host) (fs0 : FS) (l : Layer) (e : error) : Prop :=
  layer_Digest l = Err e
  \/ exists digest,
       layer_Digest l = Ok digest
       /\ (layer_Size l = Err e
           \/ exists size,
                layer_Size l = Ok size
                /\ ((os_Stat h fs0 (location h digest) = Err e /\ is_ErrNotExist e = false)
                    \/ exists info cause,
                         os_Stat h fs0 (location h digest) = Ok info
                         /\ info_Size info <> size
                         /\ e = Wrap ("failed to remove incomplete layer "
                                      ++ Hex digest ++ ": ")%string cause
                         /\ (fault h OpRemove (location h digest) = Some cause
                             \/ cause = not_exist "remove" (location h digest)
                             \/ fs0 !! location h digest = Some Dir))).

Lemma os_Remove_error (h : Host) (fs fs' : FS) (p : path) (e : error) :
  os_Remove h fs p = (fs', Some e) ->
  fs' = fs
  /\ (fault h OpRemove p = Some e
      \/ e = not_exist "remove" p
      \/ fs !! p = Some Dir).
Proof.
  unfold os_Remove. destruct (fault h OpRemove p) as [e'|].
  - intros [= <- <-]. auto.
  - destruct (fs !! p) as [[c|]|]; [discriminate| |intros [= <- <-]; auto].
    destruct (children fs p); [discriminate|]. intros [= <- <-]. auto.
Qed.

Section Runs.
Variable h : Host.
Variable layers : list Layer.
Variable fs0 : FS.

(** Every error a goroutine has returned has one of the causes above. *)
Definition errors_ok (s : State) : Prop :=
  forall i l e, tasks s !! i = Some (Done l (Some e)) -> cleanup_error h fs0 l e.

Lemma errors_ok_finish (s : State) (i : nat) (l : Layer) (r : option error) (fs' : FS) :
  errors_ok s ->
  (forall e, r = Some e -> cleanup_error h fs0 l e) ->
  errors_ok (finish i l r fs' s).
Proof.
  intros Hs Hr j lj e. simpl. destruct (decide (i = j)) as [<-|Hne].
  - destruct (decide (i < length (tasks s))%nat) as [Hlt|Hge].
    + rewrite list_lookup_insert_eq by assumption. intros [= <- ->]. now apply Hr.
    + rewrite list_insert_ge by lia. apply Hs.
  - rewrite list_lookup_insert_ne by assumption. apply Hs.
Qed.

Lemma step_errors_ok (i : nat) (s s' : State) :
  Inv h layers fs0 s -> errors_ok s -> step h i s = Some s' -> errors_ok s'.
Proof.
  intros HI Hs. unfold step.
  destruct (tasks s !! i) as [[l|l digest loc|l r]|] eqn:Ht; try discriminate.
  - destruct (layer_Digest l) as [digest|e] eqn:Hd.
    2:{ intros [= <-]. apply errors_ok_finish; [assumption|]. intros e' [= <-]. now left. }
    destruct (layer_Size l) as [size|e] eqn:Hsz.
    2:{ intros [= <-]. apply errors_ok_finish; [assumption|]. intros e' [= <-].
        right. exists digest. auto. }
    intros [= <-]. unfold stat_step. simpl.
    pose proof (stat_now h layers fs0 s (location h digest) HI) as Hstat.
    destruct (os_Stat h (fs s) (location h digest)) as [info|err].
    + destruct (negb (info_Size info =? size)).
      * intros j lj e. simpl. destruct (decide (i = j)) as [<-|Hne].
        -- rewrite list_lookup_insert_eq by (eapply lookup_lt_Some, Ht). discriminate.
        -- rewrite list_lookup_insert_ne by assumption. apply Hs.
      * apply (errors_ok_finish (logged OpStat (location h digest) s)); [exact Hs|].
        discriminate.
    + destruct (is_ErrNotExist err) eqn:Hne;
        apply (errors_ok_finish (logged OpStat (location h digest) s)); try exact Hs;
        try discriminate.
      intros e' [= <-]. right. exists digest. split; [assumption|]. right.
      exists size. split; [assumption|]. left. split; [|assumption].
      destruct Hstat as [H0|(Habs & _)]; [assumption | congruence].
  - destruct (inv_task _ _ _ _ HI i _ Ht) as (l0 & Hl0 & Hok). simpl in Hok.
    destruct Hok as (-> & Hd & -> & (digest' & size & info & Hd' & _ & Hsz & Hst & Hneq)).
    rewrite Hd in Hd'. injection Hd' as <-.
    intros [= <-]. unfold remove_step. simpl.
    destruct (os_Remove h (fs s) (location h digest)) as [fs' [err|]] eqn:Hrm;
      apply (errors_ok_finish (logged OpRemove (location h digest) s)); try exact Hs;
      try discriminate.
    intros e' [= <-]. right. exists digest. split; [assumption|]. right.
    exists size. split; [assumption|]. right. exists info, err.
    repeat split; try assumption.
    destruct (os_Remove_error _ _ _ _ _ Hrm) as [_ [H|[H|H]]]; auto.
    right. right. destruct (inv_fs _ _ _ _ HI (location h digest)) as [Heq|[Hnone _]]; congruence.
Qed.

Lemma run_errors_ok (sched : list nat) (s : State) :
  Inv h layers fs0 s -> errors_ok s -> errors_ok (run h sched s).
Proof.
  revert s. induction sched as [|i sched IH]; intros s HI Hs; simpl; [assumption|].
  destruct (step h i s) as [s'|] eqn:Hstep; simpl; [|now apply IH].
  apply IH; [eapply cleanup_step_inv | eapply step_errors_ok]; eassumption.
Qed.

Lemma start_errors_ok : errors_ok (start layers fs0).
Proof.
  intros i l e Ht. simpl in Ht. rewrite list_lookup_fmap in Ht.
  destruct (layers !! i); discriminate.
Qed.

(** *** A cache in which no blob of the image has a wrong size *)

Hypothesis clean : forall l p, l ∈ layers -> ~ mismatched h fs0 l p.

Record Untouched (s : State) : Prop := mkUntouched {
  u_inv : Inv h layers fs0 s;
  u_fs : fs s = fs0;
  u_log : forall o p, (o, p) ∈ log s -> o = OpStat
}.

Lemma step_untouched (i : nat) (s s' : State) :
  Untouched s -> step h i s = Some s' -> Untouched s'.
Proof.
  intros [HI Hfs Hlog] Hstep.
  assert (HI' : Inv h layers fs0 s') by (eapply cleanup_step_inv; eassumption).
  split; [exact HI'| |]; revert Hstep; unfold step;
    destruct (tasks s !! i) as [[l|l digest loc|l r]|] eqn:Ht; try discriminate.
  - destruct (layer_Digest l) as [digest|e]; [|intros [= <-]; exact Hfs].
    destruct (layer_Size l) as [size|e]; [|intros [= <-]; exact Hfs].
    intros [= <-]. unfold stat_step. simpl.
    destruct (os_Stat h (fs s) (location h digest)) as [info|err];
      [destruct (negb (info_Size info =? size)) | destruct (is_ErrNotExist err)]; exact Hfs.
  - destruct (inv_task _ _ _ _ HI i _ Ht) as (l0 & Hl0 & Hok). simpl in Hok.
    destruct Hok as (-> & _ & _ & Hmis). exfalso.
    eapply clean; [eapply list_elem_of_lookup_2, Hl0 | exact Hmis].
  - destruct (layer_Digest l) as [digest|e]; [|intros [= <-]; exact Hlog].
    destruct (layer_Size l) as [size|e]; [|intros [= <-]; exact Hlog].
    intros [= <-] o p. unfold stat_step. simpl.
    assert (Hnew : (o, p) ∈ log s ++ [(OpStat, location h digest)] -> o = OpStat).
    { intros [Hin|Hin%list_elem_of_singleton]%elem_of_app; [eapply Hlog, Hin | congruence]. }
    destruct (os_Stat h (fs s) (location h digest)) as [info|err];
      [destruct (negb (info_Size info =? size)) | destruct (is_ErrNotExist err)]; exact Hnew.
  - destruct (inv_task _ _ _ _ HI i _ Ht) as (l0 & Hl0 & Hok). simpl in Hok.
    destruct Hok as (-> & _ & _ & Hmis). exfalso.
    eapply clean; [eapply list_elem_of_lookup_2, Hl0 | exact Hmis].
Qed.

Lemma run_untouched (sched : list nat) (s : State) :
  Untouched s -> Untouched (run h sched s).
Proof.
  revert s. induction sched as [|i sched IH]; intros s Hs; simpl; [assumption|].
  apply IH. destruct (step h i s) as [s'|] eqn:Hstep; simpl; [|assumption].
  eapply step_untouched; eassumption.
Qed.

Lemma start_untouched : Untouched (start layers fs0).
Proof.
  split; [apply cleanup_start_inv | reflexivity|].
  intros o p Hin. by apply elem_of_nil in Hin.
Qed.

End Runs.

(** X11: the cleanup only ever deletes. What it returns of the file system
    is a part of what it was given, and an entry is gone only if it is the
    cache blob of a layer of the image and [os.Stat] gave it a size other
    than the size the layer records. *)
Theorem cleanup_only_removes (h : Host) (sched : list nat) (img : v1Image) (fs0 : FS) :
  let out := CleanupInProgressLayers h sched img fs0 in
  out.1 ⊆ fs0
  /\ forall p, fs0 !! p <> None -> out.1 !! p = None ->
       exists layers l digest size info,
         img_Layers img = Ok layers /\ l ∈ layers
         /\ layer_Digest l = Ok digest /\ p = location h digest
         /\ layer_Size l = Ok size
         /\ os_Stat h fs0 p = Ok info /\ info_Size info <> size.
Proof.
  unfold CleanupInProgressLayers. destruct (img_Layers img) as [layers|e]; simpl.
  - assert (HI : Inv h layers fs0 (run h (complete sched (length layers)) (start layers fs0)))
      by apply cleanup_run_inv, cleanup_start_inv.
    split.
    + apply map_subseteq_spec. intros p n Hp.
      destruct (inv_fs _ _ _ _ HI p) as [Heq|[Hnone _]]; congruence.
    + intros p Hsome Hnone.
      destruct (inv_fs _ _ _ _ HI p) as [Heq|(_ & l & Hin & Hmis)]; [congruence|].
      destruct Hmis as (digest & size & info & Hd & Hloc & Hsz & Hst & Hneq).
      exists layers, l, digest, size, info. auto 10.
  - split; [reflexivity|]. intros p Hsome Hnone. contradiction.
Qed.

(** The error returned for an image whose layers can be listed. *)
Lemma cleanup_layer_error (h : Host) (sched : list nat) (img : v1Image)
    (layers : list Layer) (fs0 : FS) (e : error) :
  img_Layers img = Ok layers ->
  (CleanupInProgressLayers h sched img fs0).2 = Some e ->
  exists l, l ∈ layers /\ cleanup_error h fs0 l e.
Proof.
  intros Hl. unfold CleanupInProgressLayers. rewrite Hl. simpl. intros He.
  set (s := run h (complete sched (length layers)) (start layers fs0)) in *.
  assert (HI : Inv h layers fs0 s) by apply cleanup_run_inv, cleanup_start_inv.
  assert (HE : errors_ok h fs0 s).
  { apply (run_errors_ok h layers fs0);
      [apply cleanup_start_inv | apply start_errors_ok]. }
  destruct (inv_first _ _ _ _ HI e He) as (i & l & Hi).
  destruct (inv_task _ _ _ _ HI i _ Hi) as (l0 & Hl0 & Hok). simpl in Hok.
  destruct Hok as [-> _]. exists l0.
  split; [eapply list_elem_of_lookup_2, Hl0|]. eapply HE, Hi.
Qed.

(** X12: the error the cleanup returns is the error of one of its
    goroutines, and each has one of these causes: [img.Layers()] failed;
    the digest or the size of a layer could not be read; [os.Stat] failed
    with something else than "does not exist"; or the blob had a wrong size
    and [os.Remove] failed, because the system refused, because the blob
    was already gone, or because it is a directory. A blob that is missing,
    or of the recorded size, gives no error. *)
Theorem cleanup_error_origin (h : Host) (sched : list nat) (img : v1Image) (fs0 : FS)
    (e : error) :
  (CleanupInProgressLayers h sched img fs0).2 = Some e ->
  img_Layers img = Err e
  \/ exists layers l,
       img_Layers img = Ok layers /\ l ∈ layers /\ cleanup_error h fs0 l e.
Proof.
  destruct (img_Layers img) as [layers|e'] eqn:Hl.
  - intros He. right. exists layers.
    destruct (cleanup_layer_error h sched img layers fs0 e Hl He) as (l & Hin & Herr).
    exists l. auto.
  - unfold CleanupInProgressLayers. rewrite Hl. intros [= ->]. now left.
Qed.

Lemma cleanup_error_origin_witness :
  exists l, l ∈ layers_w
            /\ cleanup_error host_w fs_w l
                 (Errorf "stat zarf-cache/images/sha256:dd: permission denied").
Proof.
  destruct (cleanup_error_origin host_w [3; 1; 0; 1; 2]%nat img_w fs_w
              (Errorf "stat zarf-cache/images/sha256:dd: permission denied"))
    as [Habs|(layers & l & Hl & Hin & Herr)].
  - vm_cast_no_check (eq_refl (Some (Errorf "stat zarf-cache/images/sha256:dd: permission denied"))).
  - discriminate Habs.
  - injection Hl as <-. exists l. split; assumption.
Defined.

(** A cache in which no blob of the image has a wrong size is only looked
    at. *)
Lemma untouched_when_clean (h : Host) (sched : list nat) (img : v1Image)
    (layers : list Layer) (fs0 : FS) :
  img_Layers img = Ok layers ->
  (forall l p, l ∈ layers -> ~ mismatched h fs0 l p) ->
  (CleanupInProgressLayers h sched img fs0).1 = fs0
  /\ forall o p, (o, p) ∈ cleanup_calls h sched img fs0 -> o = OpStat.
Proof.
  intros Hl Hclean. unfold CleanupInProgressLayers, cleanup_calls. rewrite Hl. simpl.
  assert (HU : Untouched h layers fs0
                 (run h (complete sched (length layers)) (start layers fs0))).
  { apply run_untouched; [exact Hclean | apply start_untouched]. }
  split; [apply (u_fs _ _ _ _ HU) | apply (u_log _ _ _ _ HU)].
Qed.

(** X13: when no cache blob of the image has a wrong size (each is
    missing, or of the size its layer records), the cleanup only looks: the
    file system comes back as it was and every call made is an
    [os.Stat]. *)
Theorem clean_cache_is_only_read (h : Host) (sched : list nat) (img : v1Image)
    (layers : list Layer) (fs0 : FS) :
  img_Layers img = Ok layers ->
  (forall l digest size info,
     l ∈ layers -> layer_Digest l = Ok digest -> layer_Size l = Ok size ->
     os_Stat h fs0 (location h digest) = Ok info -> info_Size info = size) ->
  (CleanupInProgressLayers h sched img fs0).1 = fs0
  /\ forall o p, (o, p) ∈ cleanup_calls h sched img fs0 -> o = OpStat.
Proof.
  intros Hl Hclean. apply (untouched_when_clean h sched img layers fs0 Hl).
  intros l p Hin (digest & size & info & Hd & -> & Hsz & Hst & Hneq).
  apply Hneq. eapply Hclean; eassumption.
Qed.

Definition layers_ok : list Layer := [layer_w "aa" 3; layer_w "cc" 4].

Definition img_ok : v1Image :=
  {| img_Manifest := Ok (mkManifest 10); img_Layers := Ok layers_ok; img_cache := None |}.

Lemma clean_cache_is_only_read_witness :
  (CleanupInProgressLayers host_w [1; 0]%nat img_ok fs_w).1 = fs_w.
Proof.
  refine (proj1 (clean_cache_is_only_read host_w [1; 0]%nat img_ok layers_ok fs_w eq_refl _)).
  intros l digest size info Hin Hd Hsz Hst. unfold layers_ok in Hin.
  apply elem_of_cons in Hin as [->|Hin]; [|apply list_elem_of_singleton in Hin as ->];
    injection Hd as <-; injection Hsz as <-; vm_compute in Hst;
    [injection Hst as <-; reflexivity | discriminate Hst].
Defined.

(** X14: the cleanup is idempotent. When [os.Remove] is refused for no
    entry of the cache directory and no entry of it is a directory, a
    second cleanup of the same image, whatever its schedule, finds nothing
    to remove: it returns the file system the first one left and calls
    only [os.Stat]. *)
Theorem cleanup_idempotent (h : Host) (sched1 sched2 : list nat) (img : v1Image) (fs0 : FS) :
  (forall name, fault h OpRemove (cacheDir h ++ [name]) = None) ->
  (forall name, fs0 !! (cacheDir h ++ [name]) <> Some Dir) ->
  let fs1 := (CleanupInProgressLayers h sched1 img fs0).1 in
  (CleanupInProgressLayers h sched2 img fs1).1 = fs1
  /\ forall o p, (o, p) ∈ cleanup_calls h sched2 img fs1 -> o = OpStat.
Proof.
  intros Hrm Hnodir fs1.
  destruct (img_Layers img) as [layers|e] eqn:Hl.
  2:{ unfold fs1, CleanupInProgressLayers, cleanup_calls. rewrite Hl. simpl.
      split; [reflexivity|]. intros o p Hin. by apply elem_of_nil in Hin. }
  apply (untouched_when_clean h sched2 img layers fs1 Hl).
  intros l p Hin (digest & size & info & Hd & -> & Hsz & Hst & Hneq).
  unfold fs1, CleanupInProgressLayers in Hst. rewrite Hl in Hst. simpl in Hst.
  set (s := run h (complete sched1 (length layers)) (start layers fs0)) in *.
  assert (HI : Inv h layers fs0 s) by apply cleanup_run_inv, cleanup_start_inv.
  pose proof (stat_now h layers fs0 s (location h digest) HI) as Hnow.
  rewrite Hst in Hnow. destruct Hnow as [Hst0 Hsame].
  apply list_elem_of_lookup_1 in Hin as [i Hi].
  assert (Hlt : (i < length (tasks s))%nat).
  { unfold s. rewrite cleanup_run_length. simpl. rewrite length_map.
    eapply lookup_lt_Some, Hi. }
  destruct (lookup_lt_is_Some_2 _ _ Hlt) as [t Ht].
  assert (Hdone : exists l' r, t = Done l' r).
  { eapply (complete_all_done h sched1 (start layers fs0) i).
    simpl. rewrite length_map. exact Ht. }
  destruct Hdone as (l' & r & ->).
  destruct (inv_task _ _ _ _ HI i _ Ht) as (l0 & Hl0 & Hok). simpl in Hok.
  rewrite Hi in Hl0. injection Hl0 as <-. destruct Hok as [-> Hout].
  unfold outcome in Hout. rewrite Hd, Hsz, Hst0 in Hout.
  rewrite (proj2 (Z.eqb_neq _ _) Hneq) in Hout.
  destruct Hout as [Hnone|[Hfault|Hdir]].
  - unfold os_Stat, stat_with in Hst. rewrite Hnone in Hst.
    destruct (fault h OpStat (location h digest)); discriminate.
  - unfold location in Hfault. rewrite Hrm in Hfault. by inversion Hfault.
  - eapply Hnodir. exact Hdir.
Qed.

Lemma cleanup_idempotent_witness :
  let fs1 := (CleanupInProgressLayers host_w [3; 1; 0; 1; 2]%nat img_w fs_w).1 in
  (CleanupInProgressLayers host_w [0; 1; 2; 3]%nat img_w fs1).1 = fs1.
Proof.
  intros fs1.
  refine (proj1 (cleanup_idempotent host_w [3; 1; 0; 1; 2]%nat [0; 1; 2; 3]%nat img_w fs_w _ _)).
  - reflexivity.
  - intros name Hdir. unfold fs_w in Hdir. apply elem_of_list_to_map_2 in Hdir.
    repeat (apply elem_of_cons in Hdir as [Hdir|Hdir];
            [first [ discriminate Hdir
                   | injection Hdir as Hp; apply (f_equal length) in Hp;
                     vm_compute in Hp; discriminate Hp ]|]).
    by apply elem_of_nil in Hdir.
Defined.

End CleanupMore.

(** ** Two layers with one digest: the result depends on the schedule *)
Module CleanupRace.
Import OS Cleanup CleanupSpec.
#[local] Open Scope list_scope.

Lemma run_Some (h : Host) (i : nat) (sched : list nat) (s s' : State) :
  step h i s = Some s' -> run h (i :: sched) s = run h sched s'.
Proof. intros Hs. simpl. now rewrite Hs. Qed.

Lemma run_None (h : Host) (i : nat) (sched : list nat) (s : State) :
  step h i s = None -> run h (i :: sched) s = run h sched s.
Proof. intros Hs. simpl. now rewrite Hs. Qed.

Lemma step_Done (h : Host) (i : nat) (s : State) (l : Layer) (r : option error) :
  tasks s !! i = Some (Done l r) -> step h i s = None.
Proof. intros Ht. unfold step. now rewrite Ht. Qed.

Lemma step_stat_mismatch (h : Host) (i : nat) (s : State) (l : Layer) (digest : Hash)
    (size : Z) (c : string) :
  tasks s !! i = Some (Pending l) ->
  layer_Digest l = Ok digest -> layer_Size l = Ok size ->
  fault h OpStat (location h digest) = None ->
  fs s !! location h digest = Some (File c) ->
  Z.of_nat (String.length c) <> size ->
  step h i s
  = Some {| fs := fs s;
            tasks := <[i := Removing l digest (location h digest)]> (tasks s);
            firstErr := firstErr s;
            log := log s ++ [(OpStat, location h digest)] |}.
Proof.
  intros Ht Hd Hsz Hf Hfile Hneq. unfold step. rewrite Ht, Hd, Hsz.
  unfold stat_step, os_Stat, stat_with. simpl. rewrite Hf, Hfile. simpl.
  now rewrite (proj2 (Z.eqb_neq _ _) Hneq).
Qed.

Lemma step_stat_missing (h : Host) (i : nat) (s : State) (l : Layer) (digest : Hash)
    (size : Z) :
  tasks s !! i = Some (Pending l) ->
  layer_Digest l = Ok digest -> layer_Size l = Ok size ->
  fault h OpStat (location h digest) = None ->
  fs s !! location h digest = None ->
  step h i s = Some (finish i l None (fs s) (logged OpStat (location h digest) s)).
Proof.
  intros Ht Hd Hsz Hf Hnone. unfold step. rewrite Ht, Hd, Hsz.
  unfold stat_step, os_Stat, stat_with. simpl. now rewrite Hf, Hnone.
Qed.

Lemma step_remove_file (h : Host) (i : nat) (s : State) (l : Layer) (digest : Hash)
    (loc : path) (c : string) :
  tasks s !! i = Some (Removing l digest loc) ->
  fault h OpRemove loc = None ->
  fs s !! loc = Some (File c) ->
  step h i s = Some (finish i l None (delete loc (fs s)) (logged OpRemove loc s)).
Proof.
  intros Ht Hf Hfile. unfold step. rewrite Ht.
  unfold remove_step, os_Remove. simpl. now rewrite Hf, Hfile.
Qed.

Lemma step_remove_missing (h : Host) (i : nat) (s : State) (l : Layer) (digest : Hash)
    (loc : path) :
  tasks s !! i = Some (Removing l digest loc) ->
  fault h OpRemove loc = None ->
  fs s !! loc = None ->
  step h i s
  = Some (finish i l
            (Some (Wrap ("failed to remove incomplete layer " ++ Hex digest ++ ": ")%string
                     (not_exist "remove" loc)))
            (fs s) (logged OpRemove loc s)).
Proof.
  intros Ht Hf Hnone. unfold step. rewrite Ht.
  unfold remove_step, os_Remove. simpl. now rewrite Hf, Hnone.
Qed.

(** X15: an image with two layers of one digest, whose blob in the cache
    has neither recorded size. When the goroutine of the first layer ends
    before the other starts, the blob is deleted and the cleanup returns no
    error. When both have called [os.Stat] before either calls
    [os.Remove], the blob is deleted all the same, but the second
    [os.Remove] finds nothing and the cleanup returns "failed to remove
    incomplete layer": the error of the cleanup depends on the schedule. *)
Theorem cleanup_depends_on_schedule (h : Host) (img : v1Image) (l1 l2 : Layer)
    (digest : Hash) (size1 size2 : Z) (content : string) (fs0 : FS) :
  img_Layers img = Ok [l1; l2] ->
  layer_Digest l1 = Ok digest -> layer_Digest l2 = Ok digest ->
  layer_Size l1 = Ok size1 -> layer_Size l2 = Ok size2 ->
  fs0 !! location h digest = Some (File content) ->
  Z.of_nat (String.length content) <> size1 ->
  Z.of_nat (String.length content) <> size2 ->
  fault h OpStat (location h digest) = None ->
  fault h OpRemove (location h digest) = None ->
  CleanupInProgressLayers h [0; 0; 1; 1]%nat img fs0 = (delete (location h digest) fs0, None)
  /\ CleanupInProgressLayers h [0; 1; 0; 1]%nat img fs0
     = (delete (location h digest) fs0,
        Some (Wrap ("failed to remove incomplete layer " ++ Hex digest ++ ": ")%string
                (not_exist "remove" (location h digest)))).
Proof.
  intros Hl Hd1 Hd2 Hs1 Hs2 Hfile Hn1 Hn2 Hfs Hfr.
  unfold CleanupInProgressLayers. rewrite Hl. unfold complete.
  change (length [l1; l2]) with 2%nat. change (seq 0 2) with [0; 1]%nat.
  split.
  - change ([0; 0; 1; 1] ++ [0; 1] ++ [0; 1])%nat with [0; 0; 1; 1; 0; 1; 0; 1]%nat.
    erewrite run_Some by (eapply (step_stat_mismatch h 0);
          [reflexivity | exact Hd1 | exact Hs1 | exact Hfs | exact Hfile | exact Hn1]).
    erewrite run_Some by (eapply (step_remove_file h 0); [reflexivity | exact Hfr | exact Hfile]).
    erewrite run_Some
      by (eapply (step_stat_missing h 1);
          [reflexivity | exact Hd2 | exact Hs2 | exact Hfs | apply lookup_delete_eq]).
    do 5 (erewrite run_None by (eapply step_Done; reflexivity)).
    reflexivity.
  - change ([0; 1; 0; 1] ++ [0; 1] ++ [0; 1])%nat with [0; 1; 0; 1; 0; 1; 0; 1]%nat.
    erewrite run_Some by (eapply (step_stat_mismatch h 0);
          [reflexivity | exact Hd1 | exact Hs1 | exact Hfs | exact Hfile | exact Hn1]).
    erewrite run_Some by (eapply (step_stat_mismatch h 1);
          [reflexivity | exact Hd2 | exact Hs2 | exact Hfs | exact Hfile | exact Hn2]).
    erewrite run_Some by (eapply (step_remove_file h 0); [reflexivity | exact Hfr | exact Hfile]).
    erewrite run_Some
      by (eapply (step_remove_missing h 1);
          [reflexivity | exact Hfr | apply lookup_delete_eq]).
    do 4 (erewrite run_None by (eapply step_Done; reflexivity)).
    reflexivity.
Qed.

Definition img_twice : v1Image :=
  {| img_Manifest := Ok (mkManifest 10);
     img_Layers := Ok [layer_w "bb" 5; layer_w "bb" 5];
     img_cache := None |}.

Lemma cleanup_depends_on_schedule_witness :
  (CleanupInProgressLayers host_w [0; 0; 1; 1]%nat img_twice fs_w).2 = None
  /\ (CleanupInProgressLayers host_w [0; 1; 0; 1]%nat img_twice fs_w).2
     = Some (Wrap "failed to remove incomplete layer bb: "
               (not_exist "remove" ["zarf-cache"; "images"; "sha256:bb"])).
Proof.
  destruct (cleanup_depends_on_schedule host_w img_twice (layer_w "bb" 5) (layer_w "bb" 5)
              (mkHash "sha256" "bb") 5 5 "ab" fs_w eq_refl eq_refl eq_refl eq_refl eq_refl)
    as [Ha Hb].
  - vm_cast_no_check (eq_refl (Some (File "ab"))).
  - discriminate.
  - discriminate.
  - reflexivity.
  - reflexivity.
  - rewrite Ha, Hb. split; reflexivity.
Defined.

End CleanupRace.

(** ** [zarf tools clear-cache] (package tools) and the cleanup *)
Module ClearCache.
Import OS Cleanup CleanupSpec CleanupMore.
#[local] Open Scope list_scope.

(** [os.RemoveAll(path)] removes [path] and everything below it, and
    returns [nil] also when there is nothing at [path]. When it fails it
    may have removed a part of the tree: what is then left, and the error,
    are given by [refusal]. *)
Record Remover : Type := mkRemover {
  refusal : FS -> path -> option (FS * error)
}.

Definition os_RemoveAll (rm : Remover) (fs : FS) (p : path) : FS * option error :=
  match refusal rm fs p with
  | Some (fs', e) => (fs', Some e)
  | None => (filter (fun qn : path * node => ~ p `prefix_of` qn.1) fs, None)
  end.

(** The [RunE] of [clearCacheCmd]. The two messages it prints are left
    out. *)
Definition clearCache (rm : Remover) (h : Host) (fs : FS) : FS * option error :=
  match os_RemoveAll rm fs (GetAbsCachePath h) with
  | (fs', Some err) =>
      (fs', Some (Wrap ("unable to clear the cache directory "
                        ++ path_string (GetAbsCachePath h) ++ ": ")%string err))
  | (fs', None) => (fs', None)
  end.

Lemma location_in_cache (h : Host) (digest : Hash) :
  GetAbsCachePath h `prefix_of` location h digest.
Proof.
  unfold location, cacheDir. exists ([ImagesDir h] ++ [Hash_String digest]).
  now rewrite <- app_assoc.
Qed.

(** X16: [zarf tools clear-cache] fails only when [os.RemoveAll] does, and
    wraps its error. When it succeeds nothing is left at or below
    [config.GetAbsCachePath()] and everything else is as it was; a cleanup
    of any image then finds no blob: it changes nothing, calls only
    [os.Stat], and returns no error as long as the layers give their digest
    and size and [os.Stat] is not refused. *)
Theorem cleanup_after_clear_cache (rm : Remover) (h : Host) (sched : list nat)
    (img : v1Image) (layers : list Layer) (fs fs' : FS) :
  clearCache rm h fs = (fs', None) ->
  img_Layers img = Ok layers ->
  (forall p n, fs' !! p = Some n <-> fs !! p = Some n /\ ~ GetAbsCachePath h `prefix_of` p)
  /\ (CleanupInProgressLayers h sched img fs').1 = fs'
  /\ (forall o p, (o, p) ∈ cleanup_calls h sched img fs' -> o = OpStat)
  /\ ((forall l, l ∈ layers ->
         exists digest size,
           layer_Digest l = Ok digest /\ layer_Size l = Ok size
           /\ fault h OpStat (location h digest) = None) ->
      (CleanupInProgressLayers h sched img fs').2 = None).
Proof.
  intros Hclear Hl.
  assert (Hfs : forall p n, fs' !! p = Some n
                            <-> fs !! p = Some n /\ ~ GetAbsCachePath h `prefix_of` p).
  { revert Hclear. unfold clearCache, os_RemoveAll.
    destruct (refusal rm fs (GetAbsCachePath h)) as [[fs1 e]|]; [discriminate|].
    intros [= <-] p n. rewrite map_lookup_filter_Some. reflexivity. }
  assert (Hgone : forall digest, fs' !! location h digest = None).
  { intros digest. destruct (fs' !! location h digest) as [n|] eqn:Hn; [|reflexivity].
    apply Hfs in Hn as [_ Hn]. exfalso. apply Hn, location_in_cache. }
  assert (Hstat : forall digest info, os_Stat h fs' (location h digest) <> Ok info).
  { intros digest info. unfold os_Stat, stat_with. rewrite Hgone.
    destruct (fault h OpStat (location h digest)); discriminate. }
  assert (Hclean : forall l p, l ∈ layers -> ~ mismatched h fs' l p).
  { intros l p _ (digest & size & info & _ & -> & _ & Hst & _). eapply Hstat, Hst. }
  split; [exact Hfs|].
  destruct (untouched_when_clean h sched img layers fs' Hl Hclean) as [Hsame Hcalls].
  split; [exact Hsame|]. split; [exact Hcalls|].
  intros Hwell. destruct ((CleanupInProgressLayers h sched img fs').2) as [e|] eqn:He;
    [|reflexivity]. exfalso.
  destruct (cleanup_layer_error h sched img layers fs' e Hl He) as (l & Hin & Herr).
  destruct (Hwell l Hin) as (digest & size & Hd & Hsz & Hf).
  destruct Herr as [Hd'|(digest' & Hd' & [Hsz'|(size' & Hsz' & Hcase)])]; [congruence| |].
  - rewrite Hd in Hd'. injection Hd' as <-. congruence.
  - rewrite Hd in Hd'. injection Hd' as <-.
    destruct Hcase as [[Hst Hne]|(info & cause & Hst & _)]; [|eapply Hstat, Hst].
    unfold os_Stat, stat_with in Hst. rewrite Hf, Hgone in Hst.
    injection Hst as <-. discriminate Hne.
Qed.

Lemma cleanup_after_clear_cache_witness :
  let cleared := (clearCache (mkRemover (fun _ _ => None)) host_w fs_w).1 in
  CleanupInProgressLayers host_w [1; 0]%nat img_ok cleared = (cleared, None).
Proof.
  intros cleared.
  destruct (cleanup_after_clear_cache (mkRemover (fun _ _ => None)) host_w [1; 0]%nat img_ok
              layers_ok fs_w cleared eq_refl eq_refl) as (_ & Hsame & _ & Hnone).
  rewrite (surjective_pairing (CleanupInProgressLayers host_w [1; 0]%nat img_ok cleared)).
  rewrite Hsame, Hnone; [reflexivity|].
  intros l Hin. unfold layers_ok in Hin.
  apply elem_of_cons in Hin as [->|Hin]; [|apply list_elem_of_singleton in Hin as ->];
    eexists _, _; repeat split.
Defined.

End ClearCache.

(** ** More on the save strategies *)
Module SaveMore.
Import OS Save SaveSpec.
#[local] Open Scope list_scope.

(** [desc.Annotations = annotations]: the descriptor [SaveConcurrent]
    appends for the key [k]. *)
Definition annotated (k : Image) (d : LayoutDescriptor) : LayoutDescriptor :=
  {| ld_Digest := ld_Digest d; ld_Annotations := annotations_of k |}.

Section Events.
Variable rt : Runtime.
Variable h : Host.
Variable cl : LayoutWriter.
Variable order : list (Image * v1Image).
Variable w0 : World.
Hypothesis order_NoDup : NoDup order.*1.

(** What has come before an event of [SaveConcurrent]. *)
Definition event_ok (before : list SaveEvent) (ev : SaveEvent) : Prop :=
  match ev with
  | Ev_WriteImage k v _ => (k, v) ∈ order /\ exists d, partial_Descriptor cl v = Ok d
  | Ev_AppendDescriptor k d _ =>
      exists v d0,
        (k, v) ∈ order /\ partial_Descriptor cl v = Ok d0 /\ d = annotated k d0
        /\ Ev_WriteImage k v None ∈ before
  | Ev_Cleanup v _ => exists k err, Ev_WriteImage k v (Some err) ∈ before
  | Ev_WarnErr e msg => msg = clear_cache_hint /\ exists v, Ev_Cleanup v (Some e) ∈ before
  | Ev_Start _ _ | Ev_AppendImage _ _ _ _ | Ev_Warnf _ => False
  end.

Definition ordered (evs : list SaveEvent) : Prop :=
  forall a ev b, evs = a ++ ev :: b -> event_ok a ev.

Lemma ordered_snoc (evs : list SaveEvent) (x : SaveEvent) :
  ordered evs -> event_ok evs x -> ordered (evs ++ [x]).
Proof.
  intros Hord Hx a ev b Heq. destruct b as [|y b] using rev_ind.
  - apply app_inj_tail in Heq as [-> ->]. exact Hx.
  - clear IHb. change (a ++ ev :: b ++ [y]) with (a ++ (ev :: b) ++ [y]) in Heq.
    rewrite app_assoc in Heq. apply app_inj_tail in Heq as [-> _].
    eapply Hord. reflexivity.
Qed.

(** What the goroutine of a task has done so far. *)
Definition history (evs : list SaveEvent) (t : Task) : Prop :=
  match t with
  | Pending _ _ => True
  | Written k v d => partial_Descriptor cl v = Ok d /\ Ev_WriteImage k v None ∈ evs
  | Done k v r =>
      match partial_Descriptor cl v with
      | Err e => r = Some e
      | Ok d =>
          (exists err a b cerr,
             r = Some err /\ evs = a ++ Ev_WriteImage k v (Some err) :: b
             /\ Ev_Cleanup v cerr ∈ b)
          \/ (Ev_WriteImage k v None ∈ evs /\ Ev_AppendDescriptor k (annotated k d) r ∈ evs)
      end
  end.

Lemma history_mono (evs new : list SaveEvent) (t : Task) :
  history evs t -> history (evs ++ new) t.
Proof.
  destruct t as [k v|k v d|k v r]; simpl; [auto| |].
  - intros [Hd Hin]. split; [assumption|]. apply elem_of_app. now left.
  - destruct (partial_Descriptor cl v) as [d|e]; [|auto].
    intros [(err & a & b & cerr & -> & -> & Hin)|[Hw Ha]].
    + left. exists err, a, (b ++ new), cerr. split; [reflexivity|].
      split; [now rewrite <- app_assoc|]. apply elem_of_app. now left.
    + right. split; apply elem_of_app; now left.
Qed.

Record EInv (s : State) : Prop := mkEInv {
  e_inv : Inv order w0 s;
  e_events : exists rest,
      events (world s) = events w0 ++ rest
      /\ ordered rest
      /\ forall i t, tasks s !! i = Some t -> history rest t
}.

Lemma einv_moved (s : State) (i : nat) (t t' : Task) (w' : World)
    (saved' : gmap Image v1Image) (err' : option error) (new : list SaveEvent) :
  EInv s ->
  Inv order w0 {| world := w'; tasks := <[i := t']> (tasks s); saved := saved';
                  firstErr := err' |} ->
  tasks s !! i = Some t ->
  events w' = events (world s) ++ new ->
  (forall rest, ordered rest -> history rest t -> ordered (rest ++ new)) ->
  (forall rest, ordered rest -> history rest t -> history (rest ++ new) t') ->
  EInv {| world := w'; tasks := <[i := t']> (tasks s); saved := saved'; firstErr := err' |}.
Proof.
  intros [HI (rest & Hev & Hord & Hhist)] HI' Ht Hnew Hord' Ht'.
  split; [exact HI'|]. exists (rest ++ new). simpl.
  split; [now rewrite Hnew, Hev, app_assoc|].
  split; [apply Hord'; [assumption | eapply Hhist, Ht]|].
  intros j tj. destruct (decide (i = j)) as [<-|Hne].
  - rewrite list_lookup_insert_eq by (eapply lookup_lt_Some, Ht). intros [= <-].
    apply Ht'; [assumption | eapply Hhist, Ht].
  - rewrite list_lookup_insert_ne by assumption. intros Hj.
    apply history_mono. eapply Hhist, Hj.
Qed.

Lemma step_einv (i : nat) (s s' : State) :
  EInv s -> step rt h cl i s = Some s' -> EInv s'.
Proof.
  intros HE Hstep.
  assert (HI' : Inv order w0 s').
  { eapply save_step_inv; [exact order_NoDup | apply (e_inv _ HE) | exact Hstep]. }
  revert Hstep HI'. unfold step.
  destruct (tasks s !! i) as [[k v|k v d|k v r]|] eqn:Ht; try discriminate.
  - assert (Hin : (k, v) ∈ order).
    { eapply list_elem_of_lookup_2. apply (inv_task _ _ _ (e_inv _ HE) _ _ Ht). }
    destruct (partial_Descriptor cl v) as [d|e] eqn:Hd.
    + destruct (WriteImage cl (wfs (world s)) v) as [fs' [err|]]; intros [= <-] HI'.
      * destruct (events_cleanup rt h v (emit (Ev_WriteImage k v (Some err)) fs' (world s)))
          as [cerr Hev].
        eapply (einv_moved s i _ _ _ _ _
                  (Ev_WriteImage k v (Some err) :: Ev_Cleanup v cerr
                     :: match cerr with
                        | Some ce => [Ev_WarnErr ce clear_cache_hint]
                        | None => []
                        end)); try eassumption.
        -- rewrite Hev, events_emit, <- app_assoc. reflexivity.
        -- intros rest Hord _.
           assert (H1 : ordered (rest ++ [Ev_WriteImage k v (Some err)])).
           { apply ordered_snoc; [assumption|]. simpl. eauto. }
           assert (H2 : ordered ((rest ++ [Ev_WriteImage k v (Some err)])
                                 ++ [Ev_Cleanup v cerr])).
           { apply ordered_snoc; [assumption|]. simpl. exists k, err.
             apply elem_of_app. right. now left. }
           destruct cerr as [ce|].
           ++ replace (rest ++ [Ev_WriteImage k v (Some err); Ev_Cleanup v (Some ce);
                                Ev_WarnErr ce clear_cache_hint])
                with (((rest ++ [Ev_WriteImage k v (Some err)]) ++ [Ev_Cleanup v (Some ce)])
                      ++ [Ev_WarnErr ce clear_cache_hint])
                by (now rewrite <- !app_assoc).
              apply ordered_snoc; [assumption|]. simpl. split; [reflexivity|].
              exists v. apply elem_of_app. right. now left.
           ++ replace (rest ++ [Ev_WriteImage k v (Some err); Ev_Cleanup v None])
                with ((rest ++ [Ev_WriteImage k v (Some err)]) ++ [Ev_Cleanup v None])
                by (now rewrite <- !app_assoc).
              assumption.
        -- intros rest _ _. simpl. rewrite Hd. left.
           eexists err, rest, _, cerr. split; [reflexivity|]. split; [reflexivity|]. now left.
      * eapply (einv_moved s i _ _ _ _ _ [Ev_WriteImage k v None]); try eassumption.
        -- reflexivity.
        -- intros rest Hord _. apply ordered_snoc; [assumption|]. simpl. eauto.
        -- intros rest _ _. simpl. split; [assumption|]. apply elem_of_app. right. now left.
    + intros [= <-] HI'.
      eapply (einv_moved s i _ _ _ _ _ []); try eassumption.
      * now rewrite app_nil_r.
      * intros rest Hord _. now rewrite app_nil_r.
      * intros rest _ _. simpl. now rewrite Hd.
  - assert (Hin : (k, v) ∈ order).
    { eapply list_elem_of_lookup_2. apply (inv_task _ _ _ (e_inv _ HE) _ _ Ht). }
    destruct (AppendDescriptor cl (wfs (world s)) _) as [fs' [err|]]; intros [= <-] HI';
      (eapply (einv_moved s i _ _ _ _ _ [Ev_AppendDescriptor k (annotated k d) _]);
       try eassumption;
       [ reflexivity
       | intros rest Hord [Hd Hw]; apply ordered_snoc; [assumption|]; simpl;
         exists v, d; auto
       | intros rest _ [Hd Hw]; simpl; rewrite Hd; right;
         split; apply elem_of_app; [now left | right; now left] ]).
Qed.

Lemma run_einv (sched : list nat) (s : State) : EInv s -> EInv (run rt h cl sched s).
Proof.
  revert s. induction sched as [|i sched IH]; intros s HE; simpl; [assumption|].
  apply IH. destruct (step rt h cl i s) as [s'|] eqn:Hstep; simpl; [|assumption].
  eapply step_einv; eassumption.
Qed.

Lemma start_einv : EInv (start order w0).
Proof.
  split; [now apply save_start_inv|]. exists []. simpl. rewrite app_nil_r.
  split; [reflexivity|]. split.
  - intros a ev b Heq. now destruct a.
  - intros i t Ht. rewrite list_lookup_fmap in Ht.
    destruct (order !! i) as [[k v]|]; [|discriminate]. injection Ht as <-. exact I.
Qed.

End Events.

(** The state [SaveConcurrent] ends in. *)
Lemma concurrent_final (rt : Runtime) (h : Host) (cl : LayoutWriter)
    (m : gmap Image v1Image) (w : World) :
  exists order w0 s,
    order = range_order rt (length (events w)) m
    /\ events w0 = events w ++ [Ev_Start Concurrent m]
    /\ SaveConcurrent rt h cl m w = (world s, saved s, firstErr s)
    /\ EInv cl order w0 s
    /\ forall i k v, order !! i = Some (k, v) -> exists r, tasks s !! i = Some (Done k v r).
Proof.
  set (order := range_order rt (length (events w)) m).
  set (w0 := emit (Ev_Start Concurrent m) (wfs w) w).
  set (s := run rt h cl (Cleanup.complete (save_sched rt (length (events w))) (length order))
              (start order w0)).
  exists order, w0, s.
  split; [reflexivity|]. split; [reflexivity|]. split; [reflexivity|].
  assert (HE : EInv cl order w0 s).
  { apply run_einv; [apply range_order_NoDup | apply start_einv]. }
  split; [exact HE|]. intros i k v Hi.
  assert (Hlt : (i < length (tasks s))%nat).
  { unfold s. rewrite save_run_with.
    rewrite (Goroutines.run_with_length tasks rank (step rt h cl) (save_step_progress rt h cl)).
    simpl. rewrite length_map. eapply lookup_lt_Some, Hi. }
  destruct (lookup_lt_is_Some_2 _ _ Hlt) as [t Ht].
  pose proof (inv_task _ _ _ (e_inv _ _ _ _ HE) _ _ Ht) as Ho.
  rewrite Hi in Ho. injection Ho as Hk Hv.
  assert (Hrank : (2 <= rank t)%nat).
  { unfold s in Ht. rewrite save_run_with in Ht.
    assert (Hlen : length order = length (tasks (start order w0))).
    { simpl. now rewrite length_map. }
    rewrite Hlen in Ht.
    apply (Goroutines.all_at_end tasks rank (step rt h cl)
             (save_step_progress rt h cl) (save_step_stuck rt h cl)) in Ht. exact Ht. }
  destruct t as [k' v'|k' v' d|k' v' r]; simpl in Hrank; try lia.
  simpl in Hk, Hv. subst. eauto.
Qed.

(** X17: the order of the calls of [SaveConcurrent]. [cl.WriteImage] is
    called only for an entry of the map whose [partial.Descriptor]
    succeeded. A descriptor is appended to the index only after the blobs
    of its image have been written without error, and it carries the
    digest of that image and, as its only annotation,
    [org.opencontainers.image.base.name] set to the [Reference] of the key.
    The cleanup runs only after a failed [cl.WriteImage] of the same image,
    never after a failed [partial.Descriptor] or [cl.AppendDescriptor], and
    the warning is printed only after a failed cleanup. *)
Theorem SaveConcurrent_writes_before_index (rt : Runtime) (h : Host) (cl : LayoutWriter)
    (m : gmap Image v1Image) (w : World) :
  exists rest,
    events (SaveConcurrent rt h cl m w).1.1 = events w ++ Ev_Start Concurrent m :: rest
    /\ forall a ev b, rest = a ++ ev :: b ->
         match ev with
         | Ev_WriteImage k v _ =>
             m !! k = Some v /\ exists d, partial_Descriptor cl v = Ok d
         | Ev_AppendDescriptor k d _ =>
             exists v d0,
               m !! k = Some v /\ partial_Descriptor cl v = Ok d0
               /\ ld_Digest d = ld_Digest d0
               /\ ld_Annotations d
                  = {[ "org.opencontainers.image.base.name"%string := Reference k ]}
               /\ Ev_WriteImage k v None ∈ a
         | Ev_Cleanup v _ => exists k err, Ev_WriteImage k v (Some err) ∈ a
         | Ev_WarnErr e msg =>
             msg = clear_cache_hint /\ exists v, Ev_Cleanup v (Some e) ∈ a
         | Ev_Start _ _ | Ev_AppendImage _ _ _ _ | Ev_Warnf _ => False
         end.
Proof.
  destruct (concurrent_final rt h cl m w) as (order & w0 & s & Horder & Hw0 & -> & HE & _).
  destruct (e_events _ _ _ _ HE) as (rest & Hev & Hord & _).
  exists rest. simpl. split; [now rewrite Hev, Hw0, <- app_assoc|].
  intros a ev b Heq. specialize (Hord a ev b Heq).
  destruct ev as [| |k v r|k d r|v r|e msg|]; simpl in Hord; try exact Hord.
  - destruct Hord as [Hin Hd]. split; [|exact Hd].
    apply (range_order_elem rt (length (events w))). now rewrite <- Horder.
  - destruct Hord as (v & d0 & Hin & Hd & -> & Hw). exists v, d0.
    split; [apply (range_order_elem rt (length (events w))); now rewrite <- Horder|].
    auto.
Qed.

(** X18: [SaveConcurrent] attempts every image of the map, whatever
    happens to the others. For each entry: either [partial.Descriptor]
    fails and nothing is written; or [cl.WriteImage] fails and the cleanup
    of that image follows; or the blobs are written and the descriptor is
    appended. The entry is in the returned map exactly in the last case
    when the append succeeds; in every other case the call returns an
    error. *)
Theorem SaveConcurrent_attempts_every_image (rt : Runtime) (h : Host) (cl : LayoutWriter)
    (m : gmap Image v1Image) (w : World) (k : Image) (v : v1Image) :
  m !! k = Some v ->
  let out := SaveConcurrent rt h cl m w in
  exists rest,
    events out.1.1 = events w ++ Ev_Start Concurrent m :: rest
    /\ match partial_Descriptor cl v with
       | Err e => out.1.2 !! k = None /\ out.2 <> None
       | Ok d =>
           (exists err a b cerr,
              rest = a ++ Ev_WriteImage k v (Some err) :: b /\ Ev_Cleanup v cerr ∈ b
              /\ out.1.2 !! k = None /\ out.2 <> None)
           \/ (Ev_WriteImage k v None ∈ rest
               /\ exists r, Ev_AppendDescriptor k (annotated k d) r ∈ rest
                            /\ match r with
                               | None => out.1.2 !! k = Some v
                               | Some _ => out.1.2 !! k = None /\ out.2 <> None
                               end)
       end.
Proof.
  intros Hm out. unfold out.
  destruct (concurrent_final rt h cl m w) as (order & w0 & s & Horder & Hw0 & -> & HE & Hdone).
  pose proof (e_inv _ _ _ _ HE) as HI.
  destruct (e_events _ _ _ _ HE) as (rest & Hev & _ & Hhist).
  exists rest. simpl. split; [now rewrite Hev, Hw0, <- app_assoc|].
  assert (Hin : (k, v) ∈ order).
  { rewrite Horder. now apply range_order_elem. }
  apply list_elem_of_lookup_1 in Hin as [i Hi].
  destruct (Hdone i k v Hi) as [r Ht].
  assert (Hfail : forall e, r = Some e -> saved s !! k = None /\ firstErr s <> None).
  { intros e ->. split.
    - destruct (saved s !! k) as [v'|] eqn:Hs; [|reflexivity].
      destruct (inv_saved _ _ _ HI _ _ Hs) as [j Hj].
      assert (i = j).
      { eapply (same_key_same_task order w0); eauto.
        rewrite Horder. apply range_order_NoDup. }
      subst j. rewrite Ht in Hj. discriminate.
    - destruct (inv_err _ _ _ HI _ _ _ _ Ht) as [e' He']. congruence. }
  specialize (Hhist i _ Ht). simpl in Hhist.
  destruct (partial_Descriptor cl v) as [d|e].
  - destruct Hhist as [(err & a & b & cerr & -> & -> & Hc)|[Hw Ha]].
    + left. exists err, a, b, cerr. destruct (Hfail err eq_refl). auto.
    + right. split; [assumption|]. exists r. split; [assumption|].
      destruct r as [e|]; [now apply (Hfail e)|]. eapply inv_done; eassumption.
  - now apply (Hfail e).
Qed.

Lemma SaveConcurrent_attempts_every_image_witness :
  let out := SaveConcurrent RetrySpec.runtime_w CleanupSpec.host_w RetrySpec.layout_w
               RetrySpec.fetched_ab RetrySpec.world_w in
  exists rest,
    events out.1.1 = Ev_Start Concurrent RetrySpec.fetched_ab :: rest
    /\ ((exists err a b cerr,
           rest = a ++ Ev_WriteImage RetrySpec.key_b (RetrySpec.image_of 2) (Some err) :: b
           /\ Ev_Cleanup (RetrySpec.image_of 2) cerr ∈ b
           /\ out.1.2 !! RetrySpec.key_b = None /\ out.2 <> None)
        \/ (Ev_WriteImage RetrySpec.key_b (RetrySpec.image_of 2) None ∈ rest
            /\ exists r,
                 Ev_AppendDescriptor RetrySpec.key_b
                   (annotated RetrySpec.key_b (mkLayoutDescriptor (mkHash "sha256" "00") ∅)) r
                 ∈ rest
                 /\ match r with
                    | None => out.1.2 !! RetrySpec.key_b = Some (RetrySpec.image_of 2)
                    | Some _ => out.1.2 !! RetrySpec.key_b = None /\ out.2 <> None
                    end)).
Proof.
  exact (SaveConcurrent_attempts_every_image RetrySpec.runtime_w CleanupSpec.host_w
           RetrySpec.layout_w RetrySpec.fetched_ab RetrySpec.world_w
           RetrySpec.key_b (RetrySpec.image_of 2) eq_refl).
Defined.

(** When [SaveSequential] returns an error, an entry of its input is not
    in the map it returns. *)
Lemma SaveSequential_error_key (rt : Runtime) (h : Host) (cl : LayoutWriter)
    (m : gmap Image v1Image) (w : World) (e : error) :
  (SaveSequential rt h cl m w).2 = Some e ->
  exists k v, m !! k = Some v /\ (SaveSequential rt h cl m w).1.2 !! k = None.
Proof.
  unfold SaveSequential.
  set (order := range_order rt (length (events w)) m).
  set (w0 := emit (Ev_Start Sequential m) (wfs w) w).
  destruct (seq_loop_spec rt h cl order ∅ w0) as (pre & rest & Horder & Hsaved & Hev).
  pose proof (range_order_NoDup rt (length (events w)) m) as Hnd. fold order in Hnd.
  rewrite Hsaved. intros He. rewrite He in Hev.
  destruct Hev as (info & img & rest' & cerr & -> & _).
  rewrite Horder, fmap_app in Hnd. apply NoDup_app in Hnd as (Hpre & Hdisj & _).
  exists info, img. split.
  - apply (range_order_elem rt (length (events w))). fold order. rewrite Horder.
    apply elem_of_app. right. now left.
  - rewrite insert_all_empty by assumption.
    destruct (list_to_map pre !! info) as [v|] eqn:Hv; [|reflexivity]. exfalso.
    apply elem_of_list_to_map_2 in Hv.
    eapply (Hdisj info); [eapply (list_elem_of_fmap_2 fst) in Hv; exact Hv | now left].
Qed.

(** X19: either strategy returns no error exactly when the map it returns
    is the whole of its input. *)
Theorem save_error_iff_incomplete (rt : Runtime) (h : Host) (cl : LayoutWriter)
    (m : gmap Image v1Image) (w : World) :
  ((SaveConcurrent rt h cl m w).2 = None <-> (SaveConcurrent rt h cl m w).1.2 = m)
  /\ ((SaveSequential rt h cl m w).2 = None <-> (SaveSequential rt h cl m w).1.2 = m).
Proof.
  split.
  - split; [apply (SaveConcurrent_ok rt h cl m w)|].
    destruct (concurrent_final rt h cl m w) as (order & w0 & s & Horder & Hw0 & -> & HE & Hdone).
    pose proof (e_inv _ _ _ _ HE) as HI. simpl. intros Hsaved.
    destruct (firstErr s) as [e|] eqn:He; [|reflexivity]. exfalso.
    destruct (inv_first _ _ _ HI e He) as (i & k & v & Hi).
    pose proof (inv_task _ _ _ HI _ _ Hi) as Ho. simpl in Ho.
    assert (Hm : m !! k = Some v).
    { apply (range_order_elem rt (length (events w))). rewrite <- Horder.
      eapply list_elem_of_lookup_2, Ho. }
    rewrite <- Hsaved in Hm. destruct (inv_saved _ _ _ HI _ _ Hm) as [j Hj].
    assert (i = j).
    { eapply (same_key_same_task order w0); eauto. rewrite Horder. apply range_order_NoDup. }
    subst j. rewrite Hi in Hj. discriminate.
  - split; [apply (SaveSequential_ok rt h cl m w)|].
    intros Hall. destruct ((SaveSequential rt h cl m w).2) as [e|] eqn:He; [|reflexivity].
    destruct (SaveSequential_error_key rt h cl m w e He) as (k & v & Hm & Hnone).
    rewrite Hall in Hnone. congruence.
Qed.

End SaveMore.

(** ** More on the retry and fallback policy of [Pull] *)
Module PolicyMore.
Import OS Save SaveSpec RetrySpec SaveMore.
#[local] Open Scope list_scope.

Lemma sc_events (rt : Runtime) (h : Host) (cl : LayoutWriter) (st : Saving) :
  exists rest,
    events (sworld (sc rt h cl st).1)
    = events (sworld st) ++ Ev_Start Concurrent (toPull st) :: rest
    /\ no_start rest.
Proof.
  destruct (SaveConcurrent_ok rt h cl (toPull st) (sworld st))
    as (_ & _ & rest & Hev & Hns & _).
  exists rest. unfold sc.
  destruct (SaveConcurrent rt h cl (toPull st) (sworld st)) as [[w' saved] err]. auto.
Qed.

Lemma ss_events (rt : Runtime) (h : Host) (cl : LayoutWriter) (st : Saving) :
  exists rest,
    events (sworld (ss rt h cl st).1)
    = events (sworld st) ++ Ev_Start Sequential (toPull st) :: rest
    /\ no_start rest.
Proof.
  destruct (SaveSequential_ok rt h cl (toPull st) (sworld st))
    as (_ & _ & rest & Hev & Hns & _).
  exists rest. unfold ss.
  destruct (SaveSequential rt h cl (toPull st) (sworld st)) as [[w' saved] err]. auto.
Qed.

Lemma attempts_cons (strategy : Strategy) (ev : SaveEvent) (evs : list SaveEvent) :
  attempts strategy (ev :: evs) = (attempts strategy [ev] + attempts strategy evs)%nat.
Proof. apply (attempts_app strategy [ev] evs). Qed.

Lemma attempts_Warnf (strategy : Strategy) (msg : string) (evs : list SaveEvent) :
  attempts strategy (Ev_Warnf msg :: evs) = attempts strategy evs.
Proof. rewrite attempts_cons. reflexivity. Qed.

(** [helpers.Retry(fn, 2, ...)]: a second attempt after a failed first
    one, whose result is then the result of the whole. *)
Lemma Retry_2 {S : Type} (fn : S -> S * option error) (logger : error -> S -> S) (s : S) :
  Retry fn 2 logger s
  = match fn s with
    | (s', None) => (s', None)
    | (s', Some err) => fn (logger err s')
    end.
Proof.
  unfold Retry. cbn [Nat.sub retry_loop]. destruct (fn s) as [s1 [err|]]; [|reflexivity].
  destruct (fn (logger err s1)) as [s2 [err2|]]; reflexivity.
Qed.

Definition fallback_warning (err : error) : SaveEvent :=
  Ev_Warnf ("Failed to save images in parallel, falling back to sequential save: "
            ++ Error err)%string.

(** The attempts of the policy that follow the first one, and what decides
    each of them. *)
Lemma save_policy_attempts (rt : Runtime) (h : Host) (cl : LayoutWriter)
    (fetched : gmap Image v1Image) (w : World) :
  let out := save_images rt h cl fetched w in
  exists new,
    events (sworld out.1) = events w ++ Ev_Start Concurrent fetched :: new
    /\ (attempts Concurrent new <= 1)%nat
    /\ (attempts Sequential new <= 2)%nat
    /\ ((0 < attempts Sequential new)%nat ->
        attempts Concurrent new = 1%nat
        /\ exists pre err post,
             new = pre ++ fallback_warning err :: post
             /\ attempts Sequential pre = 0%nat /\ attempts Concurrent post = 0%nat)
    /\ (out.2 <> None -> attempts Concurrent new = 1%nat /\ attempts Sequential new = 2%nat)
    /\ match sc rt h cl {| toPull := fetched; sworld := w |} with
       | (st1, None) =>
           out = (st1, None)
           /\ attempts Concurrent new = 0%nat /\ attempts Sequential new = 0%nat
       | (st1, Some e1) =>
           attempts Concurrent new = 1%nat
           /\ match sc rt h cl (retry_warning e1 st1) with
              | (st2, None) => out = (st2, None) /\ attempts Sequential new = 0%nat
              | (st2, Some e2) =>
                  fallback_warning e2 ∈ new
                  /\ match ss rt h cl
                                (warnf ("Failed to save images in parallel, falling back to sequential save: "
                                        ++ Error e2) st2) with
                     | (st3, None) => out = (st3, None) /\ attempts Sequential new = 1%nat
                     | (st3, Some e3) =>
                         out = ss rt h cl (retry_warning e3 st3)
                         /\ attempts Sequential new = 2%nat
                     end
              end
       end.
Proof.
  intros out. unfold out, save_images. rewrite Retry_2.
  set (st0 := {| toPull := fetched; sworld := w |}).
  destruct (sc_events rt h cl st0) as (r1 & He1 & Hn1).
  destruct (sc rt h cl st0) as [a1 [err1|]]; cbn [fst snd] in *.
  2:{ exists r1. split; [exact He1|].
      rewrite !(attempts_no_start _ r1 Hn1).
      repeat split; try lia; congruence. }
  destruct (sc_events rt h cl (retry_warning err1 a1)) as (r2 & He2 & Hn2).
  assert (Hc2 : forall strategy,
            attempts strategy (r1 ++ Ev_Warnf ("Retrying in 5s: " ++ Error err1)%string
                               :: Ev_Start Concurrent (toPull a1) :: r2)
            = attempts strategy [Ev_Start Concurrent (toPull a1)]).
  { intros strategy.
    rewrite attempts_app, attempts_Warnf, (attempts_cons _ _ r2).
    rewrite !(attempts_no_start _ _ Hn1), !(attempts_no_start _ _ Hn2). lia. }
  assert (Hev2 : events (sworld (sc rt h cl (retry_warning err1 a1)).1)
                 = events w ++ Ev_Start Concurrent fetched
                     :: (r1 ++ Ev_Warnf ("Retrying in 5s: " ++ Error err1)%string
                         :: Ev_Start Concurrent (toPull a1) :: r2)).
  { rewrite He2. cbn [retry_warning warnf sworld toPull emit events]. rewrite He1.
    repeat first [rewrite <- app_assoc | progress cbn [app]]. reflexivity. }
  clear He2.
  destruct (sc rt h cl (retry_warning err1 a1)) as [a2 [err2|]]; cbn [fst snd] in *.
  2:{ eexists. split; [exact Hev2|]. rewrite !Hc2, !attempts_start.
      repeat split; try lia; congruence. }
  rewrite Retry_2.
  set (msg := ("Failed to save images in parallel, falling back to sequential save: "
               ++ Error err2)%string).
  set (c := r1 ++ Ev_Warnf ("Retrying in 5s: " ++ Error err1)%string
            :: Ev_Start Concurrent (toPull a1) :: r2) in *.
  destruct (ss_events rt h cl (warnf msg a2)) as (r3 & He3 & Hn3).
  assert (Hev3 : events (sworld (ss rt h cl (warnf msg a2)).1)
                 = events w ++ Ev_Start Concurrent fetched
                     :: (c ++ Ev_Warnf msg :: Ev_Start Sequential (toPull a2) :: r3)).
  { rewrite He3. cbn [warnf sworld toPull emit events]. rewrite Hev2.
    repeat first [rewrite <- app_assoc | progress cbn [app]]. reflexivity. }
  clear He3.
  assert (Hc3 : forall strategy,
            attempts strategy (Ev_Start Sequential (toPull a2) :: r3)
            = attempts strategy [Ev_Start Sequential (toPull a2)]).
  { intros strategy. rewrite attempts_cons, (attempts_no_start _ _ Hn3). lia. }
  destruct (ss rt h cl (warnf msg a2)) as [b1 [err3|]]; cbn [fst snd] in *.
  2:{ eexists. split; [exact Hev3|].
      rewrite !attempts_app, !attempts_Warnf, !Hc2, !Hc3, !attempts_start.
      split; [lia|]. split; [lia|]. split; [|split; [congruence|]].
      - intros _. split; [lia|]. exists c, err2, (Ev_Start Sequential (toPull a2) :: r3).
        split; [reflexivity|]. rewrite Hc2, Hc3, !attempts_start. auto.
      - split; [lia|]. split; [apply elem_of_app; right; apply elem_of_cons; left; reflexivity|].
        split; [reflexivity | lia]. }
  destruct (ss_events rt h cl (retry_warning err3 b1)) as (r4 & He4 & Hn4).
  assert (Hev4 : events (sworld (ss rt h cl (retry_warning err3 b1)).1)
                 = events w ++ Ev_Start Concurrent fetched
                     :: (c ++ Ev_Warnf msg
                         :: (Ev_Start Sequential (toPull a2) :: r3)
                            ++ Ev_Warnf ("Retrying in 5s: " ++ Error err3)%string
                            :: Ev_Start Sequential (toPull b1) :: r4)).
  { rewrite He4. cbn [retry_warning warnf sworld toPull emit events]. rewrite Hev3.
    repeat first [rewrite <- app_assoc | progress cbn [app]]. reflexivity. }
  clear He4.
  assert (Hc4 : forall strategy,
            attempts strategy ((Ev_Start Sequential (toPull a2) :: r3)
                               ++ Ev_Warnf ("Retrying in 5s: " ++ Error err3)%string
                               :: Ev_Start Sequential (toPull b1) :: r4)
            = (attempts strategy [Ev_Start Sequential (toPull a2)]
               + attempts strategy [Ev_Start Sequential (toPull b1)])%nat).
  { intros strategy.
    rewrite attempts_app, Hc3, attempts_Warnf, (attempts_cons _ _ r4).
    rewrite (attempts_no_start _ _ Hn4). lia. }
  eexists. split; [exact Hev4|].
  rewrite !attempts_app, !attempts_Warnf, !Hc2, !Hc4, !attempts_start.
  split; [lia|]. split; [lia|]. split; [|split; [intros _; lia|]].
  - intros _. split; [lia|]. eexists c, err2, _.
    split; [reflexivity|]. rewrite Hc2, Hc4, !attempts_start. auto.
  - split; [lia|]. split; [apply elem_of_app; right; apply elem_of_cons; left; reflexivity|].
        split; [reflexivity | lia].
Qed.

(** X20: the order of the attempts of the save policy of [Pull], and what
    decides each. The first attempt is concurrent, over all the fetched
    images; when it returns no error nothing else is tried and the policy
    returns its result. When it fails there is a second concurrent attempt;
    when that one returns no error the sequential strategy is not tried.
    When it fails too, the fallback is announced with its error and the
    sequential strategy is tried, once when that attempt returns no error,
    twice otherwise, and the policy returns what the last attempt returned.
    So there are one or two concurrent attempts and at most two sequential
    ones, the sequential ones after the warning that announces the
    fallback, and [Pull] gives up only after two attempts of each. *)
Theorem save_policy_order (rt : Runtime) (h : Host) (cl : LayoutWriter)
    (fetched : gmap Image v1Image) (w : World) :
  let out := save_images rt h cl fetched w in
  exists rest,
    let evs := Ev_Start Concurrent fetched :: rest in
    events (sworld out.1) = events w ++ evs
    /\ (1 <= attempts Concurrent evs <= 2)%nat
    /\ (attempts Sequential evs <= 2)%nat
    /\ ((0 < attempts Sequential evs)%nat ->
        attempts Concurrent evs = 2%nat
        /\ exists pre err post,
             evs = pre ++ fallback_warning err :: post
             /\ attempts Sequential pre = 0%nat /\ attempts Concurrent post = 0%nat)
    /\ (out.2 <> None ->
        attempts Concurrent evs = 2%nat /\ attempts Sequential evs = 2%nat)
    /\ match sc rt h cl {| toPull := fetched; sworld := w |} with
       | (st1, None) =>
           out = (st1, None)
           /\ attempts Concurrent evs = 1%nat /\ attempts Sequential evs = 0%nat
       | (st1, Some e1) =>
           attempts Concurrent evs = 2%nat
           /\ match sc rt h cl (retry_warning e1 st1) with
              | (st2, None) => out = (st2, None) /\ attempts Sequential evs = 0%nat
              | (st2, Some e2) =>
                  fallback_warning e2 ∈ evs
                  /\ match ss rt h cl
                                (warnf ("Failed to save images in parallel, falling back to sequential save: "
                                        ++ Error e2) st2) with
                     | (st3, None) => out = (st3, None) /\ attempts Sequential evs = 1%nat
                     | (st3, Some e3) =>
                         out = ss rt h cl (retry_warning e3 st3)
                         /\ attempts Sequential evs = 2%nat
                     end
              end
       end.
Proof.
  intros out.
  destruct (save_policy_attempts rt h cl fetched w)
    as (rest & Hev & Hc & Hs & Hfall & Hfail & Htree).
  fold out in Hev, Hfail, Htree. exists rest. intros evs.
  assert (HC : attempts Concurrent evs = S (attempts Concurrent rest)).
  { unfold evs. rewrite attempts_cons, attempts_start. reflexivity. }
  assert (HS : attempts Sequential evs = attempts Sequential rest).
  { unfold evs. rewrite attempts_cons, attempts_start. reflexivity. }
  rewrite HC, HS. split; [exact Hev|]. split; [lia|]. split; [lia|].
  split; [|split].
  - intros Hpos. destruct (Hfall Hpos) as (Hc1 & pre & err & post & -> & Hpre & Hpost).
    split; [lia|]. exists (Ev_Start Concurrent fetched :: pre), err, post.
    split; [reflexivity|]. split; [|exact Hpost].
    rewrite attempts_cons, attempts_start. exact Hpre.
  - intros Hne. destruct (Hfail Hne). lia.
  - destruct (sc rt h cl {| toPull := fetched; sworld := w |}) as [st1 [e1|]].
    2:{ destruct Htree as (Hout & H1 & H2). split; [exact Hout|]. split; [lia | exact H2]. }
    destruct Htree as [H1 Htree]. split; [lia|].
    destruct (sc rt h cl (retry_warning e1 st1)) as [st2 [e2|]]; [|exact Htree].
    destruct Htree as [Hin Htree]. split; [unfold evs; now right|]. exact Htree.
Qed.

Lemma Retry_error {S : Type} (fn : S -> S * option error) (logger : error -> S -> S)
    (s : S) (e : error) :
  (Retry fn 2 logger s).2 = Some e ->
  exists s', Retry fn 2 logger s = fn s'.
Proof.
  rewrite Retry_2. destruct (fn s) as [s1 [err|]]; [eauto | discriminate].
Qed.

(** X21: when the save policy of [Pull] returns an error, an image really
    is unsaved: some reference of [fetched] is still in the work set and
    has not been persisted to the layout by any attempt. *)
Theorem save_failure_leaves_work (rt : Runtime) (h : Host) (cl : LayoutWriter)
    (fetched : gmap Image v1Image) (w : World) (e : error) :
  let out := save_images rt h cl fetched w in
  out.2 = Some e ->
  exists new k v,
    events (sworld out.1) = events w ++ new
    /\ toPull out.1 !! k = Some v
    /\ fetched !! k = Some v
    /\ k ∉ persisted new.
Proof.
  intros out He.
  destruct (save_images_inv rt h cl fetched (events w) w eq_refl)
    as [(new & Hev & _ & _ & Hto & _) _].
  fold out in Hev, Hto.
  assert (Hleft : exists k v, toPull out.1 !! k = Some v).
  { revert He. unfold out, save_images.
    destruct (Retry (sc rt h cl) 2 retry_warning _) as [st1 [err|]]; [|discriminate].
    intros He. destruct (Retry_error _ _ _ _ He) as [st' Hst']. rewrite Hst' in He |- *.
    revert He. unfold ss.
    destruct (SaveSequential rt h cl (toPull st') (sworld st')) as [[w' saved] err'] eqn:Hss.
    simpl. intros ->.
    destruct (SaveSequential_error_key rt h cl (toPull st') (sworld st') e) as (k & v & Hk & Hn).
    { now rewrite Hss. }
    rewrite Hss in Hn. simpl in Hn. exists k, v. unfold delete_saved.
    apply lookup_difference_Some. auto. }
  destruct Hleft as (k & v & Hk). exists new, k, v.
  split; [exact Hev|]. split; [exact Hk|].
  rewrite Hto in Hk. unfold remaining in Hk.
  destruct (decide (k ∈ persisted new)); [discriminate | auto].
Qed.

(** A layout that can write nothing. *)
Definition layout_full : LayoutWriter :=
  {| AppendImage := fun fs _ _ => (fs, Some (Errorf "no space left on device"));
     WriteImage := fun fs _ => (fs, Some (Errorf "no space left on device"));
     AppendDescriptor := fun fs _ => (fs, None);
     partial_Descriptor := fun _ => Ok (mkLayoutDescriptor (mkHash "sha256" "00") ∅) |}.

Lemma save_failure_leaves_work_witness :
  let out := save_images runtime_w CleanupSpec.host_w layout_full fetched_ab world_w in
  exists new k v,
    events (sworld out.1) = new
    /\ toPull out.1 !! k = Some v /\ fetched_ab !! k = Some v /\ k ∉ persisted new.
Proof.
  intros out.
  refine (save_failure_leaves_work runtime_w CleanupSpec.host_w layout_full fetched_ab world_w
            (Errorf "no space left on device") _).
  vm_cast_no_check (eq_refl (Some (Errorf "no space left on device"))).
Defined.

End PolicyMore.

(** ** What a successful [Pull] has done *)
Module PullSpec.
Import OS Save SaveSpec RetrySpec Repair PullAll Fetch FetchSpec FetchMore.
#[local] Open Scope list_scope.

(** X22: when [Pull] returns a map, the map is the one its fetch built: it
    has one entry for every reference of [cfg.ImageList] and no other, and
    each image of it is wrapped by the layer cache of
    [cfg.CacheDirectory]. The save policy of that same call, run on the
    layout [clayout.Write] made, has emptied its work set: each reference
    of the list has been persisted to the layout, exactly once; and the
    file system [Pull] leaves is the one the walk over the blobs left. *)
Theorem Pull_success (env : Remote) (h : Host) (setup : Setup) (rt : Runtime)
    (orders : nat -> list (string * string)) (sched : list nat) (fuel : nat)
    (cfg : PullConfig) (fs0 fs' : FS) (m : gmap Image v1Image) :
  Pull env h setup rt orders sched fuel cfg fs0 = Some (fs', Ok m) ->
  (forall refInfo, refInfo ∈ ImageList cfg <-> is_Some (m !! refInfo))
  /\ (forall refInfo img,
        m !! refInfo = Some img -> img_cache img = Some (CacheDirectory cfg))
  /\ exists fs1 fs2 cranePath total st,
       CreateDirectory setup fs0 (DestinationDirectory cfg) = (fs1, None)
       /\ clayout_Write setup fs1 (DestinationDirectory cfg) = (fs2, Ok cranePath)
       /\ fetch_result (run env cfg orders sched (init cfg)) = Some (Ok (m, total))
       /\ save_images rt h cranePath m {| wfs := fs2; events := [] |} = (st, None)
       /\ Walk fuel h (repair_fn h) (blobDirectory cfg) (wfs (sworld st)) = Some (fs', None)
       /\ toPull st = ∅
       /\ NoDup (persisted (events (sworld st)))
       /\ forall refInfo,
            refInfo ∈ persisted (events (sworld st)) <-> refInfo ∈ ImageList cfg.
Proof.
  intros HP. destruct (Pull_returns_fetched _ _ _ _ _ _ _ _ _ _ _ HP)
    as (fs1 & fs2 & cranePath & total & st & Hmk & Hwr & Hfetch & Hsave & Hwalk).
  assert (Hkeys : forall refInfo, refInfo ∈ ImageList cfg <-> is_Some (m !! refInfo)).
  { intros refInfo. eapply fetch_ok_keys, Hfetch. }
  split; [exact Hkeys|]. split.
  { intros refInfo img Himg. eapply fetch_ok_entry; eassumption. }
  exists fs1, fs2, cranePath, total, st.
  split; [exact Hmk|]. split; [exact Hwr|]. split; [exact Hfetch|].
  split; [exact Hsave|]. split; [exact Hwalk|].
  destruct (save_images_inv rt h cranePath m [] {| wfs := fs2; events := [] |} eq_refl)
    as [(new & Hev & Hnd & Hin & Hto & _) Hnone].
  rewrite Hsave in Hev, Hto, Hnone. simpl in Hev, Hto, Hnone.
  specialize (Hnone eq_refl). rewrite Hev. split; [exact Hnone|]. split; [exact Hnd|].
  intros refInfo. rewrite Hkeys. split; [apply Hin|]. intros Hsome.
  specialize (Hto refInfo). rewrite Hnone, lookup_empty in Hto. unfold remaining in Hto.
  destruct (decide (refInfo ∈ persisted new)); [assumption|].
  rewrite <- Hto in Hsome. by inversion Hsome.
Qed.

(** A run of [Pull] that succeeds: the path the walk starts from is a
    regular file. *)
Definition setup_w : Setup :=
  {| CreateDirectory := fun fs p => (<[p := Dir]> fs, None);
     clayout_Write := fun fs p =>
       (<[p ++ ["index.json"%string] := File "{}"]>
          (<[p ++ ["oci-layout"%string] := File "{}"]> fs),
        Ok layout_w) |}.

Definition fs_odd : FS :=
  list_to_map [(["pkg"], Dir); (["pkg"; "images"], Dir);
               (["pkg"; "images"; "images"], Dir);
               (["pkg"; "images"; "images"; "blobs"], Dir);
               (["pkg"; "images"; "images"; "blobs"; "sha256"], File "stray");
               (["work"], Dir)]%string.

Abbreviation Pull_w :=
  (Pull env_two (RepairSpec.host_of (fun c => c)) setup_w runtime_w (fun _ => [])
     alternating 1 cfg_two fs_odd).

Definition returned (o : option (FS * result (gmap Image v1Image))) : bool :=
  match o with
  | Some (_, Ok _) => true
  | _ => false
  end.

Lemma Pull_w_returned : returned Pull_w = true.
Proof. vm_cast_no_check (eq_refl true). Qed.

Lemma Pull_success_witness :
  exists fs' m,
    Pull_w = Some (fs', Ok m)
    /\ forall refInfo, refInfo ∈ ImageList cfg_two <-> is_Some (m !! refInfo).
Proof.
  pose proof Pull_w_returned as Hb.
  destruct Pull_w as [[fs' [m|e]]|] eqn:HP; [|discriminate Hb|discriminate Hb].
  exists fs', m. split; [reflexivity|].
  exact (proj1 (Pull_success env_two (RepairSpec.host_of (fun c => c)) setup_w runtime_w
                  (fun _ => []) alternating 1 cfg_two fs_odd fs' m HP)).
Defined.

Lemma Pull_needs_a_file_at_blobDirectory_witness :
  exists fs' m fs1 fs2 cranePath st content,
    Pull_w = Some (fs', Ok m)
    /\ CreateDirectory setup_w fs_odd (DestinationDirectory cfg_two) = (fs1, None)
    /\ clayout_Write setup_w fs1 (DestinationDirectory cfg_two) = (fs2, Ok cranePath)
    /\ save_images runtime_w (RepairSpec.host_of (fun c => c)) cranePath m
         {| wfs := fs2; events := [] |} = (st, None)
    /\ wfs (sworld st) !! blobDirectory cfg_two = Some (File content).
Proof.
  pose proof Pull_w_returned as Hb.
  destruct Pull_w as [[fs' [m|e]]|] eqn:HP; [|discriminate Hb|discriminate Hb].
  destruct (Pull_needs_a_file_at_blobDirectory env_two (RepairSpec.host_of (fun c => c))
              setup_w runtime_w (fun _ => []) alternating 1 cfg_two fs_odd fs' m
              (fun _ => eq_refl) HP)
    as (fs1 & fs2 & cranePath & st & content & H1 & H2 & H3 & H4).
  exists fs', m, fs1, fs2, cranePath, st, content. auto.
Defined.

End PullSpec.
